(** * Bill attribution engine: a shallow embedding of
      [out/post_label_bills.py] and [out/process_bills.py]

    Python [str] values are sequences of Unicode code points; they are
    modelled as lists of code points ([N]).  String literals of the source are
    written as UTF-8 Rocq strings and decoded by [py].

    The program consults the Unicode Character Database in three places:
    [unicodedata.normalize("NFKC", _)], the class [\d] of [re] and the
    case-insensitive comparison of [re.IGNORECASE].  The database is not part
    of the repository, so the embedding takes it as a record [unicode_db]. *)

From Stdlib Require Import List Bool Arith NArith ZArith QArith Qround Lia.
From Stdlib Require Import Ascii String DecimalString Permutation Sorted.
Import ListNotations.

Set Implicit Arguments.

(* ================================================================== *)
(** ** Python strings *)

Module PyStr.

Definition char := N.
Definition str := list char.

(** UTF-8 decoding of a literal (well-formed input assumed, as the literals
    of this file are). *)
Fixpoint utf8_decode (bs : list N) : str :=
  match bs with
  | [] => []
  | b :: r =>
      if (b <? 128)%N then b :: utf8_decode r
      else if (b <? 224)%N then
        match r with
        | b1 :: r' => ((b mod 32) * 64 + b1 mod 64)%N :: utf8_decode r'
        | _ => []
        end
      else if (b <? 240)%N then
        match r with
        | b1 :: b2 :: r' =>
            ((b mod 16) * 4096 + (b1 mod 64) * 64 + b2 mod 64)%N :: utf8_decode r'
        | _ => []
        end
      else
        match r with
        | b1 :: b2 :: b3 :: r' =>
            ((b mod 8) * 262144 + (b1 mod 64) * 4096 + (b2 mod 64) * 64 + b3 mod 64)%N
              :: utf8_decode r'
        | _ => []
        end
  end.

Definition py (s : string) : str :=
  utf8_decode (map N_of_ascii (list_ascii_of_string s)).

Definition LF : char := 10%N.
Definition SP : char := 32%N.
Definition LPAREN : char := 40%N.
Definition RPAREN : char := 41%N.
Definition HYPHEN : char := 45%N.
Definition DOT : char := 46%N.
Definition SEMICOLON : char := 59%N.

Fixpoint str_eqb (a b : str) : bool :=
  match a, b with
  | [], [] => true
  | x :: a', y :: b' => (x =? y)%N && str_eqb a' b'
  | _, _ => false
  end.

(** [x in l] for a list of strings. *)
Definition mem (x : str) (l : list str) : bool := existsb (str_eqb x) l.

(** [s.startswith(p)] *)
Fixpoint startswith (p s : str) : bool :=
  match p, s with
  | [], _ => true
  | x :: p', y :: s' => (x =? y)%N && startswith p' s'
  | _ :: _, [] => false
  end.

(** [p in s] for strings: [p] occurs in [s] as a contiguous substring. *)
Fixpoint contains (p s : str) : bool :=
  startswith p s || match s with [] => false | _ :: s' => contains p s' end.

(** [Py_UNICODE_ISSPACE]: what [str.isspace], [str.strip()] and [\s] of [re]
    (on [str] patterns) test. *)
Definition is_space (c : char) : bool :=
  ((9 <=? c) && (c <=? 13) || (28 <=? c) && (c <=? 32)
   || (c =? 133) || (c =? 160) || (c =? 5760)
   || (8192 <=? c) && (c <=? 8202)
   || (c =? 8232) || (c =? 8233) || (c =? 8239) || (c =? 8287) || (c =? 12288))%N.

Fixpoint dropWhile (p : char -> bool) (s : str) : str :=
  match s with
  | [] => []
  | c :: r => if p c then dropWhile p r else s
  end.

Fixpoint takeWhile (p : char -> bool) (s : str) : str :=
  match s with
  | [] => []
  | c :: r => if p c then c :: takeWhile p r else []
  end.

Definition lstrip (s : str) : str := dropWhile is_space s.

Fixpoint rstrip (s : str) : str :=
  match s with
  | [] => []
  | c :: r =>
      match rstrip r with
      | [] => if is_space c then [] else [c]
      | r' => c :: r'
      end
  end.

(** [s.strip()] *)
Definition strip (s : str) : str := rstrip (lstrip s).

(** [s.replace(old, new)] for a non-empty [old] (it is a literal at every
    call site): the occurrences of [old] are found left to right, without
    overlap.  [skip] counts the characters of an occurrence still to be
    passed over. *)
Fixpoint replace_go (old new : str) (skip : nat) (s : str) : str :=
  match s with
  | [] => []
  | c :: r =>
      match skip with
      | S k => replace_go old new k r
      | O =>
          if startswith old s
          then new ++ replace_go old new (pred (List.length old)) r
          else c :: replace_go old new 0 r
      end
  end.

Definition replace (old new s : str) : str := replace_go old new 0 s.

(** [re.sub(r"[class]+", rep, s)]: every maximal run of characters of the
    class is replaced by [rep].  [inrun] tells that the previous character
    belonged to a run already replaced. *)
Fixpoint sub_runs (p : char -> bool) (rep : str) (inrun : bool) (s : str) : str :=
  match s with
  | [] => []
  | c :: r =>
      if p c then (if inrun then sub_runs p rep true r else rep ++ sub_runs p rep true r)
      else c :: sub_runs p rep false r
  end.

(** [re.split(r"[class]+", s)]: the pieces between the maximal runs of
    separator characters, empty pieces at either end included.  [acc] is the
    piece being read (reversed). *)
Fixpoint split_runs (p : char -> bool) (acc : str) (insep : bool) (s : str) : list str :=
  match s with
  | [] => [rev acc]
  | c :: r =>
      if p c then (if insep then split_runs p [] true r
                   else rev acc :: split_runs p [] true r)
      else split_runs p (c :: acc) false r
  end.

(** [re.findall(r"[class]+", s)]: the maximal runs of characters of the
    class, left to right. *)
Fixpoint findall_runs (p : char -> bool) (acc : str) (s : str) : list str :=
  match s with
  | [] => match acc with [] => [] | _ => [rev acc] end
  | c :: r =>
      if p c then findall_runs p (c :: acc) r
      else match acc with
           | [] => findall_runs p [] r
           | _ => rev acc :: findall_runs p [] r
           end
  end.

(** [str(n)] for an [int]. *)
Definition str_of_Z (z : Z) : str :=
  map N_of_ascii (list_ascii_of_string (NilZero.string_of_int (Z.to_int z))).

(** Truth value of an optional string: [None] and [""] are false. *)
Definition truthy (o : option str) : bool :=
  match o with
  | Some (_ :: _) => true
  | _ => false
  end.

End PyStr.
Export PyStr.

(* ================================================================== *)
(** ** The Unicode Character Database *)

(** What the program asks of the database, with the facts about it that the
    regular expressions of the source rely on to be unambiguous: an ASCII
    character is a decimal digit ([\d]) exactly when it is [0]..[9], and no
    decimal digit is white space. *)
Record unicode_db : Type := {
  NFKC : str -> str;
  is_decimal : char -> bool;
  eq_ignorecase : char -> char -> bool;
  ascii_decimal : forall c, (c < 128)%N ->
      is_decimal c = ((48 <=? c) && (c <=? 57))%N;
  decimal_not_space : forall c, is_decimal c = true -> is_space c = false;
  eq_ignorecase_refl : forall c, eq_ignorecase c c = true
}.

Definition ascii_lower (c : char) : char :=
  if ((65 <=? c) && (c <=? 90))%N then (c + 32)%N else c.

(** The database restricted to text written in Basic Latin, Greek letters and
    precomposed Hangul syllables, the repertoire of the closed examples of
    this file: none of these characters has a decomposition or combines with
    a neighbour, so NFKC leaves such text as it is; its only decimal digits
    are [0]..[9]; and its only case pairs used are [A]..[Z] with [a]..[z]. *)
Definition ucd_latin_hangul : unicode_db.
Proof.
  refine {| NFKC := fun s => s;
            is_decimal := fun c => ((48 <=? c) && (c <=? 57))%N;
            eq_ignorecase := fun p c => (ascii_lower p =? ascii_lower c)%N |}.
  - reflexivity.
  - intros c H. apply andb_true_iff in H. destruct H as [H1 H2].
    apply N.leb_le in H1. apply N.leb_le in H2.
    assert (D : (c = 48 \/ c = 49 \/ c = 50 \/ c = 51 \/ c = 52 \/
                 c = 53 \/ c = 54 \/ c = 55 \/ c = 56 \/ c = 57)%N) by lia.
    repeat (destruct D as [D|D]; [subst c; reflexivity|]).
    subst c. reflexivity.
  - intro c. apply N.eqb_refl.
Defined.

(* ================================================================== *)
(** ** [out/post_label_bills.py] *)

Module PostLabelBills.

(** One record of the transcript (a JSON object).  A field is [None] when the
    key is absent or null; [rec.get(...)] reads both as [None]. *)
Record speech : Type := {
  speech_id : str;
  member_name : option str;
  bills : option str;
  speech_text : option str
}.

(** An entry of [bill_map].  A compiled pattern [spaced_pat(w)] is kept as the
    word [w] it was compiled from. *)
Record bill_entry : Type := {
  raw_variants : list str;      (* a [set]: no duplicates *)
  keywords : list str;
  patterns : list str
}.

(** An insertion-ordered [dict]. *)
Definition dict (K V : Type) := list (K * V).

Section Dict.
Variables (K V : Type) (eqb : K -> K -> bool).

Fixpoint dict_get (d : dict K V) (k : K) : option V :=
  match d with
  | [] => None
  | (k', v) :: d' => if eqb k k' then Some v else dict_get d' k
  end.

(** [k in d] *)
Definition dict_mem (d : dict K V) (k : K) : bool :=
  match dict_get d k with Some _ => true | None => false end.

(** [d[k] = v]: an existing key keeps its place, a new one goes last. *)
Fixpoint dict_set (d : dict K V) (k : K) (v : V) : dict K V :=
  match d with
  | [] => [(k, v)]
  | (k', v') :: d' =>
      if eqb k k' then (k', v) :: d' else (k', v') :: dict_set d' k v
  end.

(** [list(d.keys())] *)
Definition dict_keys (d : dict K V) : list K := map fst d.
End Dict.

Definition opt_str_eqb (a b : option str) : bool :=
  match a, b with
  | None, None => true
  | Some x, Some y => str_eqb x y
  | _, _ => false
  end.

(** [STOP_PHRASES] *)
Definition STOP_PHRASES : list str :=
  map py ["일부개정법률안"; "법률안"; "대안"; "정부 제출"; "의원 대표발의"; "대표발의";
          "위원장 제출"; "의안번호"; "정부제출"; "제출"; "소위자료"; "안건"]%string.

(** [BILL_STOP_TOKENS] *)
Definition BILL_STOP_TOKENS : list str :=
  map py ["일부개정"; "개정"; "법률"; "법"; "대책"; "에"; "관한"; "및"; "의"; "등"; "관련"; "사항";
          "제정"; "일괄"; "추진"; "보고"; "자료"; "소위"; "위원회"; "위원"; "정부"; "제출"; "위원장";
          "대표발의"; "대안"; "의안"; "번호"; "검토"; "안"; "개요"; "기타"]%string.

(** [re.sub(r"\s+", " ", s).strip()] *)
Definition clean_spaces (s : str) : str :=
  strip (sub_runs is_space [SP] false s).

(** The class [[·•\-–—]] of [RE_DANGLING_MARKS]. *)
Definition is_dangling_mark (c : char) : bool :=
  ((c =? 183) || (c =? 8226) || (c =? HYPHEN) || (c =? 8211) || (c =? 8212))%N.

(** [RE_DANGLING_MARKS.sub(" ", s)] *)
Definition RE_DANGLING_MARKS_sub (s : str) : str :=
  sub_runs is_dangling_mark [SP] false s.

(** [RE_PARENS.sub("", s)] for [RE_PARENS = \([^()]*\)].  Scanning left to
    right, an opening parenthesis starts a candidate group; [pending] holds
    the characters read since (reversed).  A closing parenthesis completes the
    group, which is dropped; another opening parenthesis or the end of the
    string shows that the candidate was no match, and it is put back. *)
Fixpoint RE_PARENS_go (pending : option str) (s : str) : str :=
  match s with
  | [] => match pending with
          | Some buf => LPAREN :: rev buf
          | None => []
          end
  | c :: r =>
      match pending with
      | None =>
          if (c =? LPAREN)%N then RE_PARENS_go (Some []) r
          else c :: RE_PARENS_go None r
      | Some buf =>
          if (c =? RPAREN)%N then RE_PARENS_go None r
          else if (c =? LPAREN)%N then LPAREN :: rev buf ++ RE_PARENS_go (Some []) r
          else RE_PARENS_go (Some (c :: buf)) r
      end
  end.

Definition RE_PARENS_sub (s : str) : str := RE_PARENS_go None s.

(** [RE_PARENS.search(s) is not None]: some group [( ... )] without a
    parenthesis inside occurs in [s].  [opened] tells that an opening
    parenthesis was read and no parenthesis since. *)
Fixpoint RE_PARENS_search_go (opened : bool) (s : str) : bool :=
  match s with
  | [] => false
  | c :: r =>
      if (c =? LPAREN)%N then RE_PARENS_search_go true r
      else if (c =? RPAREN)%N then (opened || RE_PARENS_search_go false r)
      else RE_PARENS_search_go opened r
  end.

Definition RE_PARENS_search (s : str) : bool := RE_PARENS_search_go false s.

Section WithUnicode.
Variable U : unicode_db.

Definition normalize_text (s : str) : str :=
  match s with
  | [] => []
  | _ => NFKC U s
  end.

(** [RE_PREFIX_NUM.match(s)] for [RE_PREFIX_NUM = ^\s*\d+\s*[.\)]\s*]: the
    rest of [s] after the match, if there is one.  The classes that follow
    one another are disjoint, so the greedy reading is the only one. *)
Definition RE_PREFIX_NUM_match (s : str) : option str :=
  let s1 := dropWhile is_space s in
  match takeWhile (is_decimal U) s1 with
  | [] => None
  | _ :: _ =>
      match dropWhile is_space (dropWhile (is_decimal U) s1) with
      | c :: s4 =>
          if ((c =? DOT) || (c =? RPAREN))%N
          then Some (dropWhile is_space s4)
          else None
      | [] => None
      end
  end.

(** [RE_PREFIX_NUM.sub("", s)]: the pattern is anchored, so it matches at
    most once, at the start. *)
Definition RE_PREFIX_NUM_sub (s : str) : str :=
  match RE_PREFIX_NUM_match s with
  | Some rest => rest
  | None => s
  end.

(** The loop [for sp in STOP_PHRASES: s = s.replace(sp, "")]. *)
Definition remove_stop_phrases (s : str) : str :=
  fold_left (fun acc sp => replace sp [] acc) STOP_PHRASES s.

Definition normalize_bill_title (raw : str) : str :=
  match raw with
  | [] => []
  | _ =>
      let s := normalize_text raw in
      let s := replace [LF] [SP] s in
      let s := RE_PREFIX_NUM_sub s in
      let s := RE_PARENS_sub s in
      let s := RE_DANGLING_MARKS_sub s in
      let s := clean_spaces s in
      let s := remove_stop_phrases s in
      let s := clean_spaces s in
      s
  end.

(** The class [[가-힣A-Za-z0-9]] of the tokenizer. *)
Definition is_token_char (c : char) : bool :=
  ((44032 <=? c) && (c <=? 55203) || (65 <=? c) && (c <=? 90)
   || (97 <=? c) && (c <=? 122) || (48 <=? c) && (c <=? 57))%N.

(** [len(tok) <= 1] is skipped, and so is a member of [BILL_STOP_TOKENS]. *)
Definition keep_token (tok : str) : bool :=
  negb (Nat.leb (List.length tok) 1) && negb (mem tok BILL_STOP_TOKENS).

(** [Counter(kept)]: the counts, keyed in order of first occurrence. *)
Definition Counter (kept : list str) : dict str nat :=
  fold_left (fun cnt w =>
               match dict_get str_eqb cnt w with
               | Some n => dict_set str_eqb cnt w (S n)
               | None => dict_set str_eqb cnt w 1%nat
               end) kept [].

(** [sorted(items, key=itemgetter(1), reverse=True)]: a stable sort, the
    items of equal count keep their order. *)
Fixpoint insert_desc (x : str * nat) (l : list (str * nat)) : list (str * nat) :=
  match l with
  | [] => [x]
  | y :: l' => if Nat.ltb (snd x) (snd y) then y :: insert_desc x l' else x :: l
  end.

Definition sorted_desc (items : list (str * nat)) : list (str * nat) :=
  fold_right insert_desc [] items.

(** [cnt.most_common(n)], that is [heapq.nlargest(n, cnt.items(), key=count)],
    which is [sorted(cnt.items(), key=count, reverse=True)[:n]] for [n >= 0]
    and empty for a negative [n]. *)
Definition most_common (cnt : dict str nat) (n : Z) : list (str * nat) :=
  firstn (Z.to_nat n) (sorted_desc cnt).

Definition tokens_of (title : str) : list str :=
  findall_runs is_token_char [] (normalize_text title).

Definition extract_keywords_from_bill (title : str) (topk : Z) : list str :=
  let tokens := tokens_of title in
  let kept := filter keep_token tokens in
  let cnt := Counter kept in
  map fst (most_common cnt topk).

(** A match of [spaced_pat(word)] (the characters of [word] joined by [\s*],
    flags [IGNORECASE|DOTALL]) after its first character: the number of
    characters of [s] it takes.  [\s*] is greedy: white space is first taken
    as part of it, and given back when the rest does not match then. *)
Fixpoint spaced_pat_tail (w : str) (s : str) : option nat :=
  match w with
  | [] => Some 0%nat
  | c :: w' =>
      (fix ws (s : str) : option nat :=
         match s with
         | [] => None
         | x :: s' =>
             let lit := if eq_ignorecase U c x
                        then option_map S (spaced_pat_tail w' s') else None in
             if is_space x then
               match ws s' with
               | Some n => Some (S n)
               | None => lit
               end
             else lit
         end) s
  end.

(** [spaced_pat(word).match(s)]: the length of the match at the start of [s]. *)
Definition spaced_pat_match (word : str) (s : str) : option nat :=
  match word, s with
  | c :: w', x :: s' =>
      if eq_ignorecase U c x then option_map S (spaced_pat_tail w' s') else None
  | _, _ => None
  end.

(** [len(list(spaced_pat(word).finditer(s)))]: the matches are found left to
    right and do not overlap; [skip] counts the characters of a match still
    to be passed over. *)
Fixpoint finditer_count (word : str) (skip : nat) (s : str) : nat :=
  match s with
  | [] => 0%nat
  | _ :: r =>
      match skip with
      | S k => finditer_count word k r
      | O =>
          match spaced_pat_match word s with
          | Some n => S (finditer_count word (pred n) r)
          | None => finditer_count word 0 r
          end
      end
  end.

(** [[spaced_pat(w) for w in words if w]] *)
Definition build_keyword_patterns (words : list str) : list str :=
  filter (fun w => match w with [] => false | _ => true end) words.

Definition is_field_separator (c : char) : bool :=
  ((c =? LF) || (c =? SEMICOLON))%N.

Definition split_raw_bills_field (bills : option str) : list str :=
  match bills with
  | None | Some [] => []
  | Some b =>
      let s := normalize_text b in
      let parts := split_runs is_field_separator [] false s in
      map clean_spaces
          (filter (fun p => match clean_spaces p with [] => false | _ => true end) parts)
  end.

(** [set.add] *)
Definition set_add (x : str) (l : list str) : list str :=
  if mem x l then l else l ++ [x].

(** The first loop of [collect_bills_and_keywords]. *)
Definition bill_variants (speeches : list speech) : list str :=
  flat_map (fun rec => split_raw_bills_field (bills rec)) speeches.

(** The second loop: [canonical_set], from a canonical title to the set of
    its raw variants. *)
Definition canonical_set_add (cs : dict str (list str)) (raw : str) : dict str (list str) :=
  match normalize_bill_title raw with
  | [] => cs
  | canon =>
      match dict_get str_eqb cs canon with
      | Some vs => dict_set str_eqb cs canon (set_add raw vs)
      | None => dict_set str_eqb cs canon (set_add raw [])
      end
  end.

Definition canonical_set (variants : list str) : dict str (list str) :=
  fold_left canonical_set_add variants [].

(** An item of [unique_bills]. *)
Record bill_summary : Type := {
  canonical : str;
  summary_raw_variants : list str;
  summary_keywords : list str
}.

(** [a < b] for strings: the order of [sorted]. *)
Fixpoint str_ltb (a b : str) : bool :=
  match a, b with
  | _, [] => false
  | [], _ :: _ => true
  | x :: a', y :: b' => (x <? y)%N || ((x =? y)%N && str_ltb a' b')
  end.

Fixpoint insert_str (x : str) (l : list str) : list str :=
  match l with
  | [] => [x]
  | y :: l' => if str_ltb y x then y :: insert_str x l' else x :: l
  end.

Definition sorted_strs (l : list str) : list str := fold_right insert_str [] l.

Definition entry_of (canon : str) (variants : list str) : bill_entry :=
  let kws := extract_keywords_from_bill canon 8 in
  {| raw_variants := variants;
     keywords := kws;
     patterns := build_keyword_patterns (canon :: kws) |}.

Definition collect_bills_and_keywords (speeches : list speech)
  : list bill_summary * dict str bill_entry :=
  let cs := canonical_set (bill_variants speeches) in
  (map (fun '(canon, vs) =>
          {| canonical := canon;
             summary_raw_variants := sorted_strs vs;
             summary_keywords := extract_keywords_from_bill canon 8 |}) cs,
   map (fun '(canon, vs) => (canon, entry_of canon vs)) cs).

(** [(h, s) > (h', s')] on tuples. *)
Definition score_gt (a b : Z * Z) : bool :=
  ((fst b <? fst a) || ((fst a =? fst b) && (snd b <? snd a)))%Z.

Definition score_text_for_bill (text : str) (bill_entry : bill_entry) : Z * Z :=
  match text with
  | [] => (0, 0)%Z
  | _ =>
      let T := normalize_text text in
      let pats := patterns bill_entry in
      fold_left
        (fun '(hard, soft) '(i, pat) =>
           let n := finditer_count pat 0 T in
           if Nat.eqb n 0 then (hard, soft)
           else if Nat.eqb i 0 then (hard + Z.of_nat n, soft)%Z
           else (hard, soft + Z.of_nat n)%Z)
        (combine (seq 0 (List.length pats)) pats)
        (0, 0)%Z
  end.

(** [bill_map[c]] scored against [text]; [c] is a key of [bill_map] at
    every call. *)
Definition score_of (bill_map : dict str bill_entry) (text : str) (c : str) : Z * Z :=
  match dict_get str_eqb bill_map c with
  | Some e => score_text_for_bill text e
  | None => (0, 0)%Z
  end.

(** The loop shared by [choose_by_score] and the cross-check of the
    candidates: the first title of the greatest score. *)
Definition best_by_score (bill_map : dict str bill_entry) (text : str)
           (titles : list str) : option str * (Z * Z) :=
  fold_left
    (fun '(best, best_score) c =>
       let sc := score_of bill_map text c in
       if score_gt sc best_score then (Some c, sc) else (best, best_score))
    titles
    (None, (-1, -1)%Z).

Definition text_conf (sc : Z * Z) : Q :=
  if (0 <? fst sc)%Z then 0.9
  else if (2 <=? snd sc)%Z then 0.6
  else if (snd sc =? 1)%Z then 0.4
  else 0.0.

(** [f"hard={h}, soft={s}"] *)
Definition score_reason (sc : Z * Z) : str :=
  py "hard=" ++ str_of_Z (fst sc) ++ py ", soft=" ++ str_of_Z (snd sc).

Definition choose_by_score (bill_map : dict str bill_entry) (text : str)
  : option str * Q * str :=
  let canon_list := dict_keys bill_map in
  match best_by_score bill_map text canon_list with
  | (None, _) => (None, 0.0, py "no-match")
  | (Some best, best_score) => (Some best, text_conf best_score, score_reason best_score)
  end.

(** The two variables carried from one record to the next. *)
Record state : Type := {
  last_agenda_canon : option str;
  last_by_speaker : dict (option str) str
}.

Definition initial_state : state :=
  {| last_agenda_canon := None; last_by_speaker := [] |}.

(** A record of the output: [dict(rec)] with three more keys. *)
Record labeled : Type := {
  rec_of : speech;
  bill_assigned : option str;
  bill_confidence : Q;
  bill_reason : str
}.

Definition or_empty (o : option str) : str :=
  match o with
  | Some s => s
  | None => []
  end.

Definition Qltb (a b : Q) : bool := negb (Qle_bool b a).

(** [max(a, b)] *)
Definition Qmax2 (a b : Q) : Q := if Qltb a b then b else a.

(** [round(x, 2)]: to the nearest hundredth, a tie to the even one. *)
Definition round2 (x : Q) : Q :=
  let y := (x * 100)%Q in
  let f := Qfloor y in
  let n := match Qcompare (y - inject_Z f) (1 # 2) with
           | Lt => f
           | Gt => (f + 1)%Z
           | Eq => if Z.even f then f else (f + 1)%Z
           end in
  (n # 100).

Definition cand_conf (sc : Z * Z) : Q :=
  if ((fst sc =? 0) && (snd sc =? 0))%Z then 0.6
  else if (0 <? fst sc)%Z then 0.9 else 0.7.

(** [f"bills-field-candidate + text({h},{s})"] *)
Definition cand_reason (sc : Z * Z) : str :=
  py "bills-field-candidate + text(" ++ str_of_Z (fst sc) ++ py ","
     ++ str_of_Z (snd sc) ++ py ")".

(** [candidates] of a record: the pieces of its field, normalized, the
    empty ones and the ones that are no key of [bill_map] left out. *)
Definition candidates_of (bill_map : dict str bill_entry) (rec : speech) : list str :=
  let raw_bills := split_raw_bills_field (Some (or_empty (bills rec))) in
  let candidates :=
    map normalize_bill_title
        (filter (fun b => match normalize_bill_title b with [] => false | _ => true end)
                raw_bills) in
  filter (fun c => dict_mem str_eqb bill_map c) candidates.

(** The three variables [picked], [conf], [why] of the loop body. *)
Definition pick : Type := (option str * Q * str)%type.

(** 2) the text is scored against every bill. *)
Definition step2 (bill_map : dict str bill_entry) (text : str) (p : pick) : pick :=
  let '(t_pick, t_conf, t_reason) := choose_by_score bill_map text in
  if truthy t_pick
  then (t_pick, t_conf, py "text-match(" ++ t_reason ++ py ")")
  else p.

(** 3) the candidates of the record's own field, when the text says little. *)
Definition step3 (bill_map : dict str bill_entry) (text : str)
           (candidates : list str) (p : pick) : pick :=
  let '(picked, conf, why) := p in
  match candidates with
  | _ :: _ =>
      if Qltb conf 0.6 then
        let '(best_cand, best_cscore) := best_by_score bill_map text candidates in
        if truthy best_cand
        then (best_cand, Qmax2 conf (cand_conf best_cscore), cand_reason best_cscore)
        else p
      else p
  | [] => p
  end.

(** 4) the bill of the previous records. *)
Definition step4 (st : state) (p : pick) : pick :=
  let '(picked, conf, why) := p in
  if negb (truthy picked) && truthy (last_agenda_canon st)
  then (last_agenda_canon st, 0.5, py "agenda-flow")
  else p.

(** 5) the last bill of the same speaker. *)
Definition step5 (st : state) (rec : speech) (p : pick) : pick :=
  let '(picked, conf, why) := p in
  let spk := member_name rec in
  if negb (truthy picked) && dict_mem opt_str_eqb (last_by_speaker st) spk
  then (dict_get opt_str_eqb (last_by_speaker st) spk, 0.45, py "speaker-history")
  else p.

(** Steps 1 to 5 of the loop body: the pick, its confidence and its reason,
    from the state as the previous records left it. *)
Definition pick_bill (bill_map : dict str bill_entry) (st : state) (rec : speech)
  : pick :=
  let text := or_empty (speech_text rec) in
  let candidates := candidates_of bill_map rec in
  step5 st rec
    (step4 st
       (step3 bill_map text candidates
          (step2 bill_map text (None, 0.0, [])))).

(** Step 6: the state after the record. *)
Definition update_state (st : state) (rec : speech) (picked : option str) : state :=
  match picked with
  | Some ((_ :: _) as b) =>
      {| last_agenda_canon := Some b;
         last_by_speaker := dict_set opt_str_eqb (last_by_speaker st) (member_name rec) b |}
  | _ => st
  end.

(** One turn of the loop of [assign_bills_to_speeches]. *)
Definition label_speech (bill_map : dict str bill_entry) (st : state) (rec : speech)
  : state * labeled :=
  let '(picked, conf, why) := pick_bill bill_map st rec in
  (update_state st rec picked,
   {| rec_of := rec;
      bill_assigned := picked;
      bill_confidence := round2 conf;
      bill_reason := why |}).

(** The loop, from a given state. *)
Fixpoint label_from (bill_map : dict str bill_entry) (st : state)
         (speeches : list speech) : state * list labeled :=
  match speeches with
  | [] => (st, [])
  | rec :: rest =>
      let '(st1, l) := label_speech bill_map st rec in
      let '(st2, ls) := label_from bill_map st1 rest in
      (st2, l :: ls)
  end.

Definition assign_bills_to_speeches (speeches : list speech)
           (bill_map : dict str bill_entry) : list labeled :=
  snd (label_from bill_map initial_state speeches).

(** The two calls of [main]: the registry is built from the transcript that
    is then labelled. *)
Definition main (speeches : list speech) : list bill_summary * list labeled :=
  let '(unique_bills, bill_map) := collect_bills_and_keywords speeches in
  (unique_bills, assign_bills_to_speeches speeches bill_map).

End WithUnicode.

End PostLabelBills.

Import PostLabelBills.

(* ================================================================== *)
(** ** [out/process_bills.py] *)

Module ProcessBills.

(** What the call of the language model inside the [try] block comes to:
    the text of [response.choices[0].message.content], or an exception
    (transport error, timeout, a response without the expected fields). *)
Inductive reply : Type :=
  | Content (s : str)
  | Raised.

(** The value of a field of a record, as [json.load] gives it.  The program
    tells a string from the other values ([split] is a method of strings),
    and it puts values into messages; a value that is no string is kept with
    the text that [str] makes of it. *)
Inductive json : Type :=
  | Str (s : str)
  | Null
  | Other (shown : str).  (* a number, a boolean, an array or an object *)

(** A record of the transcript: a JSON object, keyed by the names of its
    fields.  The transcript is a JSON array of such objects; a field may be
    missing, [null], or of any type. *)
Definition record : Type := dict str json.

(** The exceptions raised in the loop of [process_speeches] outside a [try]
    block. *)
Inductive exception : Type :=
  | AttributeError         (* [bill_string.split] on a value that is no string *)
  | KeyError (key : str).  (* [speech['speech_id']] on a record without the key *)

(** What a piece of code comes to: it returns a value, or it raises. *)
Inductive run (A : Type) : Type :=
  | Returns (a : A)
  | Raises (e : exception).

Arguments Raises {A} e.

(** The calls of [logging] that tell the paths apart. *)
Inductive log_record : Type :=
  | Info_analysing (i total : nat) (id : str) (n : nat)
  | Info_same_names
  | Warning_names_differ
  | Info_selected (b : str)
  | Warning_not_in_list (chosen : str)     (* "... 첫 번째 법안으로 대체합니다." *)
  | Error_call_failed
  | Warning_analysis_failed (id : str).

(** [s.split(sep)] for a one-character separator. *)
Fixpoint split_char (sep : char) (acc : str) (s : str) : list str :=
  match s with
  | [] => [rev acc]
  | c :: r =>
      if (c =? sep)%N then rev acc :: split_char sep [] r
      else split_char sep (c :: acc) r
  end.

(** [len(set(l))] *)
Fixpoint distinct (l : list str) : list str :=
  match l with
  | [] => []
  | x :: r => if mem x r then distinct r else x :: distinct r
  end.

(** The lazy group [(.*?)] followed by [(?:\(|$)]: the characters up to the
    first opening parenthesis or the end; [.] does not match a line feed. *)
Fixpoint lazy_name (s : str) : option str :=
  match s with
  | [] => Some []
  | c :: r =>
      if (c =? LPAREN)%N then Some []
      else if (c =? LF)%N then None
      else option_map (cons c) (lazy_name r)
  end.

Section WithUnicode.
Variable U : unicode_db.

(** [re.search(r'^\d+\.\s*(.*?)(?:\(|$)', bill_string.strip())] *)
Definition get_bill_name (bill_string : str) : str :=
  let s := strip bill_string in
  match takeWhile (is_decimal U) s, dropWhile (is_decimal U) s with
  | _ :: _, c :: r =>
      if (c =? DOT)%N then
        match lazy_name (dropWhile is_space r) with
        | Some name => strip name
        | None => s
        end
      else s
  | _, _ => s
  end.

(** The comparison of the answer with the list, then the default. *)
Definition same_bill (chosen original : str) : bool :=
  str_eqb chosen original || contains chosen original || contains original chosen.

Definition find_most_relevant_bill (client : str -> list str -> reply)
           (speech_text : str) (bill_list : list str)
  : option str * list log_record :=
  match client speech_text bill_list with
  | Raised => (None, [Error_call_failed])
  | Content content =>
      let chosen_bill := strip content in
      match find (same_bill chosen_bill) bill_list with
      | Some original_bill => (Some original_bill, [])
      | None =>
          match bill_list with
          | first :: _ => (Some first, [Warning_not_in_list chosen_bill])
          | [] => (None, [Warning_not_in_list chosen_bill; Error_call_failed])
          end
      end
  end.

(** The language model: what it answers to the call made for the record at
    position [i], given the text of the speech and the list of bills. *)
Variable ask : nat -> str -> list str -> reply.

(** [speech.get(key, '')]: the default is for a record without the key; a
    key that is there with [null] gives [None]. *)
Definition speech_get (speech : record) (key : str) : json :=
  match dict_get str_eqb speech key with
  | Some v => v
  | None => Str []
  end.

(** [f"{v}"]: a value as it is put into a message or into the prompt. *)
Definition shown_as (v : json) : str :=
  match v with
  | Str s => s
  | Null => py "None"
  | Other shown => shown
  end.

(** [[b.strip() for b in bill_string.split('\n') if b.strip()]]; only a
    string has the method [split]. *)
Definition bill_list_of (bill_string : json) : run (list str) :=
  match bill_string with
  | Str s =>
      Returns
        (map strip
             (filter (fun b => match strip b with [] => false | _ => true end)
                     (split_char LF [] s)))
  | Null | Other _ => Raises AttributeError
  end.

(** The body of the loop of [process_speeches] for the record at position
    [i]: the record appended to [processed_speeches] or the exception that
    ends the run, and what is logged. *)
Definition process_speech (total i : nat) (speech : record)
  : run record * list log_record :=
  let new_speech := speech in
  let bill_string := speech_get speech (py "bills") in
  let speech_text := speech_get speech (py "speech_text") in
  match bill_list_of bill_string with
  | Raises e => (Raises e, [])
  | Returns bill_list =>
      if Nat.leb (List.length bill_list) 1 then (Returns new_speech, [])
      else
        match dict_get str_eqb speech (py "speech_id") with
        | None => (Raises (KeyError (py "speech_id")), [])
        | Some speech_id =>
            let bill_names := map get_bill_name bill_list in
            let log1 := [Info_analysing (S i) total (shown_as speech_id)
                                        (List.length bill_list)] in
            if Nat.eqb (List.length (distinct bill_names)) 1
            then (Returns new_speech, log1 ++ [Info_same_names])
            else
              let '(most_relevant_bill, log2) :=
                find_most_relevant_bill (ask i) (shown_as speech_text) bill_list in
              if truthy most_relevant_bill
              then (Returns (dict_set str_eqb new_speech (py "bills")
                                      (Str (or_empty most_relevant_bill))),
                    log1 ++ [Warning_names_differ] ++ log2
                         ++ [Info_selected (or_empty most_relevant_bill)])
              else (Returns new_speech,
                    log1 ++ [Warning_names_differ] ++ log2
                         ++ [Warning_analysis_failed (shown_as speech_id)])
        end
  end.

(** The loop over [enumerate(speeches)], from position [i]; an exception
    ends it. *)
Fixpoint process_from (total i : nat) (speeches : list record)
  : run (list record) * list log_record :=
  match speeches with
  | [] => (Returns [], [])
  | speech :: rest =>
      match process_speech total i speech with
      | (Raises e, log) => (Raises e, log)
      | (Returns new_speech, log) =>
          match process_from total (S i) rest with
          | (Returns processed, logs) => (Returns (new_speech :: processed), log ++ logs)
          | (Raises e, logs) => (Raises e, log ++ logs)
          end
      end
  end.

(** [process_speeches] on the transcript read from the input file: the
    records written to the output file, or the exception that ends the run
    before anything is written. *)
Definition process_speeches (speeches : list record)
  : run (list record) * list log_record :=
  process_from (List.length speeches) 0 speeches.

End WithUnicode.

End ProcessBills.

Import ProcessBills.

(* ================================================================== *)
(** * The vocabulary of the properties *)

(** ** The resolver *)

(** The key of a registry is a canonical title, which
    [collect_bills_and_keywords] never lets be empty. *)
Definition registry_ok (bm : dict str bill_entry) : bool :=
  forallb (fun k => negb (str_eqb k [])) (dict_keys bm).

(** The three keys that a record of the output adds to the input record. *)
Definition outcome (l : labeled) : option str * Q * str :=
  (bill_assigned l, bill_confidence l, bill_reason l).

(** A reason of step 2 or 3: it starts with the letter [t] of
    [text-match(...)] or with the letter [b] of [bills-field-candidate ...]. *)
Definition evidence_reason (why : str) : Prop :=
  exists tl, why = 116%N :: tl \/ why = 98%N :: tl.

(** The pick is a string that is not empty. *)
Definition settled (p : pick) : Prop := truthy (fst (fst p)) = true.

(** No speaker is recorded with the empty string as last bill. *)
Definition state_ok (st : state) : Prop :=
  forall spk b, dict_get opt_str_eqb (last_by_speaker st) spk = Some b -> b <> [].

(** A pick is null or a string that is not empty. *)
Definition null_or_settled (p : pick) : Prop :=
  fst (fst p) = None \/ settled p.

(** ** The answer of the language model *)

(** [p] is a contiguous part of [s]. *)
Definition substring (p s : str) : Prop := exists a b, s = a ++ p ++ b.

(** The answer names a bill of the list when it is that bill, a part of it,
    or a text that contains it. *)
Definition names_bill (chosen original : str) : Prop :=
  chosen = original \/ substring chosen original \/ substring original chosen.

(** ** The records of [process_speeches] *)

(** A record that the loop body takes without raising: its field [bills] is
    a string, or the record has none, and the record has an identifier. *)
Definition readable (r : record) : Prop :=
  (exists bill_list, bill_list_of (speech_get r (py "bills")) = Returns bill_list) /\
  (exists id, dict_get str_eqb r (py "speech_id") = Some id).

(** ** The normalizer and the registry *)

(** Every white-space character of [s] is a single space between two other
    characters; [prev] tells that the previous character was a space, or
    that there is none. *)
Fixpoint spaces_ok (prev : bool) (s : str) : bool :=
  match s with
  | [] => negb prev
  | c :: r =>
      if is_space c then (c =? SP)%N && negb prev && spaces_ok true r
      else spaces_ok false r
  end.

(** What [clean_spaces] returns: no white space but single spaces, none of
    them first or last. *)
Definition tidy (s : str) : bool :=
  match s with
  | [] => true
  | _ => spaces_ok true s
  end.

(** The same without the condition on the last character. *)
Fixpoint spaces_single (prev : bool) (s : str) : bool :=
  match s with
  | [] => true
  | c :: r =>
      if is_space c then (c =? SP)%N && negb prev && spaces_single true r
      else spaces_single false r
  end.

(** No connector mark of [RE_DANGLING_MARKS]. *)
Definition no_mark (c : char) : Prop := is_dangling_mark c = false.

(** A parenthesis, the characters that [RE_PARENS] tells apart. *)
Definition is_paren (c : char) : bool := ((c =? LPAREN) || (c =? RPAREN))%N.

(** What [canonical_set] holds: each key is a canonical title that is not
    empty, held once. *)
Definition cs_ok (cs : dict str (list str)) : Prop :=
  NoDup (dict_keys cs) /\ Forall (fun k => k <> []) (dict_keys cs).

(** ** The keyword extractor *)

(** How often a token occurs among the kept tokens, and where it occurs
    first. *)
Definition occurrences (w : str) (l : list str) : nat :=
  List.length (filter (str_eqb w) l).

Fixpoint first_index (w : str) (l : list str) : nat :=
  match l with
  | [] => 0%nat
  | x :: r => if str_eqb w x then 0%nat else S (first_index w r)
  end.

(** The order of the result: by descending frequency, a tie going to the
    token that occurs first. *)
Definition ranks_before (kept : list str) (a b : str) : Prop :=
  (occurrences b kept < occurrences a kept)%nat \/
  (occurrences a kept = occurrences b kept /\
   (first_index a kept < first_index b kept)%nat).

(** The distinct tokens, in order of first occurrence. *)
Fixpoint dedup (l : list str) : list str :=
  match l with
  | [] => []
  | x :: r => x :: filter (fun y => negb (str_eqb y x)) (dedup r)
  end.

(** One token counted by [Counter]. *)
Definition count_step (cnt : dict str nat) (w : str) : dict str nat :=
  match dict_get str_eqb cnt w with
  | Some n => dict_set str_eqb cnt w (S n)
  | None => dict_set str_eqb cnt w 1%nat
  end.

(** [ranks_before] on the items of the counter, and the order of first
    occurrence alone. *)
Definition item_before (kept : list str) (a b : str * nat) : Prop :=
  (snd b < snd a)%nat \/
  (snd a = snd b /\ (first_index (fst a) kept < first_index (fst b) kept)%nat).

Definition item_earlier (kept : list str) (a b : str * nat) : Prop :=
  (first_index (fst a) kept < first_index (fst b) kept)%nat.

(** [runs_of p s toks]: [toks] are the maximal runs of characters of the
    class [p] in [s], left to right. *)
Inductive runs_of (p : char -> bool) : str -> list str -> Prop :=
| runs_none (s : str) :
    Forall (fun c => p c = false) s -> runs_of p s []
| runs_next (sep tok rest : str) (toks : list str) :
    Forall (fun c => p c = false) sep ->
    tok <> [] ->
    Forall (fun c => p c = true) tok ->
    match rest with [] => True | c :: _ => p c = false end ->
    runs_of p rest toks ->
    runs_of p (sep ++ tok ++ rest) (tok :: toks).

(** The extractor as the specification words it: the tokens are the runs of
    letters of any alphabet and of digits.  [spec_is_alnum] lists the letters
    of the scripts of the examples only: Basic Latin, Greek and Hangul. *)
Definition spec_is_alnum (c : char) : bool :=
  (is_token_char c || (913 <=? c) && (c <=? 929) || (931 <=? c) && (c <=? 937)
   || (945 <=? c) && (c <=? 969))%N.

Definition spec_extract_keywords (title : str) (topk : Z) : list str :=
  map fst (most_common (Counter (filter keep_token (findall_runs spec_is_alnum [] title))) topk).

(** ** Fields, mentions and the order of strings *)

(** A character that is not white space. *)
Definition is_ink (c : char) : bool := negb (is_space c).

(** A field written as pieces, each followed by a run of separators, and a
    last piece. *)
Definition field_of (items : list (str * str)) (last : str) : str :=
  flat_map (fun it => fst it ++ snd it) items ++ last.

(** A piece as [split_raw_bills_field] returns it, but for being empty. *)
Definition piece_ok (p : str) : Prop :=
  tidy p = true /\ ~ In SEMICOLON p.

(** The canonical titles of the mentions, in the order of the transcript. *)
Definition mentioned (U : unicode_db) (variants : list str) : list str :=
  filter (fun t => negb (str_eqb t [])) (map (normalize_bill_title U) variants).

(** What [canonical_set] holds after the mentions [seen]: under each title a
    set that is not empty, of mentions read so far that have this title. *)
Definition cs_sound (U : unicode_db) (seen : list str) (cs : dict str (list str)) : Prop :=
  forall canon vs,
    In (canon, vs) cs ->
    vs <> [] /\ NoDup vs /\
    forall raw, In raw vs -> In raw seen /\ normalize_bill_title U raw = canon.

(** [a <= b] in the order of [sorted]. *)
Definition str_le (a b : str) : Prop := str_ltb b a = false.

(** ** Patterns and scores *)



(** The number of matches of the pattern of [w] in [T]. *)
Definition matches (U : unicode_db) (w T : str) : nat := finditer_count U w 0 T.

(** The step of the loop of [score_text_for_bill]. *)
Definition score_step (U : unicode_db) (T : str) (acc : Z * Z) (ip : nat * str) : Z * Z :=
  let '(hard, soft) := acc in
  let '(i, pat) := ip in
  let n := finditer_count U pat 0 T in
  if Nat.eqb n 0 then (hard, soft)
  else if Nat.eqb i 0 then (hard + Z.of_nat n, soft)%Z
  else (hard, soft + Z.of_nat n)%Z.

(** ** Sample transcripts *)

(** A field of several lines. *)
Definition lines (l : list string) : string :=
  String.concat (String (ascii_of_nat 10) EmptyString) l.

(** A record, from its speaker, its [bills] field and its text. *)
Definition utterance (speaker field text : string) : speech :=
  {| speech_id := [];
     member_name := Some (py speaker);
     bills := Some (py field);
     speech_text := Some (py text) |}.

(** A sitting that opens without a bill on the table, then takes up two
    bills in turn, and ends with a remark that names neither. *)
Definition sitting : list speech :=
  [ utterance "위원장" "" "성원이 되었으므로 회의를 개의하겠습니다";
    utterance "위원장" "1. 자연재해대책법 일부개정법률안(정부 제출)" "";
    utterance "김위원" "2. 경찰공무원법 일부개정법률안(홍길동 의원 대표발의)" "";
    utterance "박위원" "" "잠시 정회하겠습니다" ].

(** Three bills of one sitting, two of them amendments of the same act. *)
Definition three_bills : list str :=
  map py [ "1. 자연재해대책법 일부개정법률안(정부 제출)";
           "2. 경찰공무원법 일부개정법률안(홍길동 의원 대표발의)";
           "3. 경찰공무원법 일부개정법률안(김철수 의원 대표발의)" ]%string.

(** A record as the converter of the repository writes it. *)
Definition converted (id : string) (speaker field : json) (text : string) : record :=
  [ (py "speech_id", Other (py id));
    (py "meeting_id", Other (py "50848"));
    (py "bills", field);
    (py "member_id", Null);
    (py "member_name", speaker);
    (py "speech_order", Null);
    (py "speech_text", Str (py text)) ].

(** Two records that each list two different bills; the call for the first
    one times out, the call for the second one answers with its second bill. *)
Definition two_bill_records : list record :=
  [ converted "7001" (Str (py "위원장"))
              (Str (py (lines ["1. 자연재해대책법 일부개정법률안(정부 제출)";
                               "2. 경찰공무원법 일부개정법률안(홍길동 의원 대표발의)"]%string)))
              "두 안건을 일괄하여 상정합니다";
    converted "7002" (Str (py "김위원"))
              (Str (py (lines ["1. 자연재해대책법 일부개정법률안(정부 제출)";
                               "2. 경찰공무원법 일부개정법률안(홍길동 의원 대표발의)"]%string)))
              "경찰공무원법에 대하여 질의하겠습니다" ].

(** A language model whose first call fails. *)
Definition timeout_then_answer (i : nat) (_ : str) (_ : list str) : reply :=
  match i with
  | O => Raised
  | _ => Content (py "2. 경찰공무원법 일부개정법률안(홍길동 의원 대표발의)")
  end.

(** A sitting in which a speaker quotes the title of the bill on the table. *)
Definition debate : list speech :=
  [ utterance "위원장" "1. 자연재해대책법 일부개정법률안(정부 제출)" "의사일정 제1항을 상정합니다";
    utterance "위원장" "2. 경찰공무원법 일부개정법률안(홍길동 의원 대표발의)" "";
    utterance "김위원" "" "자연재해대책법 개정의 취지를 설명드리겠습니다" ].

(** The two mentions of the registry property, in two records. *)
Definition two_mentions : list speech :=
  [ utterance "위원장" "1. 교정공제회법 일부개정법률안(홍길동 의원 대표발의)" "";
    utterance "김위원" "교정공제회법 일부개정법률안" "" ].

(* ================================================================== *)
(** * Properties *)

(** ** Strings and dictionaries *)

Lemma str_eqb_eq (a b : str) : str_eqb a b = true <-> a = b.
Proof.
  revert b. induction a as [|x a IH]; intros [|y b]; simpl; split; intro H;
    try reflexivity; try discriminate.
  - apply andb_true_iff in H. destruct H as [H1 H2].
    apply N.eqb_eq in H1. apply IH in H2. now subst.
  - inversion H; subst. rewrite N.eqb_refl. simpl. now apply IH.
Qed.

Lemma str_eqb_refl (a : str) : str_eqb a a = true.
Proof. now apply str_eqb_eq. Qed.

Lemma str_eqb_neq (a b : str) : str_eqb a b = false <-> a <> b.
Proof.
  split.
  - intros H E. apply str_eqb_eq in E. congruence.
  - intro H. destruct (str_eqb a b) eqn:E; [|reflexivity].
    apply str_eqb_eq in E. contradiction.
Qed.

Lemma opt_str_eqb_eq (a b : option str) : opt_str_eqb a b = true <-> a = b.
Proof.
  destruct a as [x|], b as [y|]; simpl; split; intro H;
    try reflexivity; try discriminate.
  - apply str_eqb_eq in H. now subst.
  - inversion H; subst. apply str_eqb_refl.
Qed.

Lemma mem_In (x : str) (l : list str) : mem x l = true <-> In x l.
Proof.
  unfold mem. rewrite existsb_exists. split.
  - intros [y [Hy E]]. apply str_eqb_eq in E. now subst.
  - intro H. exists x. split; [assumption | apply str_eqb_refl].
Qed.

Lemma truthy_Some (o : option str) :
  truthy o = true <-> exists b, o = Some b /\ b <> [].
Proof.
  destruct o as [[|c b]|]; simpl; split; intro H; try discriminate; try reflexivity.
  - destruct H as [b [E N]]. inversion E; subst. contradiction.
  - exists (c :: b). split; [reflexivity | discriminate].
  - destruct H as [b [E _]]. discriminate.
Qed.

Section DictFacts.
Variables (K V : Type) (eqb : K -> K -> bool).
Hypothesis eqb_eq : forall a b, eqb a b = true <-> a = b.

Lemma eqb_refl' (a : K) : eqb a a = true.
Proof. now apply eqb_eq. Qed.

Lemma dict_get_In (d : dict K V) k v :
  dict_get eqb d k = Some v -> In (k, v) d.
Proof.
  induction d as [|[k' v'] d IH]; simpl; [discriminate|].
  destruct (eqb k k') eqn:E.
  - intro H. inversion H; subst. apply eqb_eq in E. subst. now left.
  - intro H. right. now apply IH.
Qed.

Lemma dict_mem_keys (d : dict K V) k :
  dict_mem eqb d k = true <-> In k (dict_keys d).
Proof.
  unfold dict_mem, dict_keys.
  induction d as [|[k' v'] d IH]; simpl.
  - split; [discriminate | contradiction].
  - destruct (eqb k k') eqn:E.
    + apply eqb_eq in E. subst. split; auto.
    + rewrite IH. split; [now right|].
      intros [H|H]; [|assumption]. subst.
      rewrite eqb_refl' in E. discriminate.
Qed.

Lemma dict_get_keys (d : dict K V) k :
  In k (dict_keys d) -> exists v, dict_get eqb d k = Some v.
Proof.
  intro H. apply dict_mem_keys in H. unfold dict_mem in H.
  destruct (dict_get eqb d k) as [v|]; [now exists v | discriminate].
Qed.

Lemma dict_get_set_same (d : dict K V) k v :
  dict_get eqb (dict_set eqb d k v) k = Some v.
Proof.
  induction d as [|[k' v'] d IH]; simpl.
  - now rewrite eqb_refl'.
  - destruct (eqb k k') eqn:E; simpl; rewrite E; [reflexivity | assumption].
Qed.

Lemma dict_get_set_other (d : dict K V) k k' v :
  k' <> k -> dict_get eqb (dict_set eqb d k v) k' = dict_get eqb d k'.
Proof.
  intro N. induction d as [|[k0 v0] d IH]; simpl.
  - destruct (eqb k' k) eqn:E; [apply eqb_eq in E; contradiction | reflexivity].
  - destruct (eqb k k0) eqn:E; simpl.
    + apply eqb_eq in E. subst k0.
      destruct (eqb k' k) eqn:E'; [apply eqb_eq in E'; contradiction | reflexivity].
    + destruct (eqb k' k0); [reflexivity | assumption].
Qed.

Lemma dict_keys_set (d : dict K V) k v :
  dict_keys (dict_set eqb d k v) =
  if dict_mem eqb d k then dict_keys d else dict_keys d ++ [k].
Proof.
  unfold dict_mem, dict_keys.
  induction d as [|[k0 v0] d IH]; simpl; [reflexivity|].
  destruct (eqb k k0) eqn:E; simpl; [reflexivity|].
  rewrite IH. now destruct (dict_get eqb d k).
Qed.
End DictFacts.

(** ** The scorer and the argmax loop *)

Section ResolverFacts.
Variable U : unicode_db.

Lemma score_text_nonneg (text : str) (e : bill_entry) :
  (0 <= fst (score_text_for_bill U text e) /\ 0 <= snd (score_text_for_bill U text e))%Z.
Proof.
  unfold score_text_for_bill. destruct text as [|c text]; [simpl; lia|].
  generalize (combine (seq 0 (List.length (patterns e))) (patterns e)).
  generalize (normalize_text U (c :: text)). intros T l.
  assert (G : forall init : Z * Z, (0 <= fst init /\ 0 <= snd init)%Z ->
            (0 <= fst (fold_left
               (fun '(hard, soft) '(i, pat) =>
                  let n := finditer_count U pat 0 T in
                  if Nat.eqb n 0 then (hard, soft)
                  else if Nat.eqb i 0 then (hard + Z.of_nat n, soft)%Z
                  else (hard, soft + Z.of_nat n)%Z) l init) /\
             0 <= snd (fold_left
               (fun '(hard, soft) '(i, pat) =>
                  let n := finditer_count U pat 0 T in
                  if Nat.eqb n 0 then (hard, soft)
                  else if Nat.eqb i 0 then (hard + Z.of_nat n, soft)%Z
                  else (hard, soft + Z.of_nat n)%Z) l init))%Z).
  { induction l as [|[i pat] l IH]; intros [h s0] Hi; simpl in *; [assumption|].
    apply IH. destruct (Nat.eqb (finditer_count U pat 0 T) 0); [assumption|].
    destruct (Nat.eqb i 0); simpl; lia. }
  apply G. simpl. lia.
Qed.

Lemma score_of_nonneg (bm : dict str bill_entry) text c :
  (0 <= fst (score_of U bm text c) /\ 0 <= snd (score_of U bm text c))%Z.
Proof.
  unfold score_of. destruct (dict_get str_eqb bm c).
  - apply score_text_nonneg.
  - simpl. lia.
Qed.

Lemma score_gt_spec (a b : Z * Z) :
  score_gt a b = true <->
  (fst b < fst a \/ (fst a = fst b /\ snd b < snd a))%Z.
Proof.
  unfold score_gt. rewrite orb_true_iff, andb_true_iff.
  rewrite !Z.ltb_lt, Z.eqb_eq. reflexivity.
Qed.

Lemma score_gt_false (a b : Z * Z) :
  score_gt a b = false <->
  (fst a < fst b \/ (fst a = fst b /\ snd a <= snd b))%Z.
Proof.
  destruct (score_gt a b) eqn:E.
  - apply score_gt_spec in E. split; [discriminate | lia].
  - split; [|reflexivity]. intros _.
    assert (N : ~ (fst b < fst a \/ (fst a = fst b /\ snd b < snd a))%Z).
    { intro H. apply score_gt_spec in H. congruence. }
    lia.
Qed.

(** The loop returns the first title of the greatest score: every title
    before it scores strictly less, none after it scores more. *)
Lemma best_loop_spec (bm : dict str bill_entry) (text : str) :
  forall titles ib isc b sc,
    fold_left
      (fun '(best, best_score) c =>
         let sc := score_of U bm text c in
         if score_gt sc best_score then (Some c, sc) else (best, best_score))
      titles (ib, isc) = (b, sc) ->
    (b = ib /\ sc = isc /\
     forall c, In c titles -> score_gt (score_of U bm text c) isc = false)
    \/
    (exists pre c post,
        titles = pre ++ c :: post /\ b = Some c /\ sc = score_of U bm text c /\
        score_gt sc isc = true /\
        (forall c', In c' pre -> score_gt sc (score_of U bm text c') = true) /\
        (forall c', In c' post -> score_gt (score_of U bm text c') sc = false)).
Proof.
  induction titles as [|t ts IH]; intros ib isc b sc H; simpl in H.
  - inversion H; subst. left. repeat split. intros c [].
  - destruct (score_gt (score_of U bm text t) isc) eqn:G.
    + apply IH in H. destruct H as [[Hb [Hs Hall]] | [pre [c [post [Ht [Hb [Hs [Hg [Hpre Hpost]]]]]]]]].
      * right. exists [], t, ts. subst.
        repeat split; auto; intros c' Hin; destruct Hin.
      * right. exists (t :: pre), c, post. subst ts b. repeat split; auto.
        -- apply score_gt_spec in G. apply score_gt_spec in Hg.
           apply score_gt_spec. lia.
        -- intros c' [E|Hin]; [subst c'; assumption | now apply Hpre].
    + apply IH in H. destruct H as [[Hb [Hs Hall]] | [pre [c [post [Ht [Hb [Hs [Hg [Hpre Hpost]]]]]]]]].
      * left. repeat split; auto. intros c [E|Hin]; [now subst | now apply Hall].
      * right. exists (t :: pre), c, post. subst ts b. repeat split; auto.
        intros c' [E|Hin]; [subst c' | now apply Hpre].
        apply score_gt_false in G. apply score_gt_spec in Hg.
        apply score_gt_spec. lia.
Qed.

(** On a list that is not empty the loop always returns a title, since
    every score is above the initial [(-1, -1)]. *)
Lemma best_by_score_spec (bm : dict str bill_entry) (text : str) (titles : list str) :
  titles <> [] ->
  exists pre c post,
    titles = pre ++ c :: post /\
    best_by_score U bm text titles = (Some c, score_of U bm text c) /\
    (forall c', In c' pre ->
       score_gt (score_of U bm text c) (score_of U bm text c') = true) /\
    (forall c', In c' post ->
       score_gt (score_of U bm text c') (score_of U bm text c) = false).
Proof.
  intro Hne. unfold best_by_score.
  destruct (fold_left _ titles (None, (-1, -1)%Z)) as [b sc] eqn:H.
  apply best_loop_spec in H.
  destruct H as [[Hb [Hs Hall]] | [pre [c [post [Ht [Hb [Hs [Hg [Hpre Hpost]]]]]]]]].
  - destruct titles as [|t ts]; [contradiction|].
    specialize (Hall t (or_introl eq_refl)).
    apply score_gt_false in Hall. simpl in Hall.
    pose proof (score_of_nonneg bm text t). lia.
  - exists pre, c, post. subst. repeat split; auto.
Qed.

Lemma best_by_score_nil (bm : dict str bill_entry) (text : str) :
    best_by_score U bm text [] = (None, (-1, -1)%Z).
Proof. reflexivity. Qed.

End ResolverFacts.

(** ** The loop body of the resolver *)

Section ResolverSteps.
Variable U : unicode_db.
Variable bm : dict str bill_entry.

Lemma text_reason_head (r : str) :
  exists tl, py "text-match(" ++ r ++ py ")" = 116%N :: tl.
Proof.
  assert (E : py "text-match(" = 116%N :: py "ext-match(") by (vm_compute; reflexivity).
  rewrite E. simpl. eexists. reflexivity.
Qed.

Lemma cand_reason_head (sc : Z * Z) : exists tl, cand_reason sc = 98%N :: tl.
Proof.
  unfold cand_reason.
  assert (E : py "bills-field-candidate + text(" = 98%N :: py "ills-field-candidate + text(")
    by (vm_compute; reflexivity).
  rewrite E. simpl. eexists. reflexivity.
Qed.

Lemma evidence_reason_not_fallback (why : str) :
  evidence_reason why ->
  why <> py "agenda-flow" /\ why <> py "speaker-history" /\
  why <> py "no-match" /\ why <> [].
Proof.
  intros [tl [E|E]]; subst why; repeat split; intro H; vm_compute in H; discriminate.
Qed.

Lemma candidates_in_keys (rec : speech) (c : str) :
  In c (candidates_of U bm rec) -> In c (dict_keys bm) /\ c <> [].
Proof.
  unfold candidates_of. intro H. apply filter_In in H. destruct H as [H1 H2].
  split.
  - apply (dict_mem_keys _ str_eqb_eq) in H2. exact H2.
  - apply in_map_iff in H1. destruct H1 as [b [E Hb]].
    apply filter_In in Hb. destruct Hb as [_ Hb]. rewrite E in Hb.
    destruct c; [discriminate | discriminate].
Qed.

(** Step 2 on a registry that is not empty: the first bill of the greatest
    score is picked, whatever the score. *)
Lemma step2_picks (text : str) (p : pick) :
  bm <> [] ->
  forallb (fun k => negb (str_eqb k [])) (dict_keys bm) = true ->
  exists pre c post,
    dict_keys bm = pre ++ c :: post /\ c <> [] /\
    step2 U bm text p =
      (Some c, text_conf (score_of U bm text c),
       py "text-match(" ++ score_reason (score_of U bm text c) ++ py ")") /\
    (forall c', In c' pre ->
       score_gt (score_of U bm text c) (score_of U bm text c') = true) /\
    (forall c', In c' post ->
       score_gt (score_of U bm text c') (score_of U bm text c) = false).
Proof.
  intros Hne Hwf.
  assert (Hk : dict_keys bm <> []) by (destruct bm; [contradiction | discriminate]).
  destruct (best_by_score_spec U bm text Hk) as [pre [c [post [Hs [Hb [Hpre Hpost]]]]]].
  exists pre, c, post.
  assert (Hc : c <> []).
  { rewrite forallb_forall in Hwf. specialize (Hwf c).
    rewrite Hs in Hwf. specialize (Hwf (in_elt c pre post)).
    intro E. subst c. discriminate. }
  repeat split; auto.
  unfold step2, choose_by_score. rewrite Hb. destruct c; [contradiction | reflexivity].
Qed.

(** The confidence of step 2, by cases on the score. *)
Lemma text_conf_spec (h s : Z) :
  (0 <= h)%Z -> (0 <= s)%Z ->
  text_conf (h, s) =
  if (0 <? h)%Z then 0.9
  else if (2 <=? s)%Z then 0.6
  else if (s =? 1)%Z then 0.4
  else 0.0.
Proof. reflexivity. Qed.

(** [choose_by_score] on a registry that is not empty: the first bill of
    the lexicographically greatest score, with the confidence of that score,
    also when the score is [(0, 0)]. *)
Lemma choose_by_score_argmax (text : str) :
  bm <> [] ->
  exists pre c post,
    dict_keys bm = pre ++ c :: post /\
    choose_by_score U bm text =
      (Some c, text_conf (score_of U bm text c), score_reason (score_of U bm text c)) /\
    (forall c', In c' pre ->
       score_gt (score_of U bm text c) (score_of U bm text c') = true) /\
    (forall c', In c' post ->
       score_gt (score_of U bm text c') (score_of U bm text c) = false).
Proof.
  intro Hne.
  assert (Hk : dict_keys bm <> []) by (destruct bm; [contradiction | discriminate]).
  destruct (best_by_score_spec U bm text Hk) as [pre [c [post [Hs [Hb [Hpre Hpost]]]]]].
  exists pre, c, post. repeat split; auto.
  unfold choose_by_score. now rewrite Hb.
Qed.

Lemma step2_empty (text : str) (p : pick) :
    bm = [] -> step2 U bm text p = p.
Proof. intro E. subst bm. reflexivity. Qed.

Lemma step2_cases (text : str) (p : pick) :
  step2 U bm text p = p \/
  (settled (step2 U bm text p) /\ evidence_reason (snd (step2 U bm text p))).
Proof.
  unfold step2. destruct (choose_by_score U bm text) as [[t_pick t_conf] t_reason].
  destruct (truthy t_pick) eqn:T; [right | now left].
  split; [exact T|]. destruct (text_reason_head t_reason) as [tl E].
  exists tl. left. exact E.
Qed.

Lemma step3_cases (text : str) (cands : list str) (p : pick) :
  step3 U bm text cands p = p \/
  (settled (step3 U bm text cands p) /\
   evidence_reason (snd (step3 U bm text cands p))).
Proof.
  unfold step3. destruct p as [[picked conf] why].
  destruct cands as [|c0 cs]; [now left|].
  destruct (Qltb conf 0.6); [|now left].
  destruct (best_by_score U bm text (c0 :: cs)) as [best_cand best_cscore].
  destruct (truthy best_cand) eqn:T; [right | now left].
  split; [exact T|]. destruct (cand_reason_head best_cscore) as [tl E].
  exists tl. right. exact E.
Qed.

Lemma step4_settled (st : state) (p : pick) : settled p -> step4 st p = p.
Proof.
  unfold settled, step4. destruct p as [[picked conf] why]. simpl.
  intro T. rewrite T. reflexivity.
Qed.

Lemma step5_settled (st : state) (rec : speech) (p : pick) :
  settled p -> step5 st rec p = p.
Proof.
  unfold settled, step5. destruct p as [[picked conf] why]. simpl.
  intro T. rewrite T. reflexivity.
Qed.

(** With at least one bill in the registry the pick is settled by steps 2
    and 3, and steps 4 and 5 do nothing. *)
Lemma pick_bill_nonempty (st : state) (rec : speech) :
  bm <> [] ->
  forallb (fun k => negb (str_eqb k [])) (dict_keys bm) = true ->
  pick_bill U bm st rec =
    step3 U bm (or_empty (speech_text rec)) (candidates_of U bm rec)
          (step2 U bm (or_empty (speech_text rec)) (None, 0.0, [])) /\
  settled (pick_bill U bm st rec) /\
  evidence_reason (snd (pick_bill U bm st rec)) /\
  In (or_empty (fst (fst (pick_bill U bm st rec)))) (dict_keys bm).
Proof.
  intros Hne Hwf. unfold pick_bill.
  set (text := or_empty (speech_text rec)).
  set (cands := candidates_of U bm rec).
  destruct (step2_picks text (None, 0.0, []) Hne Hwf)
    as [pre [c [post [Hk [Hc [H2 _]]]]]].
  assert (S2 : settled (step2 U bm text (None, 0.0, []))).
  { rewrite H2. unfold settled. simpl. destruct c; [contradiction | reflexivity]. }
  assert (R2 : evidence_reason (snd (step2 U bm text (None, 0.0, [])))).
  { rewrite H2. simpl. destruct (text_reason_head (score_reason (score_of U bm text c))) as [tl E].
    exists tl. left. exact E. }
  assert (K2 : In (or_empty (fst (fst (step2 U bm text (None, 0.0, []))))) (dict_keys bm)).
  { rewrite H2. simpl. rewrite Hk. apply in_elt. }
  assert (S3 : settled (step3 U bm text cands (step2 U bm text (None, 0.0, []))) /\
               evidence_reason (snd (step3 U bm text cands (step2 U bm text (None, 0.0, [])))) /\
               In (or_empty (fst (fst (step3 U bm text cands (step2 U bm text (None, 0.0, []))))))
                  (dict_keys bm)).
  { destruct (step3_cases text cands (step2 U bm text (None, 0.0, []))) as [E|[S R]].
    - rewrite E. auto.
    - repeat split; auto.
      (* the pick of step 3 is a candidate, hence a key *)
      clear S R. unfold step3.
      destruct (step2 U bm text (None, 0.0, [])) as [[picked conf] why] eqn:E2.
      destruct cands as [|c0 cs] eqn:Ec; [exact K2|].
      destruct (Qltb conf 0.6); [|exact K2].
      assert (Hn : c0 :: cs <> []) by discriminate.
      destruct (best_by_score_spec U bm text Hn) as [pre' [c' [post' [Hs' [Hb' _]]]]].
      rewrite Hb'.
      assert (Hin : In c' (candidates_of U bm rec)).
      { fold cands. rewrite Ec, Hs'. apply in_elt. }
      apply candidates_in_keys in Hin. destruct Hin as [Hin Hc'].
      destruct c'; [contradiction|]. simpl. exact Hin. }
  destruct S3 as [S3 [R3 K3]].
  rewrite (step4_settled st S3). rewrite (step5_settled st rec S3).
  auto.
Qed.

End ResolverSteps.

(** ** The loop over the transcript *)

Section ResolverRun.
Variable U : unicode_db.
Variable bm : dict str bill_entry.

Lemma label_from_app (st : state) (a b : list speech) :
  label_from U bm st (a ++ b) =
  (fst (label_from U bm (fst (label_from U bm st a)) b),
   snd (label_from U bm st a) ++ snd (label_from U bm (fst (label_from U bm st a)) b)).
Proof.
  revert st. induction a as [|r a IH]; intro st; simpl.
  - now destruct (label_from U bm st b).
  - destruct (label_speech U bm st r) as [st1 l].
    rewrite IH.
    destruct (label_from U bm st1 a) as [st2 la]. simpl.
    reflexivity.
Qed.

Lemma label_from_length (st : state) (sp : list speech) :
  List.length (snd (label_from U bm st sp)) = List.length sp.
Proof.
  revert st. induction sp as [|r sp IH]; intro st; simpl; [reflexivity|].
  destruct (label_speech U bm st r) as [st1 l].
  specialize (IH st1). destruct (label_from U bm st1 sp) as [st2 ls].
  simpl in *. now rewrite IH.
Qed.

Lemma label_from_In (st : state) (sp : list speech) (l : labeled) :
  In l (snd (label_from U bm st sp)) ->
  exists st' rec, In rec sp /\ l = snd (label_speech U bm st' rec).
Proof.
  revert st. induction sp as [|r sp IH]; intro st; simpl; [contradiction|].
  destruct (label_speech U bm st r) as [st1 l1] eqn:E1.
  specialize (IH st1). destruct (label_from U bm st1 sp) as [st2 ls].
  simpl. intros [H|H].
  - exists st, r. split; [now left|]. rewrite E1. now subst.
  - destruct (IH H) as [st' [rec [Hin El]]]. exists st', rec. auto.
Qed.

Lemma label_speech_fields (st : state) (rec : speech) :
  rec_of (snd (label_speech U bm st rec)) = rec /\
  bill_assigned (snd (label_speech U bm st rec)) = fst (fst (pick_bill U bm st rec)) /\
  bill_confidence (snd (label_speech U bm st rec)) = round2 (snd (fst (pick_bill U bm st rec))) /\
  bill_reason (snd (label_speech U bm st rec)) = snd (pick_bill U bm st rec) /\
  fst (label_speech U bm st rec) = update_state st rec (fst (fst (pick_bill U bm st rec))).
Proof.
  unfold label_speech. destruct (pick_bill U bm st rec) as [[picked conf] why].
  simpl. auto.
Qed.

(** When every bill scores [(0, 0)], step 2 picks the first bill of the
    registry and step 3 the first candidate. *)
Lemma first_of_equal_scores (text : str) (titles : list str) (c0 : str) (cs : list str) :
  titles = c0 :: cs ->
  (forall c, In c titles -> score_of U bm text c = (0, 0)%Z) ->
  best_by_score U bm text titles = (Some c0, (0, 0)%Z).
Proof.
  intros Et Hz.
  assert (Hn : titles <> []) by (subst; discriminate).
  destruct (best_by_score_spec U bm text Hn) as [pre [c [post [Hs [Hb [Hpre _]]]]]].
  destruct pre as [|x pre].
  - simpl in Hs. rewrite Et in Hs. inversion Hs; subst c.
    rewrite Hb. rewrite (Hz c0); [reflexivity|]. rewrite Et. now left.
  - exfalso. specialize (Hpre x (or_introl eq_refl)).
    rewrite (Hz c), (Hz x) in Hpre; [discriminate| |].
    + rewrite Hs. now left.
    + rewrite Hs. apply in_elt.
Qed.

End ResolverRun.

(** ** The claims on the resolver *)

(** C4, as amended.  With a registry of at least one bill every record of the
    output is assigned a bill of the registry, for a reason of step 2 or of
    step 3: never agenda-flow, speaker-history, no-match or the empty reason.
    When every bill scores (0, 0) on the text of the record, a record whose
    own field names no known bill is assigned the first bill of the registry
    with confidence 0.0 and reason text-match(hard=0, soft=0), and a record
    whose field names known bills is assigned the first of them with
    confidence 0.6 and reason bills-field-candidate + text(0,0). *)
Theorem C4_nonempty_registry_always_assigns
        (U : unicode_db) (bm : dict str bill_entry) (speeches : list speech) (l : labeled) :
  registry_ok bm = true ->
  bm <> [] ->
  In l (assign_bills_to_speeches U speeches bm) ->
  (exists c, bill_assigned l = Some c /\ c <> [] /\ In c (dict_keys bm)) /\
  bill_reason l <> py "agenda-flow" /\
  bill_reason l <> py "speaker-history" /\
  bill_reason l <> py "no-match" /\
  bill_reason l <> [] /\
  ((forall c, In c (dict_keys bm) ->
      score_of U bm (or_empty (speech_text (rec_of l))) c = (0, 0)%Z) ->
   match candidates_of U bm (rec_of l) with
   | [] => outcome l = (hd_error (dict_keys bm), 0.00, py "text-match(hard=0, soft=0)")
   | c0 :: _ => outcome l = (Some c0, 0.60, py "bills-field-candidate + text(0,0)")
   end).
Proof.
  intros Hwf Hne Hin.
  apply label_from_In in Hin. destruct Hin as [st [rec [_ El]]].
  destruct (label_speech_fields U bm st rec) as [Fr [Fa [Fc [Fw _]]]].
  rewrite <- El in Fr, Fa, Fc, Fw.
  destruct (pick_bill_nonempty U st rec Hne Hwf) as [Hp [Hs [Hr Hk]]].
  split; [|split].
  - unfold settled in Hs. apply truthy_Some in Hs. destruct Hs as [b [Eb Nb]].
    exists b. rewrite Fa, Eb. rewrite Eb in Hk. simpl in Hk. auto.
  - rewrite Fw. now apply evidence_reason_not_fallback.
  - rewrite Fw. split; [|split; [|split]]; try now apply evidence_reason_not_fallback.
    intro Hz. rewrite Fr in Hz. rewrite Fr. unfold outcome. rewrite Fa, Fc, Fw, Hp.
    set (text := or_empty (speech_text rec)) in *.
    destruct (dict_keys bm) as [|k0 ks] eqn:Ek.
    { destruct bm; [contradiction | discriminate]. }
    assert (H2 : step2 U bm text (None, 0.0, []) =
                 (Some k0, 0.0, py "text-match(hard=0, soft=0)")).
    { unfold step2, choose_by_score. rewrite Ek.
      rewrite (@first_of_equal_scores U bm text (k0 :: ks) k0 ks eq_refl Hz).
      assert (Nk : k0 <> []).
      { unfold registry_ok in Hwf. rewrite Ek in Hwf. simpl in Hwf.
        apply andb_true_iff in Hwf. destruct Hwf as [Hwf _].
        intro E. subst k0. discriminate. }
      destruct k0; [contradiction|]. reflexivity. }
    rewrite H2.
    destruct (candidates_of U bm rec) as [|c0 cs] eqn:Ec.
    + reflexivity.
    + unfold step3.
      assert (Hq : Qltb 0.0 0.6 = true) by reflexivity. rewrite Hq.
      rewrite (@first_of_equal_scores U bm text (c0 :: cs) c0 cs eq_refl).
      * assert (N0 : c0 <> []).
        { apply (@candidates_in_keys U bm rec). rewrite Ec. now left. }
        destruct c0; [contradiction|]. reflexivity.
      * intros c Hc. apply Hz. rewrite <- Ek.
        apply (@candidates_in_keys U bm rec). rewrite Ec. exact Hc.
Qed.

Lemma C4_witness :
  let bm := snd (collect_bills_and_keywords ucd_latin_hangul sitting) in
  let l := {| rec_of := utterance "박위원" "" "잠시 정회하겠습니다";
              bill_assigned := Some (py "자연재해대책법");
              bill_confidence := 0.00;
              bill_reason := py "text-match(hard=0, soft=0)" |} in
  (registry_ok bm = true /\ bm <> [] /\
   In l (assign_bills_to_speeches ucd_latin_hangul sitting bm)) /\
  (exists c, bill_assigned l = Some c /\ c <> [] /\ In c (dict_keys bm)) /\
  bill_reason l <> py "agenda-flow".
Proof.
  intros bm l.
  assert (H1 : registry_ok bm = true) by (vm_compute; reflexivity).
  assert (H2 : bm <> []) by (vm_compute; discriminate).
  assert (H3 : In l (assign_bills_to_speeches ucd_latin_hangul sitting bm))
    by (vm_compute; do 3 right; left; reflexivity).
  split; [exact (conj H1 (conj H2 H3))|].
  pose proof (@C4_nonempty_registry_always_assigns
                ucd_latin_hangul bm sitting l H1 H2 H3) as H.
  destruct H as [Ha [Hb _]].
  split; [exact Ha | exact Hb].
Defined.

(** C4 as stated fails on the third record of [sitting]: every bill scores
    (0, 0) on its (empty) text, yet it is assigned the bill named in its own
    field, the second of the registry, with confidence 0.6. *)
Lemma C4_counterexample :
  let bm := snd (collect_bills_and_keywords ucd_latin_hangul sitting) in
  let u := utterance "김위원" "2. 경찰공무원법 일부개정법률안(홍길동 의원 대표발의)" "" in
  dict_keys bm = [py "자연재해대책법"; py "경찰공무원법"] /\
  map (score_of ucd_latin_hangul bm (or_empty (speech_text u))) (dict_keys bm)
    = [(0, 0)%Z; (0, 0)%Z] /\
  nth_error (map outcome (assign_bills_to_speeches ucd_latin_hangul sitting bm)) 2
    = Some (Some (py "경찰공무원법"), 0.60, py "bills-field-candidate + text(0,0)") /\
  (Some (py "경찰공무원법"), 0.60, py "bills-field-candidate + text(0,0)")
    <> (hd_error (dict_keys bm), 0.00, py "text-match(hard=0, soft=0)").
Proof.
  vm_compute.
  split; [reflexivity | split; [reflexivity | split; [reflexivity |]]].
  intro H. discriminate H.
Qed.

(** C1, the code at the failing input.  The first record of [sitting] has no
    field, its text scores (0, 0) against both bills and no state precedes
    it; it is assigned the first bill of the registry, not null.  With an
    empty registry it is assigned null, with the empty reason. *)
Theorem C1_first_utterance_without_evidence :
  let bm := snd (collect_bills_and_keywords ucd_latin_hangul sitting) in
  let u := utterance "위원장" "" "성원이 되었으므로 회의를 개의하겠습니다" in
  hd_error sitting = Some u /\
  map (score_of ucd_latin_hangul bm (or_empty (speech_text u))) (dict_keys bm)
    = [(0, 0)%Z; (0, 0)%Z] /\
  candidates_of ucd_latin_hangul bm u = [] /\
  hd_error (map outcome (assign_bills_to_speeches ucd_latin_hangul sitting bm))
    = Some (Some (py "자연재해대책법"), 0.00, py "text-match(hard=0, soft=0)") /\
  map outcome (assign_bills_to_speeches ucd_latin_hangul [u] [])
    = [(None, 0.00, [])].
Proof.
  vm_compute. repeat (split; [reflexivity|]). reflexivity.
Qed.

(** C2, the code at the failing input.  On the text of the first record of
    [sitting] both bills score (0, 0): step 2 returns the first bill with
    confidence 0.0, and that bill is what the record is assigned. *)
Theorem C2_zero_score_is_picked :
  let bm := snd (collect_bills_and_keywords ucd_latin_hangul sitting) in
  let text := py "성원이 되었으므로 회의를 개의하겠습니다" in
  map (score_of ucd_latin_hangul bm text) (dict_keys bm) = [(0, 0)%Z; (0, 0)%Z] /\
  choose_by_score ucd_latin_hangul bm text
    = (Some (py "자연재해대책법"), 0.0, py "hard=0, soft=0") /\
  step2 ucd_latin_hangul bm text (None, 0.0, [])
    = (Some (py "자연재해대책법"), 0.0, py "text-match(hard=0, soft=0)").
Proof.
  vm_compute. repeat (split; [reflexivity|]). reflexivity.
Qed.

(** C3, the code at the failing input.  The last record of [sitting] has no
    field and no text in common with a bill, and follows a record assigned
    the second bill with confidence 0.6; it is assigned the first bill of the
    registry for the reason text-match(hard=0, soft=0), with confidence 0.0. *)
Theorem C3_agenda_flow_not_reached :
  let bm := snd (collect_bills_and_keywords ucd_latin_hangul sitting) in
  let u := utterance "박위원" "" "잠시 정회하겠습니다" in
  map (score_of ucd_latin_hangul bm (or_empty (speech_text u))) (dict_keys bm)
    = [(0, 0)%Z; (0, 0)%Z] /\
  candidates_of ucd_latin_hangul bm u = [] /\
  map outcome (assign_bills_to_speeches ucd_latin_hangul sitting bm)
    = [ (Some (py "자연재해대책법"), 0.00, py "text-match(hard=0, soft=0)");
        (Some (py "자연재해대책법"), 0.60, py "bills-field-candidate + text(0,0)");
        (Some (py "경찰공무원법"), 0.60, py "bills-field-candidate + text(0,0)");
        (Some (py "자연재해대책법"), 0.00, py "text-match(hard=0, soft=0)") ] /\
  last_agenda_canon
    (fst (label_from ucd_latin_hangul bm initial_state (firstn 3 sitting)))
    = Some (py "경찰공무원법").
Proof.
  vm_compute. repeat (split; [reflexivity|]). reflexivity.
Qed.

(** ** The state of the resolver *)

Section ResolverState.
Variable U : unicode_db.
Variable bm : dict str bill_entry.

Lemma step4_cases (st : state) (p : pick) :
  step4 st p = p \/ settled (step4 st p).
Proof.
  unfold step4. destruct p as [[picked conf] why].
  destruct (negb (truthy picked) && truthy (last_agenda_canon st)) eqn:E; [right | now left].
  apply andb_true_iff in E. exact (proj2 E).
Qed.

Lemma step5_cases (st : state) (rec : speech) (p : pick) :
  state_ok st -> step5 st rec p = p \/ settled (step5 st rec p).
Proof.
  intro Hok. unfold step5. destruct p as [[picked conf] why].
  destruct (negb (truthy picked) &&
            dict_mem opt_str_eqb (last_by_speaker st) (member_name rec)) eqn:E;
    [right | now left].
  apply andb_true_iff in E. destruct E as [_ E]. unfold dict_mem in E.
  unfold settled. simpl.
  destruct (dict_get opt_str_eqb (last_by_speaker st) (member_name rec)) as [b|] eqn:G;
    [|discriminate].
  apply Hok in G. destruct b; [contradiction | reflexivity].
Qed.

Lemma pick_bill_null_or_settled (st : state) (rec : speech) :
  state_ok st -> null_or_settled (pick_bill U bm st rec).
Proof.
  intro Hok. unfold pick_bill.
  set (text := or_empty (speech_text rec)).
  set (cands := candidates_of U bm rec).
  assert (H2 : null_or_settled (step2 U bm text (None, 0.0, []))).
  { destruct (step2_cases U bm text (None, 0.0, [])) as [E|[S _]].
    - rewrite E. now left.
    - now right. }
  assert (H3 : null_or_settled (step3 U bm text cands (step2 U bm text (None, 0.0, [])))).
  { destruct (step3_cases U bm text cands (step2 U bm text (None, 0.0, []))) as [E|[S _]].
    - rewrite E. exact H2.
    - now right. }
  assert (H4 : null_or_settled
                 (step4 st (step3 U bm text cands (step2 U bm text (None, 0.0, []))))).
  { destruct (step4_cases st (step3 U bm text cands (step2 U bm text (None, 0.0, []))))
      as [E|S].
    - rewrite E. exact H3.
    - now right. }
  destruct (step5_cases rec
              (step4 st (step3 U bm text cands (step2 U bm text (None, 0.0, [])))) Hok)
    as [E|S].
  - rewrite E. exact H4.
  - now right.
Qed.

Lemma update_state_ok (st : state) (rec : speech) (picked : option str) :
  state_ok st -> state_ok (update_state st rec picked).
Proof.
  intro Hok. unfold update_state.
  destruct picked as [[|c b]|]; try exact Hok.
  intros spk b' G. simpl in G.
  destruct (opt_str_eqb spk (member_name rec)) eqn:E.
  - apply opt_str_eqb_eq in E. subst spk.
    rewrite (dict_get_set_same _ opt_str_eqb_eq) in G. inversion G. discriminate.
  - rewrite (dict_get_set_other _ opt_str_eqb_eq) in G.
    + now apply Hok in G.
    + intro E'. subst spk.
      assert (T : opt_str_eqb (member_name rec) (member_name rec) = true)
        by now apply opt_str_eqb_eq.
      congruence.
Qed.

Lemma label_from_state_ok (st : state) (sp : list speech) :
  state_ok st -> state_ok (fst (label_from U bm st sp)).
Proof.
  revert st. induction sp as [|r sp IH]; intros st Hok; simpl; [exact Hok|].
  destruct (label_speech_fields U bm st r) as [_ [_ [_ [_ Fs]]]].
  destruct (label_speech U bm st r) as [st1 l]. simpl in Fs.
  assert (Hok1 : state_ok st1) by (rewrite Fs; now apply update_state_ok).
  specialize (IH st1 Hok1). destruct (label_from U bm st1 sp) as [st2 ls].
  exact IH.
Qed.

Lemma initial_state_ok : state_ok initial_state.
Proof. intros spk b G. discriminate. Qed.

End ResolverState.

(** With an empty registry no bill is ever picked: the state stays the
    initial one and every record is put out with a null bill and the empty
    reason. *)
Lemma label_from_empty_registry (U : unicode_db) (speeches : list speech) :
  label_from U [] initial_state speeches =
  (initial_state,
   map (fun rec => {| rec_of := rec; bill_assigned := None;
                      bill_confidence := 0.00; bill_reason := [] |}) speeches).
Proof.
  induction speeches as [|rec rest IH]; [reflexivity|].
  simpl. unfold label_speech, pick_bill.
  assert (Ec : candidates_of U [] rec = []).
  { unfold candidates_of. generalize (map (normalize_bill_title U)
      (filter (fun b => match normalize_bill_title U b with [] => false | _ => true end)
              (split_raw_bills_field U (Some (or_empty (bills rec)))))).
    intro l. induction l as [|c l IHl]; [reflexivity | exact IHl]. }
  rewrite Ec. simpl. rewrite IH. reflexivity.
Qed.

(** In a run of the resolver the reasons of steps 4 and 5, and the reason
    that [choose_by_score] returns for an empty registry, are never put out. *)
Lemma fallback_reasons_unreachable
      (U : unicode_db) (bm : dict str bill_entry) (speeches : list speech) (l : labeled) :
  registry_ok bm = true ->
  In l (assign_bills_to_speeches U speeches bm) ->
  bill_reason l <> py "agenda-flow" /\
  bill_reason l <> py "speaker-history" /\
  bill_reason l <> py "no-match".
Proof.
  intros Hwf Hin. destruct bm as [|e bm'].
  - unfold assign_bills_to_speeches in Hin. rewrite label_from_empty_registry in Hin.
    simpl in Hin. apply in_map_iff in Hin. destruct Hin as [rec [El _]]. subst l.
    simpl. repeat split; intro H; vm_compute in H; discriminate H.
  - apply label_from_In in Hin. destruct Hin as [st [rec [_ El]]].
    destruct (label_speech_fields U (e :: bm') st rec) as [_ [_ [_ [Fw _]]]].
    rewrite <- El in Fw.
    assert (Hne : e :: bm' <> []) by discriminate.
    destruct (pick_bill_nonempty U st rec Hne Hwf) as [_ [_ [Hr _]]].
    rewrite Fw. destruct (evidence_reason_not_fallback Hr) as [H1 [H2 [H3 _]]].
    auto.
Qed.

(** C9.  For every record [rec] of a transcript [pre ++ rec :: post], with
    [st] the state the records before it leave: its output record is computed
    from [st]; if it is assigned a bill [b], the state after it has [b] both
    as last bill of the agenda and as last bill of its speaker, and is
    otherwise [st]; if it is assigned null, the state after it is [st]. *)
Theorem C9_state_update_after_pick
        (U : unicode_db) (bm : dict str bill_entry) (pre post : list speech) (rec : speech) :
  let st := fst (label_from U bm initial_state pre) in
  let st' := fst (label_speech U bm st rec) in
  let l := snd (label_speech U bm st rec) in
  nth_error (assign_bills_to_speeches U (pre ++ rec :: post) bm) (List.length pre) = Some l /\
  fst (label_from U bm initial_state (pre ++ [rec])) = st' /\
  bill_assigned l = fst (fst (pick_bill U bm st rec)) /\
  match bill_assigned l with
  | Some b =>
      last_agenda_canon st' = Some b /\
      dict_get opt_str_eqb (last_by_speaker st') (member_name rec) = Some b /\
      (forall spk, spk <> member_name rec ->
         dict_get opt_str_eqb (last_by_speaker st') spk =
         dict_get opt_str_eqb (last_by_speaker st) spk)
  | None => st' = st
  end.
Proof.
  intros st st' l.
  assert (Hok : state_ok st) by (apply label_from_state_ok, initial_state_ok).
  destruct (label_speech_fields U bm st rec) as [_ [Fa [_ [_ Fs]]]].
  fold l in Fa. fold st' in Fs.
  split; [|split; [|split]].
  - unfold assign_bills_to_speeches. rewrite label_from_app. simpl snd.
    rewrite nth_error_app2; rewrite label_from_length; [|lia].
    rewrite Nat.sub_diag. fold st. simpl.
    destruct (label_speech U bm st rec) as [s1 l1] eqn:E1.
    destruct (label_from U bm s1 post) as [s2 ls]. reflexivity.
  - rewrite label_from_app. simpl fst. fold st. simpl.
    unfold st'. destruct (label_speech U bm st rec) as [s1 l1]. reflexivity.
  - exact Fa.
  - rewrite Fa, Fs.
    destruct (pick_bill_null_or_settled U bm rec Hok) as [N|S].
    + rewrite N. reflexivity.
    + unfold settled in S. apply truthy_Some in S. destruct S as [b [Eb Nb]].
      rewrite Eb. unfold update_state. destruct b as [|c b]; [contradiction|].
      simpl. split; [reflexivity|]. split.
      * apply (dict_get_set_same _ opt_str_eqb_eq).
      * intros spk Hs. now apply (dict_get_set_other _ opt_str_eqb_eq).
Qed.

(** ** The answer of the language model against the list of bills *)

Lemma startswith_spec (p s : str) :
  startswith p s = true <-> exists b, s = p ++ b.
Proof.
  revert s. induction p as [|x p IH]; intro s; simpl.
  - split; [intros _; now exists s | reflexivity].
  - destruct s as [|y s].
    + split; [discriminate | intros [b E]; discriminate].
    + rewrite andb_true_iff, N.eqb_eq, IH. split.
      * intros [E [b Eb]]. subst. now exists b.
      * intros [b E]. inversion E; subst. split; [reflexivity | now exists b].
Qed.

Lemma contains_spec (p s : str) : contains p s = true <-> substring p s.
Proof.
  unfold substring. induction s as [|y s IH].
  - simpl. rewrite orb_false_r, startswith_spec. split.
    + intros [b E]. exists [], b. exact E.
    + intros [a [b E]]. destruct a; [now exists b | discriminate].
  - simpl. rewrite orb_true_iff, startswith_spec, IH. split.
    + intros [[b E] | [a [b E]]].
      * exists [], b. exact E.
      * exists (y :: a), b. simpl. now rewrite E.
    + intros [[|z a] [b E]].
      * left. now exists b.
      * right. inversion E; subst. now exists a, b.
Qed.

Lemma same_bill_spec (chosen original : str) :
  same_bill chosen original = true <-> names_bill chosen original.
Proof.
  unfold same_bill, names_bill.
  rewrite !orb_true_iff, str_eqb_eq, !contains_spec. tauto.
Qed.

Lemma same_bill_false (chosen original : str) :
  same_bill chosen original = false <-> ~ names_bill chosen original.
Proof.
  rewrite <- same_bill_spec. destruct (same_bill chosen original); split; intro H;
    try reflexivity; try discriminate; try congruence.
Qed.

Lemma find_first (A : Type) (f : A -> bool) (l : list A) (x : A) :
  find f l = Some x ->
  exists pre post, l = pre ++ x :: post /\ f x = true /\
                   forall y, In y pre -> f y = false.
Proof.
  induction l as [|a l IH]; simpl; [discriminate|].
  destruct (f a) eqn:E.
  - intro H. inversion H; subst. exists [], l.
    split; [reflexivity|]. split; [exact E|]. intros y Hy. destruct Hy.
  - intro H. destruct (IH H) as [pre [post [El [Fx Hpre]]]].
    exists (a :: pre), post. subst l. repeat split; auto.
    intros y [Ey|Hy]; [now subst | now apply Hpre].
Qed.

(** C7, as amended.  When the call returns a text, the answer is the text
    stripped.  If it names a bill of the list (is equal to it, a part of it,
    or contains it), the first such bill in the order of the list is
    returned, with no warning, however many bills it names; only if it names
    no bill of the list is the first bill of the list returned, with the
    warning that this is a default. *)
Theorem C7_answer_matched_to_first_bill
        (client : str -> list str -> reply) (speech_text content : str)
        (bill_list : list str) :
  client speech_text bill_list = Content content ->
  bill_list <> [] ->
  let chosen := strip content in
  (exists pre b post,
      bill_list = pre ++ b :: post /\
      (forall x, In x pre -> ~ names_bill chosen x) /\
      names_bill chosen b /\
      find_most_relevant_bill client speech_text bill_list = (Some b, []))
  \/
  ((forall x, In x bill_list -> ~ names_bill chosen x) /\
   find_most_relevant_bill client speech_text bill_list
     = (hd_error bill_list, [Warning_not_in_list chosen])).
Proof.
  intros Hc Hne chosen. unfold find_most_relevant_bill. rewrite Hc. fold chosen.
  destruct (find (same_bill chosen) bill_list) as [b|] eqn:F.
  - left. destruct (find_first _ _ F) as [pre [post [El [Fb Hpre]]]].
    exists pre, b, post. split; [exact El|]. split; [|split].
    + intros x Hx. apply same_bill_false. now apply Hpre.
    + now apply same_bill_spec.
    + reflexivity.
  - right. split.
    + intros x Hx. apply same_bill_false. exact (find_none _ _ F x Hx).
    + destruct bill_list; [contradiction | reflexivity].
Qed.

Lemma C7_witness :
  let client := fun (_ : str) (_ : list str) => Content (py " 자연재해대책법 일부개정법률안 ") in
  let chosen := py "자연재해대책법 일부개정법률안" in
  (client [] three_bills = Content (py " 자연재해대책법 일부개정법률안 ") /\
   three_bills <> []) /\
  ((exists pre b post,
       three_bills = pre ++ b :: post /\
       (forall x, In x pre -> ~ names_bill chosen x) /\
       names_bill chosen b /\
       find_most_relevant_bill client [] three_bills = (Some b, []))
   \/
   ((forall x, In x three_bills -> ~ names_bill chosen x) /\
    find_most_relevant_bill client [] three_bills
      = (hd_error three_bills, [Warning_not_in_list chosen]))).
Proof.
  intros client chosen.
  assert (H1 : client [] three_bills = Content (py " 자연재해대책법 일부개정법률안 "))
    by reflexivity.
  assert (H2 : three_bills <> []) by (vm_compute; discriminate).
  split; [exact (conj H1 H2)|].
  assert (E : chosen = strip (py " 자연재해대책법 일부개정법률안 ")) by (vm_compute; reflexivity).
  rewrite E.
  exact (@C7_answer_matched_to_first_bill client [] _ three_bills H1 H2).
Defined.

(** C7 as stated fails when the answer is a part of two bills of the list:
    it is not equal to a bill and names more than one, yet the second bill
    is returned as the selection, without a warning, and not the first bill
    as a default. *)
Lemma C7_counterexample :
  let chosen := py "경찰공무원법 일부개정법률안" in
  let client := fun (_ : str) (_ : list str) => Content chosen in
  mem chosen three_bills = false /\
  filter (same_bill chosen) three_bills
    = map py [ "2. 경찰공무원법 일부개정법률안(홍길동 의원 대표발의)";
               "3. 경찰공무원법 일부개정법률안(김철수 의원 대표발의)" ]%string /\
  find_most_relevant_bill client [] three_bills
    = (Some (py "2. 경찰공무원법 일부개정법률안(홍길동 의원 대표발의)"), []) /\
  find_most_relevant_bill client [] three_bills
    <> (hd_error three_bills, [Warning_not_in_list chosen]).
Proof.
  vm_compute.
  split; [reflexivity | split; [reflexivity | split; [reflexivity |]]].
  intro H. discriminate H.
Qed.

(** ** The loop of [process_speeches] *)

Section ProcessLoop.
Variable U : unicode_db.

(** A run that returns has made one record of each record, in order, by
    the loop body. *)
Lemma process_from_returns ask (total : nat) (speeches : list record) :
  forall i out,
    fst (process_from U ask total i speeches) = Returns out ->
    List.length out = List.length speeches /\
    forall j r,
      nth_error speeches j = Some r ->
      exists r', fst (process_speech U ask total (i + j) r) = Returns r' /\
                 nth_error out j = Some r'.
Proof.
  induction speeches as [|s rest IH]; intros i out H.
  - simpl in H. inversion H. split; [reflexivity|]. intros [|j] r Hj; discriminate.
  - cbn [process_from] in H.
    destruct (process_speech U ask total i s) as [[ns|e] lg] eqn:E; [|discriminate].
    destruct (process_from U ask total (S i) rest) as [[ps|e] lgs] eqn:E';
      [|discriminate].
    simpl in H. inversion H; subst out.
    destruct (IH (S i) ps) as [Hl Hn]; [now rewrite E'|].
    split; [simpl; now rewrite Hl|].
    intros [|j] r Hj; simpl in Hj.
    + inversion Hj; subst r. exists ns. rewrite Nat.add_0_r, E. now split.
    + destruct (Hn j r Hj) as [r' [H1 H2]]. exists r'.
      rewrite Nat.add_succ_r. now split.
Qed.

(** The run returns when the loop body returns on every record. *)
Lemma process_from_total ask (total : nat) (speeches : list record) :
  forall i,
    (forall j r, nth_error speeches j = Some r ->
                 exists r', fst (process_speech U ask total (i + j) r) = Returns r') ->
    exists out, fst (process_from U ask total i speeches) = Returns out.
Proof.
  induction speeches as [|s rest IH]; intros i H; [now exists []|].
  cbn [process_from].
  destruct (H 0%nat s eq_refl) as [ns Hs]. rewrite Nat.add_0_r in Hs.
  destruct (process_speech U ask total i s) as [[ns'|e] lg]; [|discriminate].
  destruct (IH (S i)) as [ps Hps].
  { intros j r Hj. specialize (H (S j) r Hj). now rewrite Nat.add_succ_r in H. }
  destruct (process_from U ask total (S i) rest) as [[ps'|e] lgs]; [|discriminate].
  now eexists.
Qed.

Lemma process_from_log ask (total : nat) (speeches : list record) :
  forall i j r e out,
    fst (process_from U ask total i speeches) = Returns out ->
    nth_error speeches j = Some r ->
    In e (snd (process_speech U ask total (i + j) r)) ->
    In e (snd (process_from U ask total i speeches)).
Proof.
  induction speeches as [|s rest IH]; intros i j r e out Ho H He.
  - destruct j; discriminate.
  - cbn [process_from] in *.
    destruct (process_speech U ask total i s) as [[ns|x] lg] eqn:E; [|discriminate].
    specialize (IH (S i)).
    destruct (process_from U ask total (S i) rest) as [[ps|x] lgs]; [|discriminate].
    simpl in *. apply in_or_app. destruct j as [|j]; simpl in *.
    + inversion H; subst. rewrite Nat.add_0_r, E in He. now left.
    + right. apply (IH j r e ps eq_refl H). now rewrite Nat.add_succ_r in He.
Qed.

(** The loop body asks the model about its own position only. *)
Lemma process_speech_ext ask ask' (total i : nat) (s : record) :
  (forall t b, ask' i t b = ask i t b) ->
  process_speech U ask' total i s = process_speech U ask total i s.
Proof.
  intro H. unfold process_speech, find_most_relevant_bill.
  destruct (bill_list_of (speech_get s (py "bills"))) as [bl|e]; [|reflexivity].
  now rewrite H.
Qed.

(** Whether the loop body raises, and what, does not depend on the model. *)
Lemma process_speech_raises ask ask' (total i : nat) (s : record) (e : exception) :
  fst (process_speech U ask total i s) = Raises e ->
  process_speech U ask' total i s = (Raises e, []).
Proof.
  unfold process_speech.
  destruct (bill_list_of (speech_get s (py "bills"))) as [bl|x].
  - destruct (Nat.leb (List.length bl) 1); [discriminate|].
    destruct (dict_get str_eqb s (py "speech_id")) as [id|].
    + destruct (Nat.eqb (List.length (distinct (map (get_bill_name U) bl))) 1);
        [discriminate|].
      destruct (find_most_relevant_bill (ask i) _ bl) as [m lg].
      destruct (truthy m); discriminate.
    + simpl. intro H. inversion H. reflexivity.
  - simpl. intro H. inversion H. reflexivity.
Qed.

Lemma process_speech_readable ask (total i : nat) (s : record) :
  readable s -> exists r', fst (process_speech U ask total i s) = Returns r'.
Proof.
  intros [[bl Hb] [id Hid]]. unfold process_speech. rewrite Hb, Hid.
  destruct (Nat.leb (List.length bl) 1); [now eexists|].
  destruct (Nat.eqb (List.length (distinct (map (get_bill_name U) bl))) 1);
    [now eexists|].
  destruct (find_most_relevant_bill (ask i) _ bl) as [m lg].
  destruct (truthy m); now eexists.
Qed.

(** Two runs on models that differ at one position only end the same way:
    both return, or both raise the same exception. *)
Lemma process_from_same_end ask ask' (total k : nat) (speeches : list record) :
  (forall j t b, j <> k -> ask' j t b = ask j t b) ->
  forall i e,
    (forall r, nth_error speeches (k - i) = Some r -> (i <= k)%nat ->
               exists r', fst (process_speech U ask total k r) = Returns r') ->
    fst (process_from U ask total i speeches) = Raises e ->
    fst (process_from U ask' total i speeches) = Raises e.
Proof.
  intro Hext. induction speeches as [|s rest IH]; intros i e Hk H; [discriminate|].
  cbn [process_from] in *.
  destruct (Nat.eq_dec i k) as [Ei|Ei].
  - subst i. rewrite Nat.sub_diag in Hk. destruct (Hk s eq_refl (le_n _)) as [r' Hr].
    destruct (process_speech U ask total k s) as [[ns|x] lg] eqn:E; [|discriminate].
    destruct (process_speech U ask' total k s) as [[ns'|x] lg'] eqn:E'.
    + assert (IH' : fst (process_from U ask' total (S k) rest) = Raises e).
      { apply IH.
        - intros r _ Hle. lia.
        - destruct (process_from U ask total (S k) rest) as [[ps|x] lgs];
            [discriminate | exact H]. }
      destruct (process_from U ask' total (S k) rest) as [[ps|x] lgs];
        [discriminate | exact IH'].
    + pose proof (@process_speech_raises ask' ask total k s x) as C.
      rewrite E' in C. specialize (C eq_refl). rewrite E in C. discriminate.
  - rewrite (@process_speech_ext ask ask' total i s) by (intros t b; now apply Hext).
    destruct (process_speech U ask total i s) as [[ns|x] lg] eqn:E; [|exact H].
    assert (IH' : fst (process_from U ask total (S i) rest) = Raises e ->
                  fst (process_from U ask' total (S i) rest) = Raises e).
    { apply IH. intros r Hr Hle. apply Hk; [|lia].
      replace (k - i)%nat with (S (k - S i)) by lia. exact Hr. }
    destruct (process_from U ask total (S i) rest) as [[ps|x] lgs]; [discriminate|].
    specialize (IH' H).
    destruct (process_from U ask' total (S i) rest) as [[ps'|x'] lgs'];
      [discriminate | exact IH'].
Qed.

(** A call that raises leaves the record as it was, and is logged. *)
Lemma process_speech_raised ask (total i : nat) (s : record)
      (bill_list : list str) (id : json) :
  bill_list_of (speech_get s (py "bills")) = Returns bill_list ->
  Nat.leb (List.length bill_list) 1 = false ->
  Nat.eqb (List.length (distinct (map (get_bill_name U) bill_list))) 1 = false ->
  dict_get str_eqb s (py "speech_id") = Some id ->
  ask i (shown_as (speech_get s (py "speech_text"))) bill_list = Raised ->
  process_speech U ask total i s =
    (Returns s,
     [Info_analysing (S i) total (shown_as id) (List.length bill_list);
      Warning_names_differ; Error_call_failed;
      Warning_analysis_failed (shown_as id)]).
Proof.
  intros H0 H1 H2 H3 H4. unfold process_speech, find_most_relevant_bill.
  rewrite H0, H1, H3, H2, H4. reflexivity.
Qed.

End ProcessLoop.

(** C8.  The record at position [i] lists several bills of different names,
    and the call made for it raises.  Then the loop body catches the
    exception: it returns the record as it was and logs the failure, and the
    loop goes on.  The failure changes nothing for the other records: on a
    model that differs at position [i] only, the loop body makes the same
    of every other record, and the run ends the same way.  A run that
    returns has one record for each record of the input, each being what
    the loop body makes of the record at its position, the record at [i]
    being the input record; and the run returns whenever every record has a
    string, or nothing, as its field [bills] and has an identifier.  (The
    one thing that ends a run early is a record without these, whether a
    call has failed or not.) *)
Theorem C8_failed_call_keeps_record
        (U : unicode_db) (ask : nat -> str -> list str -> reply)
        (speeches : list record) (i : nat) (s : record)
        (bill_list : list str) (id : json) :
  nth_error speeches i = Some s ->
  bill_list_of (speech_get s (py "bills")) = Returns bill_list ->
  Nat.leb (List.length bill_list) 1 = false ->
  Nat.eqb (List.length (distinct (map (get_bill_name U) bill_list))) 1 = false ->
  dict_get str_eqb s (py "speech_id") = Some id ->
  ask i (shown_as (speech_get s (py "speech_text"))) bill_list = Raised ->
  let total := List.length speeches in
  fst (process_speech U ask total i s) = Returns s /\
  In Error_call_failed (snd (process_speech U ask total i s)) /\
  (forall out,
      fst (process_speeches U ask speeches) = Returns out ->
      nth_error out i = Some s /\
      In Error_call_failed (snd (process_speeches U ask speeches)) /\
      List.length out = List.length speeches /\
      forall j r, nth_error speeches j = Some r ->
                  exists r', fst (process_speech U ask total j r) = Returns r' /\
                             nth_error out j = Some r') /\
  (forall ask' : nat -> str -> list str -> reply,
      (forall j t b, j <> i -> ask' j t b = ask j t b) ->
      (forall j r, j <> i ->
         process_speech U ask' total j r = process_speech U ask total j r) /\
      (forall e, fst (process_speeches U ask' speeches) = Raises e <->
                 fst (process_speeches U ask speeches) = Raises e) /\
      (forall out out',
         fst (process_speeches U ask speeches) = Returns out ->
         fst (process_speeches U ask' speeches) = Returns out' ->
         forall j, j <> i -> nth_error out' j = nth_error out j)) /\
  (Forall readable speeches ->
   exists out, fst (process_speeches U ask speeches) = Returns out).
Proof.
  intros Hs H0 H1 H2 H3 H4 total.
  pose proof (process_speech_raised U ask total i s H0 H1 H2 H3 H4) as Hr.
  split; [now rewrite Hr|]. split; [rewrite Hr; simpl; tauto|].
  split; [|split].
  - intros out Ho. unfold process_speeches in *. fold total in Ho |- *.
    destruct (process_from_returns U ask total speeches 0 Ho) as [Hl Hn].
    split.
    { destruct (Hn i s Hs) as [r' [E1 E2]]. simpl in E1. rewrite Hr in E1.
      inversion E1. now subst r'. }
    split.
    { apply process_from_log with (j := i) (r := s) (out := out); try assumption.
      simpl. rewrite Hr. simpl. tauto. }
    split; [exact Hl|].
    intros j r Hj. exact (Hn j r Hj).
  - intros ask' Hext.
    assert (Hext' : forall j t b, j <> i -> ask j t b = ask' j t b)
      by (intros j t b Hj; symmetry; now apply Hext).
    assert (Hi : forall a r, nth_error speeches (i - 0) = Some r -> (0 <= i)%nat ->
                   exists r', fst (process_speech U a total i r) = Returns r').
    { intros a r Hr' _. rewrite Nat.sub_0_r, Hs in Hr'. inversion Hr'; subst r.
      apply process_speech_readable. split; [now exists bill_list | now exists id]. }
    split; [|split].
    + intros j r Hj. apply process_speech_ext. intros t b. now apply Hext.
    + intro e. unfold process_speeches. fold total. split.
      * apply (process_from_same_end U ask' ask total speeches Hext' (Hi ask')).
      * apply (process_from_same_end U ask ask' total speeches Hext (Hi ask)).
    + intros out out' Ho Ho' j Hj. unfold process_speeches in *. fold total in Ho, Ho'.
      destruct (process_from_returns U ask total speeches 0 Ho) as [Hl Hn].
      destruct (process_from_returns U ask' total speeches 0 Ho') as [Hl' Hn'].
      destruct (nth_error speeches j) as [r|] eqn:Ej.
      * destruct (Hn j r Ej) as [r1 [E1 N1]]. destruct (Hn' j r Ej) as [r2 [E2 N2]].
        simpl in E1, E2.
        rewrite (process_speech_ext U ask ask' total j r) in E2
          by (intros t b; now apply Hext).
        rewrite E1 in E2. inversion E2; subst r2. now rewrite N1, N2.
      * apply nth_error_None in Ej.
        assert (N1 : nth_error out j = None) by (apply nth_error_None; lia).
        assert (N2 : nth_error out' j = None) by (apply nth_error_None; lia).
        now rewrite N1, N2.
  - intro Hall. unfold process_speeches. fold total.
    apply process_from_total. intros j r Hj.
    apply process_speech_readable.
    rewrite Forall_forall in Hall. apply Hall. exact (nth_error_In _ _ Hj).
Qed.

Lemma C8_witness :
  let s := converted "7001" (Str (py "위원장"))
              (Str (py (lines ["1. 자연재해대책법 일부개정법률안(정부 제출)";
                               "2. 경찰공무원법 일부개정법률안(홍길동 의원 대표발의)"]%string)))
              "두 안건을 일괄하여 상정합니다" in
  let bill_list := map py ["1. 자연재해대책법 일부개정법률안(정부 제출)";
                           "2. 경찰공무원법 일부개정법률안(홍길동 의원 대표발의)"]%string in
  let id := Other (py "7001") in
  (nth_error two_bill_records 0 = Some s /\
   bill_list_of (speech_get s (py "bills")) = Returns bill_list /\
   Nat.leb (List.length bill_list) 1 = false /\
   Nat.eqb (List.length (distinct (map (get_bill_name ucd_latin_hangul) bill_list))) 1
     = false /\
   dict_get str_eqb s (py "speech_id") = Some id /\
   timeout_then_answer 0 (shown_as (speech_get s (py "speech_text"))) bill_list = Raised) /\
  fst (process_speech ucd_latin_hangul timeout_then_answer 2 0 s) = Returns s /\
  exists out,
    fst (process_speeches ucd_latin_hangul timeout_then_answer two_bill_records)
      = Returns out /\
    nth_error out 0 = Some s /\
    List.length out = 2%nat.
Proof.
  intros s bill_list id.
  assert (H0 : nth_error two_bill_records 0 = Some s) by reflexivity.
  assert (Hb : bill_list_of (speech_get s (py "bills")) = Returns bill_list)
    by (vm_compute; reflexivity).
  assert (H1 : Nat.leb (List.length bill_list) 1 = false) by reflexivity.
  assert (H2 : Nat.eqb (List.length (distinct (map (get_bill_name ucd_latin_hangul)
                                                   bill_list))) 1 = false)
    by (vm_compute; reflexivity).
  assert (H3 : dict_get str_eqb s (py "speech_id") = Some id) by reflexivity.
  assert (H4 : timeout_then_answer 0 (shown_as (speech_get s (py "speech_text")))
                                   bill_list = Raised)
    by reflexivity.
  split; [exact (conj H0 (conj Hb (conj H1 (conj H2 (conj H3 H4)))))|].
  pose proof (@C8_failed_call_keeps_record ucd_latin_hangul timeout_then_answer
                two_bill_records 0 s bill_list id H0 Hb H1 H2 H3 H4) as H.
  destruct H as [Ha [_ [Hc [_ Hd]]]].
  split; [exact Ha|].
  assert (Hall : Forall readable two_bill_records).
  { repeat constructor; try (eexists; vm_compute; reflexivity). }
  destruct (Hd Hall) as [out Ho].
  exists out. split; [exact Ho|].
  destruct (Hc out Ho) as [P1 [_ [P2 _]]]. split; [exact P1 | exact P2].
Defined.

(** ** White space *)

Lemma is_space_SP : is_space SP = true.
Proof. reflexivity. Qed.

Lemma sub_runs_spaces_single (s : str) (b : bool) :
  spaces_single b (sub_runs is_space [SP] b s) = true.
Proof.
  revert b. induction s as [|c r IH]; intro b; simpl; [reflexivity|].
  destruct (is_space c) eqn:E.
  - destruct b; [apply IH|].
    change (spaces_single false (SP :: sub_runs is_space [SP] true r) = true).
    cbn [spaces_single]. rewrite is_space_SP, N.eqb_refl. simpl. apply IH.
  - simpl. rewrite E. apply IH.
Qed.

Lemma dropWhile_spaces_single (s : str) (b : bool) :
  spaces_single b s = true -> spaces_single true (dropWhile is_space s) = true.
Proof.
  revert b. induction s as [|c r IH]; intros b H; simpl in *; [reflexivity|].
  destruct (is_space c) eqn:E.
  - apply andb_true_iff in H. destruct H as [_ H]. now apply IH with (b := true).
  - simpl. rewrite E. exact H.
Qed.

Lemma rstrip_spaces_ok (s : str) (b : bool) :
  spaces_single b s = true -> rstrip s = [] \/ spaces_ok b (rstrip s) = true.
Proof.
  revert b. induction s as [|c r IH]; intros b H; [now left|].
  cbn [spaces_single] in H. cbn [rstrip].
  destruct (is_space c) eqn:E.
  - apply andb_true_iff in H. destruct H as [H Hr].
    destruct (IH true Hr) as [E0|Hok].
    + rewrite E0. now left.
    + destruct (rstrip r) as [|c' r'] eqn:Er; [discriminate|].
      right. cbn [spaces_ok]. rewrite E, H. exact Hok.
  - right. destruct (IH false H) as [E0|Hok].
    + rewrite E0. cbn [spaces_ok]. now rewrite E.
    + destruct (rstrip r) as [|c' r'] eqn:Er.
      * cbn [spaces_ok]. now rewrite E.
      * cbn [spaces_ok]. rewrite E. exact Hok.
Qed.

Lemma clean_spaces_tidy (s : str) : tidy (clean_spaces s) = true.
Proof.
  unfold clean_spaces, strip, lstrip.
  pose proof (sub_runs_spaces_single s false) as H.
  apply dropWhile_spaces_single in H.
  apply rstrip_spaces_ok in H. destruct H as [E|H].
  - now rewrite E.
  - unfold tidy. destruct (rstrip _); [reflexivity | exact H].
Qed.

Lemma sub_runs_spaces_ok (s : str) (prev b : bool) :
  spaces_ok prev s = true -> (prev = true \/ b = false) ->
  sub_runs is_space [SP] b s = s.
Proof.
  revert prev b. induction s as [|c r IH]; intros prev b H Hb; simpl in *; [reflexivity|].
  destruct (is_space c) eqn:E.
  - apply andb_true_iff in H. destruct H as [H Hr].
    apply andb_true_iff in H. destruct H as [Hc Hp].
    apply N.eqb_eq in Hc. subst c.
    destruct prev; [discriminate|]. destruct Hb as [Hb|Hb]; [discriminate|]. subst b.
    simpl. f_equal. apply IH with (prev := true); auto.
  - f_equal. apply IH with (prev := false); auto.
Qed.

Lemma rstrip_fixed (s : str) (prev : bool) :
  spaces_ok prev s = true -> rstrip s = s.
Proof.
  revert prev. induction s as [|c r IH]; intros prev H; [reflexivity|].
  cbn [spaces_ok] in H. cbn [rstrip].
  destruct (is_space c) eqn:E.
  - apply andb_true_iff in H. destruct H as [_ Hr].
    rewrite (IH true Hr). destruct r; [discriminate | reflexivity].
  - rewrite (IH false H). destruct r; reflexivity.
Qed.

Lemma tidy_first_not_space (c : char) (r : str) :
  tidy (c :: r) = true -> is_space c = false.
Proof.
  simpl. destruct (is_space c); [|reflexivity].
  rewrite andb_false_r. simpl. discriminate.
Qed.

Lemma clean_spaces_fixed (s : str) : tidy s = true -> clean_spaces s = s.
Proof.
  intro H. destruct s as [|c r]; [reflexivity|].
  unfold clean_spaces, strip, lstrip.
  rewrite (@sub_runs_spaces_ok (c :: r) true false H (or_introl eq_refl)).
  simpl dropWhile. rewrite (tidy_first_not_space _ _ H).
  exact (rstrip_fixed _ _ H).
Qed.

Lemma spaces_ok_only_SP (s : str) (prev : bool) :
  spaces_ok prev s = true -> Forall (fun c => is_space c = true -> c = SP) s.
Proof.
  revert prev. induction s as [|c r IH]; intros prev H; simpl in *; constructor.
  - intro E. rewrite E in H. apply andb_true_iff in H. destruct H as [H _].
    apply andb_true_iff in H. destruct H as [H _]. now apply N.eqb_eq in H.
  - destruct (is_space c).
    + apply andb_true_iff in H. destruct H as [_ H]. now apply IH with (prev := true).
    + now apply IH with (prev := false).
Qed.

Lemma tidy_no_LF (s : str) : tidy s = true -> ~ In LF s.
Proof.
  intros H Hin. destruct s as [|c r]; [contradiction|].
  apply spaces_ok_only_SP in H. rewrite Forall_forall in H.
  specialize (H LF Hin eq_refl). discriminate.
Qed.

(** ** What the steps of the normalizer keep and remove *)

Section Preserved.
Variable P : char -> Prop.

Lemma sub_runs_Forall (p : char -> bool) (b : bool) (s : str) :
  P SP -> Forall P s -> Forall P (sub_runs p [SP] b s).
Proof.
  intros HSP H. revert b. induction H as [|c r Hc Hr IH]; intro b; simpl; [constructor|].
  destruct (p c).
  - destruct b; [apply IH|]. constructor; [exact HSP | apply IH].
  - constructor; [exact Hc | apply IH].
Qed.

Lemma dropWhile_Forall (p : char -> bool) (s : str) :
  Forall P s -> Forall P (dropWhile p s).
Proof.
  intro H. induction H as [|c r Hc Hr IH]; simpl; [constructor|].
  destruct (p c); [exact IH | now constructor].
Qed.

Lemma rstrip_Forall (s : str) : Forall P s -> Forall P (rstrip s).
Proof.
  intro H. induction H as [|c r Hc Hr IH]; simpl; [constructor|].
  destruct (rstrip r) as [|c' r'].
  - destruct (is_space c); [constructor | now constructor].
  - now constructor.
Qed.

Lemma clean_spaces_Forall (s : str) :
  P SP -> Forall P s -> Forall P (clean_spaces s).
Proof.
  intros HSP H. unfold clean_spaces, strip, lstrip.
  apply rstrip_Forall, dropWhile_Forall, sub_runs_Forall; assumption.
Qed.

Lemma replace_go_Forall (old : str) (k : nat) (s : str) :
  Forall P s -> Forall P (replace_go old [] k s).
Proof.
  intro H. revert k. induction H as [|c r Hc Hr IH]; intro k; simpl; [constructor|].
  destruct k as [|k]; [|apply IH].
  destruct (startswith old (c :: r)); simpl; [apply IH|].
  constructor; [exact Hc | apply IH].
Qed.

Lemma remove_stop_phrases_Forall (s : str) :
  Forall P s -> Forall P (remove_stop_phrases s).
Proof.
  unfold remove_stop_phrases. generalize STOP_PHRASES. intro l. revert s.
  induction l as [|sp l IH]; intros s H; simpl; [exact H|].
  apply IH. unfold replace. now apply replace_go_Forall.
Qed.
End Preserved.

Lemma sub_runs_removes (p : char -> bool) (b : bool) (s : str) :
  p SP = false -> Forall (fun c => p c = false) (sub_runs p [SP] b s).
Proof.
  intro HSP. revert b. induction s as [|c r IH]; intro b; simpl; [constructor|].
  destruct (p c) eqn:E.
  - destruct b; [apply IH|]. constructor; [exact HSP | apply IH].
  - constructor; [exact E | apply IH].
Qed.

Lemma sub_runs_none (p : char -> bool) (rep : str) (b : bool) (s : str) :
  Forall (fun c => p c = false) s -> sub_runs p rep b s = s.
Proof.
  intro H. revert b. induction H as [|c r Hc Hr IH]; intro b; simpl; [reflexivity|].
  rewrite Hc. f_equal. apply IH.
Qed.

Lemma replace_absent (old new s : str) :
  contains old s = false -> replace old new s = s.
Proof.
  unfold replace. induction s as [|c r IH]; intro H; simpl in *; [reflexivity|].
  apply orb_false_iff in H. destruct H as [H1 H2].
  destruct old as [|x old]; [discriminate|].
  simpl in H1. simpl. rewrite H1. f_equal. now apply IH.
Qed.

Lemma contains_char_absent (x : char) (s : str) :
  ~ In x s -> contains [x] s = false.
Proof.
  induction s as [|c r IH]; intro H; simpl; [reflexivity|].
  destruct (N.eqb_spec x c) as [E|E].
  - exfalso. apply H. left. now symmetry.
  - simpl. apply IH. intro Hin. apply H. now right.
Qed.

(** Without a group [( ... )] the substitution of [RE_PARENS] changes
    nothing: a candidate group is put back as it was read. *)
Lemma RE_PARENS_no_group (s : str) :
  (RE_PARENS_search_go false s = false -> RE_PARENS_go None s = s) /\
  (RE_PARENS_search_go true s = false ->
   forall buf, RE_PARENS_go (Some buf) s = LPAREN :: rev buf ++ s).
Proof.
  induction s as [|c r [IH1 IH2]].
  - split; [reflexivity|]. intros _ buf. simpl. now rewrite app_nil_r.
  - cbn [RE_PARENS_search_go RE_PARENS_go].
    destruct ((c =? LPAREN)%N) eqn:El.
    + apply N.eqb_eq in El. subst c. split.
      * intro H. exact (IH2 H []).
      * intros H buf. change ((LPAREN =? RPAREN)%N) with false. cbv iota.
        f_equal. f_equal. exact (IH2 H []).
    + destruct ((c =? RPAREN)%N) eqn:Er.
      * split.
        -- cbn [orb]. intro H. f_equal. now apply IH1.
        -- cbn [orb]. discriminate.
      * split.
        -- intro H. f_equal. now apply IH1.
        -- intros H buf. etransitivity; [exact (IH2 H (c :: buf))|].
           cbn [rev]. now rewrite <- app_assoc.
Qed.

Lemma RE_PARENS_sub_fixed (s : str) :
  RE_PARENS_search s = false -> RE_PARENS_sub s = s.
Proof. apply RE_PARENS_no_group. Qed.

Section NormalForm.
Variable U : unicode_db.

Lemma normalize_bill_title_tidy (raw : str) :
  tidy (normalize_bill_title U raw) = true.
Proof.
  unfold normalize_bill_title. destruct raw; [reflexivity|].
  apply clean_spaces_tidy.
Qed.

Lemma normalize_bill_title_no_mark (raw : str) :
  Forall no_mark (normalize_bill_title U raw).
Proof.
  unfold normalize_bill_title. destruct raw; [constructor|].
  apply clean_spaces_Forall; [reflexivity|].
  apply remove_stop_phrases_Forall.
  apply clean_spaces_Forall; [reflexivity|].
  apply sub_runs_removes. reflexivity.
Qed.

Lemma remove_stop_phrases_absent (s : str) :
  forallb (fun sp => negb (contains sp s)) STOP_PHRASES = true ->
  remove_stop_phrases s = s.
Proof.
  unfold remove_stop_phrases. generalize STOP_PHRASES. intro l.
  induction l as [|sp l IH]; intro H; simpl in *; [reflexivity|].
  apply andb_true_iff in H. destruct H as [H1 H2].
  apply negb_true_iff in H1. rewrite (replace_absent _ _ _ H1). now apply IH.
Qed.

(** A string that is tidy, without a connector mark, in normal form for
    NFKC, and on which no pattern of the normalizer matches, is left as it
    is. *)
Lemma normalize_bill_title_fixed (t : str) :
  tidy t = true ->
  Forall no_mark t ->
  NFKC U t = t ->
  RE_PREFIX_NUM_match U t = None ->
  RE_PARENS_search t = false ->
  forallb (fun sp => negb (contains sp t)) STOP_PHRASES = true ->
  normalize_bill_title U t = t.
Proof.
  intros Ht Hm Hn Hp Hg Hs.
  unfold normalize_bill_title. destruct t as [|c r] eqn:Et; [reflexivity|].
  rewrite <- Et in *.
  assert (E1 : normalize_text U t = t) by (rewrite Et; simpl; rewrite <- Et; exact Hn).
  rewrite E1.
  rewrite (replace_absent [LF] [SP] t (contains_char_absent _ _ (tidy_no_LF _ Ht))).
  unfold RE_PREFIX_NUM_sub. rewrite Hp.
  rewrite (RE_PARENS_sub_fixed _ Hg).
  unfold RE_DANGLING_MARKS_sub. rewrite (sub_runs_none _ _ _ Hm).
  rewrite (clean_spaces_fixed _ Ht).
  rewrite (remove_stop_phrases_absent _ Hs).
  exact (clean_spaces_fixed _ Ht).
Qed.
End NormalForm.

(** ** The claims on the normalizer *)

(** C5, as amended.  A second application of the normalizer changes nothing
    when the first one has left a title in normal form for NFKC with no
    enumeration prefix, no parenthesized group and no stop phrase in it (the
    white space of a normalized title is always collapsed and its connector
    marks are always gone). *)
Theorem C5_normalize_idempotent_on_settled_titles (U : unicode_db) (s : str) :
  let t := normalize_bill_title U s in
  NFKC U t = t ->
  RE_PREFIX_NUM_match U t = None ->
  RE_PARENS_search t = false ->
  forallb (fun sp => negb (contains sp t)) STOP_PHRASES = true ->
  normalize_bill_title U (normalize_bill_title U s) = normalize_bill_title U s.
Proof.
  intros t Hn Hp Hg Hs. fold t.
  apply normalize_bill_title_fixed; try assumption.
  - apply normalize_bill_title_tidy.
  - apply normalize_bill_title_no_mark.
Qed.

Lemma C5_witness :
  let s := py "1. 교정공제회법 일부개정법률안(홍길동 의원 대표발의)" in
  let t := normalize_bill_title ucd_latin_hangul s in
  (NFKC ucd_latin_hangul t = t /\
   RE_PREFIX_NUM_match ucd_latin_hangul t = None /\
   RE_PARENS_search t = false /\
   forallb (fun sp => negb (contains sp t)) STOP_PHRASES = true) /\
  normalize_bill_title ucd_latin_hangul (normalize_bill_title ucd_latin_hangul s)
    = normalize_bill_title ucd_latin_hangul s.
Proof.
  intros s t.
  assert (H1 : NFKC ucd_latin_hangul t = t) by reflexivity.
  assert (H2 : RE_PREFIX_NUM_match ucd_latin_hangul t = None) by (vm_compute; reflexivity).
  assert (H3 : RE_PARENS_search t = false) by (vm_compute; reflexivity).
  assert (H4 : forallb (fun sp => negb (contains sp t)) STOP_PHRASES = true)
    by (vm_compute; reflexivity).
  split; [exact (conj H1 (conj H2 (conj H3 H4)))|].
  exact (@C5_normalize_idempotent_on_settled_titles ucd_latin_hangul s H1 H2 H3 H4).
Defined.

(** C5 as stated fails: removing the stop phrase at the head of this title
    uncovers an enumeration prefix, which only a second application removes. *)
Lemma C5_counterexample :
  let s := py "안건 1. 자연재해대책법 일부개정법률안" in
  normalize_bill_title ucd_latin_hangul s = py "1. 자연재해대책법" /\
  normalize_bill_title ucd_latin_hangul (normalize_bill_title ucd_latin_hangul s)
    = py "자연재해대책법" /\
  normalize_bill_title ucd_latin_hangul (normalize_bill_title ucd_latin_hangul s)
    <> normalize_bill_title ucd_latin_hangul s.
Proof.
  vm_compute.
  split; [reflexivity | split; [reflexivity |]].
  intro H. discriminate H.
Qed.

(** ** The pieces of a pattern match within a longer string *)

Lemma dropWhile_app_stop (f : char -> bool) (a b : str) :
  dropWhile f a <> [] -> dropWhile f (a ++ b) = dropWhile f a ++ b.
Proof.
  induction a as [|c a IH]; simpl; intro H; [contradiction|].
  destruct (f c); [now apply IH | reflexivity].
Qed.

Lemma dropWhile_app_all (f : char -> bool) (a b : str) :
  dropWhile f a = [] -> dropWhile f (a ++ b) = dropWhile f b.
Proof.
  induction a as [|c a IH]; simpl; intro H; [reflexivity|].
  destruct (f c); [now apply IH | discriminate].
Qed.

Lemma takeWhile_app_stop (f : char -> bool) (a b : str) :
  dropWhile f a <> [] -> takeWhile f (a ++ b) = takeWhile f a.
Proof.
  induction a as [|c a IH]; simpl; intro H; [contradiction|].
  destruct (f c); [f_equal; now apply IH | reflexivity].
Qed.

Section PrefixAndGroup.
Variable U : unicode_db.

(** When the pattern of the enumeration prefix matches the whole of [p],
    it matches [p] at the head of [p ++ rest], with the white space that
    [rest] starts with. *)
Lemma RE_PREFIX_NUM_match_app (p rest : str) :
  RE_PREFIX_NUM_match U p = Some [] ->
  RE_PREFIX_NUM_match U (p ++ rest) = Some (dropWhile is_space rest).
Proof.
  unfold RE_PREFIX_NUM_match. intro H.
  destruct (takeWhile (is_decimal U) (dropWhile is_space p)) as [|d ds] eqn:Ed;
    [discriminate|].
  destruct (dropWhile is_space (dropWhile (is_decimal U) (dropWhile is_space p)))
    as [|c s4] eqn:E3; [discriminate|].
  destruct ((c =? DOT) || (c =? RPAREN))%N eqn:Ec; [|discriminate].
  inversion H as [E4]. clear H.
  assert (N2 : dropWhile (is_decimal U) (dropWhile is_space p) <> []).
  { intro E. rewrite E in E3. discriminate. }
  assert (N1 : dropWhile is_space p <> []).
  { intro E. rewrite E in Ed. discriminate. }
  rewrite (dropWhile_app_stop _ _ rest N1).
  rewrite (takeWhile_app_stop _ _ rest N2), Ed.
  rewrite (dropWhile_app_stop _ _ rest N2).
  rewrite dropWhile_app_stop by (rewrite E3; discriminate).
  rewrite E3. simpl. rewrite Ec.
  now rewrite (dropWhile_app_all _ _ rest E4).
Qed.

End PrefixAndGroup.

(** A group that closes a string is dropped, whatever was pending. *)
Lemma RE_PARENS_go_group (x : str) :
  forallb (fun c => negb (is_paren c)) x = true ->
  forall buf : list char, RE_PARENS_go (Some buf) (x ++ [RPAREN]) = [].
Proof.
  induction x as [|c x IH]; intros H buf.
  - reflexivity.
  - simpl in H. apply andb_true_iff in H. destruct H as [Hc Hx].
    apply negb_true_iff in Hc. unfold is_paren in Hc.
    apply orb_false_iff in Hc. destruct Hc as [Hl Hr].
    simpl. rewrite Hl, Hr. now apply IH.
Qed.

Lemma RE_PARENS_go_trailing_group (u x : str) :
  forallb (fun c => negb (is_paren c)) x = true ->
  forall pending,
    RE_PARENS_go pending (u ++ LPAREN :: x ++ [RPAREN]) = RE_PARENS_go pending u.
Proof.
  intro Hx. induction u as [|c u IH]; intro pending.
  - destruct pending as [buf|]; simpl.
    + change ((LPAREN =? RPAREN)%N) with false. change ((LPAREN =? LPAREN)%N) with true.
      cbv iota. rewrite (RE_PARENS_go_group x Hx []). now rewrite app_nil_r.
    + change ((LPAREN =? LPAREN)%N) with true. cbv iota.
      exact (RE_PARENS_go_group x Hx []).
  - destruct pending as [buf|]; simpl.
    + destruct ((c =? RPAREN)%N); [apply IH|].
      destruct ((c =? LPAREN)%N); [now rewrite IH | apply IH].
    + destruct ((c =? LPAREN)%N); [apply IH | now rewrite IH].
Qed.

(** ** The registry *)

Section Registry.
Variable U : unicode_db.

Lemma split_raw_bills_field_tidy (b : option str) (r : str) :
  In r (split_raw_bills_field U b) -> tidy r = true /\ r <> [].
Proof.
  unfold split_raw_bills_field. destruct b as [[|c b]|]; try contradiction.
  intro H. apply in_map_iff in H. destruct H as [p [E Hp]].
  apply filter_In in Hp. destruct Hp as [_ Hp]. subst r.
  split; [apply clean_spaces_tidy|].
  destruct (clean_spaces p); [discriminate | discriminate].
Qed.

Lemma bill_variants_tidy (speeches : list speech) (r : str) :
  In r (bill_variants U speeches) -> tidy r = true /\ r <> [].
Proof.
  unfold bill_variants. intro H. apply in_flat_map in H.
  destruct H as [rec [_ H]]. now apply split_raw_bills_field_tidy in H.
Qed.

Lemma set_add_In (x y : str) (l : list str) :
  In y (set_add x l) <-> y = x \/ In y l.
Proof.
  unfold set_add. destruct (mem x l) eqn:E.
  - apply mem_In in E. split; [now right|]. intros [H|H]; [now subst | exact H].
  - rewrite in_app_iff. simpl. split.
    + intros [H|[H|[]]]; [now right | now left].
    + intros [H|H]; [right; now left | now left].
Qed.

Lemma dict_set_ok (cs : dict str (list str)) (k : str) (v : list str) :
  k <> [] -> cs_ok cs -> cs_ok (dict_set str_eqb cs k v).
Proof.
  intros Hk [Hn Hf]. unfold cs_ok. rewrite (dict_keys_set str_eqb).
  destruct (dict_mem str_eqb cs k) eqn:E; [now split|].
  split.
  - apply NoDup_app_remove_l with (l := []). simpl.
    apply Permutation_NoDup with (l := k :: dict_keys cs).
    + apply Permutation_cons_append.
    + constructor; [|exact Hn].
      intro Hin. apply (dict_mem_keys _ str_eqb_eq) in Hin. congruence.
  - apply Forall_app. split; [exact Hf | now constructor].
Qed.

Lemma canonical_set_add_ok (cs : dict str (list str)) (raw : str) :
  cs_ok cs -> cs_ok (canonical_set_add U cs raw).
Proof.
  intro H. unfold canonical_set_add.
  destruct (normalize_bill_title U raw) as [|c canon]; [exact H|].
  destruct (dict_get str_eqb cs (c :: canon)); apply dict_set_ok; auto; discriminate.
Qed.

Lemma canonical_set_add_keeps (cs : dict str (list str)) (raw' canon raw : str) (vs : list str) :
  dict_get str_eqb cs canon = Some vs -> In raw vs ->
  exists vs', dict_get str_eqb (canonical_set_add U cs raw') canon = Some vs' /\ In raw vs'.
Proof.
  intros G Hin. unfold canonical_set_add.
  destruct (normalize_bill_title U raw') as [|c canon'] eqn:En; [now exists vs|].
  destruct (str_eqb canon (c :: canon')) eqn:E.
  - apply str_eqb_eq in E. subst canon. rewrite G.
    exists (set_add raw' vs). split.
    + apply (dict_get_set_same _ str_eqb_eq).
    + apply set_add_In. now right.
  - apply str_eqb_neq in E.
    exists vs. split; [|exact Hin].
    destruct (dict_get str_eqb cs (c :: canon'));
      rewrite (dict_get_set_other _ str_eqb_eq); auto.
Qed.

Lemma canonical_set_add_adds (cs : dict str (list str)) (raw : str) :
  normalize_bill_title U raw <> [] ->
  exists vs, dict_get str_eqb (canonical_set_add U cs raw) (normalize_bill_title U raw)
             = Some vs /\ In raw vs.
Proof.
  intro Hne. unfold canonical_set_add.
  destruct (normalize_bill_title U raw) as [|c canon] eqn:En; [contradiction|].
  destruct (dict_get str_eqb cs (c :: canon)) as [vs|].
  - exists (set_add raw vs). split.
    + apply (dict_get_set_same _ str_eqb_eq).
    + apply set_add_In. now left.
  - exists (set_add raw []). split.
    + apply (dict_get_set_same _ str_eqb_eq).
    + apply set_add_In. now left.
Qed.

Lemma canonical_set_fold_keeps (variants : list str) :
  forall cs canon raw vs,
    dict_get str_eqb cs canon = Some vs -> In raw vs ->
    exists vs', dict_get str_eqb (fold_left (canonical_set_add U) variants cs) canon
                = Some vs' /\ In raw vs'.
Proof.
  induction variants as [|v variants IH]; intros cs canon raw vs G Hin; simpl.
  - now exists vs.
  - destruct (canonical_set_add_keeps cs v canon raw G Hin) as [vs' [G' Hin']].
    exact (IH _ _ _ _ G' Hin').
Qed.

(** Every raw variant with a canonical title that is not empty is held
    under that title. *)
Lemma canonical_set_holds (variants : list str) (raw : str) :
  In raw variants ->
  normalize_bill_title U raw <> [] ->
  exists vs, dict_get str_eqb (canonical_set U variants) (normalize_bill_title U raw)
             = Some vs /\ In raw vs.
Proof.
  unfold canonical_set. generalize (@nil (str * list str)).
  induction variants as [|v variants IH]; intros cs Hin Hne; [contradiction|].
  simpl. destruct Hin as [E|Hin].
  - subst v. destruct (canonical_set_add_adds cs raw Hne) as [vs [G Hv]].
    exact (canonical_set_fold_keeps variants _ _ _ G Hv).
  - now apply IH.
Qed.

Lemma canonical_set_ok (variants : list str) : cs_ok (canonical_set U variants).
Proof.
  unfold canonical_set.
  assert (H0 : cs_ok []) by (split; constructor).
  revert H0. generalize (@nil (str * list str)).
  induction variants as [|v variants IH]; intros cs H; simpl; [exact H|].
  apply IH. now apply canonical_set_add_ok.
Qed.

Lemma bill_map_keys (cs : dict str (list str)) :
  dict_keys (map (fun '(canon, vs) => (canon, entry_of U canon vs)) cs) = dict_keys cs.
Proof.
  unfold dict_keys. rewrite map_map. apply map_ext. now intros [k v].
Qed.

Lemma bill_map_get (cs : dict str (list str)) (k : str) (vs : list str) :
  dict_get str_eqb cs k = Some vs ->
  dict_get str_eqb (map (fun '(canon, vs) => (canon, entry_of U canon vs)) cs) k
    = Some (entry_of U k vs).
Proof.
  induction cs as [|[k' v'] cs IH]; simpl; [discriminate|].
  destruct (str_eqb k k') eqn:E.
  - apply str_eqb_eq in E. subst k'. intro H. inversion H. reflexivity.
  - exact IH.
Qed.

Lemma dict_get_unique (V : Type) (d : dict str V) (k : str) (v : V) :
  NoDup (dict_keys d) -> In (k, v) d -> dict_get str_eqb d k = Some v.
Proof.
  unfold dict_keys. induction d as [|[k' v'] d IH]; intros Hn Hin; [contradiction|].
  simpl in *. inversion Hn as [|? ? Hk Hn']. subst.
  destruct Hin as [E|Hin].
  - inversion E; subst. now rewrite str_eqb_refl.
  - destruct (str_eqb k k') eqn:E.
    + apply str_eqb_eq in E. subst k'. exfalso. apply Hk.
      apply in_map_iff. exists (k, v). auto.
    + now apply IH.
Qed.

(** The registry of a transcript: its keys are distinct and none is empty. *)
Lemma collect_registry_ok (speeches : list speech) :
  NoDup (dict_keys (snd (collect_bills_and_keywords U speeches))) /\
  registry_ok (snd (collect_bills_and_keywords U speeches)) = true.
Proof.
  unfold collect_bills_and_keywords. simpl snd.
  destruct (canonical_set_ok (bill_variants U speeches)) as [Hn Hf].
  unfold registry_ok. rewrite bill_map_keys. split; [exact Hn|].
  apply forallb_forall. intros k Hk. rewrite Forall_forall in Hf.
  apply negb_true_iff. apply str_eqb_neq. now apply Hf.
Qed.

End Registry.

Section NormalizePipeline.
Variable U : unicode_db.

(** The guard [if not raw] apart, the normalizer is the composition of its
    steps. *)
Lemma normalize_bill_title_steps (raw : str) :
  normalize_bill_title U raw =
  clean_spaces
    (remove_stop_phrases
       (clean_spaces
          (RE_DANGLING_MARKS_sub
             (RE_PARENS_sub
                (RE_PREFIX_NUM_sub U (replace [LF] [SP] (normalize_text U raw))))))).
Proof.
  destruct raw as [|c raw]; [|reflexivity].
  vm_compute. reflexivity.
Qed.

(** A tidy string in normal form for NFKC reaches the pattern of the
    enumeration prefix as it is. *)
Lemma normalize_bill_title_tidy_input (r : str) :
  tidy r = true -> NFKC U r = r ->
  normalize_bill_title U r =
  clean_spaces
    (remove_stop_phrases
       (clean_spaces (RE_DANGLING_MARKS_sub (RE_PARENS_sub (RE_PREFIX_NUM_sub U r))))).
Proof.
  intros Ht Hn. rewrite normalize_bill_title_steps.
  assert (E1 : normalize_text U r = r) by (destruct r; [reflexivity | exact Hn]).
  rewrite E1.
  now rewrite (replace_absent [LF] [SP] r (contains_char_absent _ _ (tidy_no_LF _ Ht))).
Qed.
End NormalizePipeline.

(** C6, as amended.  Let [r1] be a bare title [t] behind an enumeration
    prefix [p] and before a parenthesized remark [x] that holds no
    parenthesis, [t] having no enumeration prefix of its own, and let both
    [r1] and [t] be raw mentions of a transcript, in normal form for NFKC.
    Then both have the same canonical title, and if this title is not empty
    the registry of the transcript holds exactly one bill under it, whose raw
    variants include both [r1] and [t]. *)
Theorem C6_enumerated_and_bare_title_one_bill
        (U : unicode_db) (p t x : str) (speeches : list speech) :
  let r1 := p ++ t ++ LPAREN :: x ++ [RPAREN] in
  let canon := normalize_bill_title U t in
  let bm := snd (collect_bills_and_keywords U speeches) in
  RE_PREFIX_NUM_match U p = Some [] ->
  forallb (fun c => negb (is_paren c)) x = true ->
  RE_PREFIX_NUM_match U t = None ->
  NFKC U r1 = r1 ->
  NFKC U t = t ->
  In r1 (bill_variants U speeches) ->
  In t (bill_variants U speeches) ->
  normalize_bill_title U r1 = canon /\
  (canon <> [] ->
   exists e, (forall e', In (canon, e') bm <-> e' = e) /\
             In r1 (raw_variants e) /\ In t (raw_variants e)).
Proof.
  intros r1 canon bm Hp Hx Ht Hn1 Hn2 Hi1 Hi2.
  destruct (@bill_variants_tidy U speeches r1 Hi1) as [T1 _].
  destruct (@bill_variants_tidy U speeches t Hi2) as [T2 N2].
  assert (Eq : normalize_bill_title U r1 = canon).
  { unfold canon.
    rewrite (@normalize_bill_title_tidy_input U r1 T1 Hn1).
    rewrite (@normalize_bill_title_tidy_input U t T2 Hn2).
    do 4 f_equal.
    unfold RE_PREFIX_NUM_sub at 2. rewrite Ht.
    unfold RE_PREFIX_NUM_sub, r1. rewrite (@RE_PREFIX_NUM_match_app U p _ Hp).
    destruct t as [|c t']; [contradiction|].
    simpl dropWhile. rewrite (@tidy_first_not_space c t' T2).
    unfold RE_PARENS_sub.
    exact (@RE_PARENS_go_trailing_group (c :: t') x Hx None). }
  split; [exact Eq|].
  intro Hc.
  assert (Hc1 : normalize_bill_title U r1 <> []) by (rewrite Eq; exact Hc).
  destruct (@canonical_set_holds U (bill_variants U speeches) r1 Hi1 Hc1) as [vs1 [G1 V1]].
  destruct (@canonical_set_holds U (bill_variants U speeches) t Hi2 Hc) as [vs2 [G2 V2]].
  rewrite Eq in G1. fold canon in G2. rewrite G1 in G2. inversion G2; subst vs2.
  exists (entry_of U canon vs1).
  assert (Gb : dict_get str_eqb bm canon = Some (entry_of U canon vs1)).
  { unfold bm, collect_bills_and_keywords. simpl snd. now apply bill_map_get. }
  split; [|split; [exact V1 | exact V2]].
  intro e'. split.
  - intro Hin.
    pose proof (@dict_get_unique _ bm canon e' (proj1 (collect_registry_ok U speeches)) Hin) as G.
    rewrite Gb in G. now inversion G.
  - intro E. subst e'. exact (@dict_get_In _ _ str_eqb str_eqb_eq _ _ _ Gb).
Qed.

Lemma C6_witness :
  let p := py "1. " in
  let t := py "교정공제회법 일부개정법률안" in
  let x := py "홍길동 의원 대표발의" in
  let r1 := p ++ t ++ LPAREN :: x ++ [RPAREN] in
  let canon := normalize_bill_title ucd_latin_hangul t in
  let bm := snd (collect_bills_and_keywords ucd_latin_hangul two_mentions) in
  (r1 = py "1. 교정공제회법 일부개정법률안(홍길동 의원 대표발의)" /\
   canon = py "교정공제회법" /\
   RE_PREFIX_NUM_match ucd_latin_hangul p = Some [] /\
   forallb (fun c => negb (is_paren c)) x = true /\
   RE_PREFIX_NUM_match ucd_latin_hangul t = None /\
   NFKC ucd_latin_hangul r1 = r1 /\
   NFKC ucd_latin_hangul t = t /\
   In r1 (bill_variants ucd_latin_hangul two_mentions) /\
   In t (bill_variants ucd_latin_hangul two_mentions)) /\
  normalize_bill_title ucd_latin_hangul r1 = canon /\
  (canon <> [] ->
   exists e, (forall e', In (canon, e') bm <-> e' = e) /\
             In r1 (raw_variants e) /\ In t (raw_variants e)).
Proof.
  intros p t x r1 canon bm.
  assert (H0 : r1 = py "1. 교정공제회법 일부개정법률안(홍길동 의원 대표발의)")
    by (vm_compute; reflexivity).
  assert (H0' : canon = py "교정공제회법") by (vm_compute; reflexivity).
  assert (H1 : RE_PREFIX_NUM_match ucd_latin_hangul p = Some []) by (vm_compute; reflexivity).
  assert (H2 : forallb (fun c => negb (is_paren c)) x = true) by (vm_compute; reflexivity).
  assert (H3 : RE_PREFIX_NUM_match ucd_latin_hangul t = None) by (vm_compute; reflexivity).
  assert (H4 : NFKC ucd_latin_hangul r1 = r1) by reflexivity.
  assert (H5 : NFKC ucd_latin_hangul t = t) by reflexivity.
  assert (H6 : In r1 (bill_variants ucd_latin_hangul two_mentions))
    by (vm_compute; left; reflexivity).
  assert (H7 : In t (bill_variants ucd_latin_hangul two_mentions))
    by (vm_compute; right; left; reflexivity).
  split.
  - exact (conj H0 (conj H0' (conj H1 (conj H2 (conj H3 (conj H4 (conj H5 (conj H6 H7)))))))).
  - exact (@C6_enumerated_and_bare_title_one_bill
             ucd_latin_hangul p t x two_mentions H1 H2 H3 H4 H5 H6 H7).
Defined.

(** C6 as stated fails for a title that is a stop phrase: both mentions have
    the same canonical title, the empty one, and the registry holds no bill
    for them. *)
Lemma C6_counterexample :
  let r1 := py "1. 대안(위원장 제출)" in
  let r2 := py "대안" in
  let speeches := [ utterance "위원장" "1. 대안(위원장 제출)" ""; utterance "김위원" "대안" "" ] in
  bill_variants ucd_latin_hangul speeches = [r1; r2] /\
  normalize_bill_title ucd_latin_hangul r1 = [] /\
  normalize_bill_title ucd_latin_hangul r2 = [] /\
  snd (collect_bills_and_keywords ucd_latin_hangul speeches) = [].
Proof.
  vm_compute. repeat (split; [reflexivity|]). reflexivity.
Qed.

(** ** Keywords *)

Lemma dedup_In (l : list str) (v : str) : In v (dedup l) <-> In v l.
Proof.
  induction l as [|x r IH]; simpl; [tauto|].
  rewrite filter_In, IH. split.
  - intros [H|[H _]]; auto.
  - intros [H|H]; [now left|].
    destruct (str_eqb v x) eqn:E.
    + apply str_eqb_eq in E. left. now symmetry.
    + right. split; [exact H | reflexivity].
Qed.

Lemma dedup_NoDup (l : list str) : NoDup (dedup l).
Proof.
  induction l as [|x r IH]; simpl; constructor.
  - intro H. apply filter_In in H. destruct H as [_ H].
    now rewrite str_eqb_refl in H.
  - now apply NoDup_filter.
Qed.

Lemma filter_absent (f : str -> bool) (l : list str) :
  (forall y, In y l -> f y = true) -> filter f l = l.
Proof.
  induction l as [|x r IH]; intro H; simpl; [reflexivity|].
  rewrite (H x (or_introl eq_refl)). f_equal. apply IH. intros y Hy. apply H. now right.
Qed.

Lemma dedup_snoc (l : list str) (w : str) :
  dedup (l ++ [w]) = if mem w l then dedup l else dedup l ++ [w].
Proof.
  induction l as [|x r IH]; simpl; [reflexivity|].
  rewrite IH. unfold mem in *. simpl.
  destruct (str_eqb w x) eqn:E; simpl.
  - apply str_eqb_eq in E. subst x.
    destruct (existsb (str_eqb w) r); [reflexivity|].
    rewrite filter_app. simpl. rewrite str_eqb_refl. simpl. now rewrite app_nil_r.
  - destruct (existsb (str_eqb w) r); [reflexivity|].
    rewrite filter_app. simpl. rewrite E. reflexivity.
Qed.

Lemma occurrences_snoc (v w : str) (l : list str) :
  occurrences v (l ++ [w]) = (occurrences v l + (if str_eqb v w then 1 else 0))%nat.
Proof.
  unfold occurrences. rewrite filter_app, length_app. simpl.
  now destruct (str_eqb v w).
Qed.

Lemma occurrences_absent (v : str) (l : list str) :
  mem v l = false -> occurrences v l = 0%nat.
Proof.
  unfold occurrences, mem. induction l as [|x r IH]; simpl; [reflexivity|].
  destruct (str_eqb v x); simpl; [discriminate | exact IH].
Qed.

Section CounterFacts.
Variable f : str -> nat.

Lemma dict_get_tabulated (keys : list str) (w : str) :
  dict_get str_eqb (map (fun v => (v, f v)) keys) w =
  if mem w keys then Some (f w) else None.
Proof.
  unfold mem. induction keys as [|k keys IH]; simpl; [reflexivity|].
  destruct (str_eqb w k) eqn:E; simpl; [|exact IH].
  apply str_eqb_eq in E. now subst.
Qed.

Lemma dict_set_tabulated_in (keys : list str) (w : str) (x : nat) :
  NoDup keys -> mem w keys = true ->
  dict_set str_eqb (map (fun v => (v, f v)) keys) w x =
  map (fun v => (v, if str_eqb w v then x else f v)) keys.
Proof.
  unfold mem. induction keys as [|k keys IH]; intros Hn Hm; simpl in *; [discriminate|].
  inversion Hn as [|? ? Hk Hn']. subst.
  destruct (str_eqb w k) eqn:E; simpl.
  - apply str_eqb_eq in E. subst k. f_equal.
    apply map_ext_in. intros v Hv.
    destruct (str_eqb w v) eqn:E'; [|reflexivity].
    apply str_eqb_eq in E'. subst v. contradiction.
  - f_equal. now apply IH.
Qed.

Lemma dict_set_tabulated_new (keys : list str) (w : str) (x : nat) :
  mem w keys = false ->
  dict_set str_eqb (map (fun v => (v, f v)) keys) w x =
  map (fun v => (v, f v)) keys ++ [(w, x)].
Proof.
  unfold mem. induction keys as [|k keys IH]; intro Hm; simpl in *; [reflexivity|].
  destruct (str_eqb w k); simpl in *; [discriminate|].
  f_equal. now apply IH.
Qed.
End CounterFacts.

Lemma count_step_tabulated (done : list str) (w : str) :
  count_step (map (fun v => (v, occurrences v done)) (dedup done)) w =
  map (fun v => (v, occurrences v (done ++ [w]))) (dedup (done ++ [w])).
Proof.
  unfold count_step. rewrite dict_get_tabulated, dedup_snoc.
  assert (Em : mem w (dedup done) = mem w done).
  { destruct (mem w done) eqn:E.
    - apply mem_In. apply dedup_In. now apply mem_In.
    - destruct (mem w (dedup done)) eqn:E'; [|reflexivity].
      apply (proj1 (mem_In _ _)) in E'. apply (proj1 (dedup_In _ _)) in E'.
      apply (proj2 (mem_In _ _)) in E'. congruence. }
  rewrite Em. destruct (mem w done) eqn:E.
  - rewrite dict_set_tabulated_in; [|apply dedup_NoDup | exact Em].
    apply map_ext. intro v. rewrite occurrences_snoc.
    rewrite (Bool.eq_true_iff_eq (str_eqb w v) (str_eqb v w)) by
      (rewrite !str_eqb_eq; split; intro; now symmetry).
    destruct (str_eqb v w) eqn:E'.
    + apply str_eqb_eq in E'. subst v. f_equal. lia.
    + f_equal. lia.
  - rewrite dict_set_tabulated_new by exact Em.
    rewrite map_app. simpl. f_equal.
    + apply map_ext_in. intros v Hv. rewrite occurrences_snoc.
      destruct (str_eqb v w) eqn:E'; [|f_equal; lia].
      apply str_eqb_eq in E'. subst v. apply (proj1 (dedup_In _ _)) in Hv.
      apply (proj2 (mem_In _ _)) in Hv. congruence.
    + rewrite occurrences_snoc, str_eqb_refl, (occurrences_absent _ _ E). reflexivity.
Qed.

(** [Counter(kept)] holds each distinct token once, in order of first
    occurrence, with the number of its occurrences. *)
Lemma Counter_tabulated (kept : list str) :
  Counter kept = map (fun v => (v, occurrences v kept)) (dedup kept).
Proof.
  unfold Counter. fold count_step.
  assert (G : forall rest done,
             fold_left count_step rest
                       (map (fun v => (v, occurrences v done)) (dedup done)) =
             map (fun v => (v, occurrences v (done ++ rest))) (dedup (done ++ rest))).
  { induction rest as [|w rest IH]; intro done; simpl.
    - now rewrite app_nil_r.
    - rewrite count_step_tabulated, IH. now rewrite <- app_assoc. }
  exact (G kept []).
Qed.

(** *** The stable sort *)

Section Ranking.
Variable kept : list str.

Lemma insert_desc_In (x z : str * nat) (l : list (str * nat)) :
  In z (insert_desc x l) <-> z = x \/ In z l.
Proof.
  induction l as [|y l IH]; simpl.
  - split; intros [H|H]; auto; contradiction.
  - destruct (Nat.ltb (snd x) (snd y)); simpl.
    + rewrite IH. tauto.
    + split; intros [H|H]; auto.
Qed.

Lemma insert_desc_perm (x : str * nat) (l : list (str * nat)) :
  Permutation (insert_desc x l) (x :: l).
Proof.
  induction l as [|y l IH]; simpl; [reflexivity|].
  destruct (Nat.ltb (snd x) (snd y)); [|reflexivity].
  rewrite IH. apply perm_swap.
Qed.

Lemma sorted_desc_perm (l : list (str * nat)) : Permutation (sorted_desc l) l.
Proof.
  induction l as [|x l IH]; simpl; [reflexivity|].
  rewrite insert_desc_perm. now constructor.
Qed.

Lemma item_before_count (a b : str * nat) :
  item_before kept a b -> (snd b <= snd a)%nat.
Proof. unfold item_before. lia. Qed.

(** An item that comes before every item of a sorted list in the order of
    first occurrence is put behind the items of a greater count only. *)
Lemma insert_desc_sorted (x : str * nat) (s : list (str * nat)) :
  StronglySorted (item_before kept) s ->
  Forall (item_earlier kept x) s ->
  StronglySorted (item_before kept) (insert_desc x s).
Proof.
  intros Hs Hx. induction Hs as [|y s Hs IH Hy]; simpl.
  - repeat constructor.
  - inversion Hx as [|? ? Hxy Hxs]. subst.
    destruct (Nat.ltb (snd x) (snd y)) eqn:E.
    + apply Nat.ltb_lt in E. constructor; [now apply IH|].
      apply Forall_forall. intros z Hz. apply insert_desc_In in Hz.
      destruct Hz as [Hz|Hz].
      * subst z. left. exact E.
      * rewrite Forall_forall in Hy. now apply Hy.
    + apply Nat.ltb_ge in E. constructor; [now constructor|].
      constructor.
      * unfold item_before, item_earlier in *. lia.
      * apply Forall_forall. intros z Hz.
        rewrite Forall_forall in Hy, Hxs.
        pose proof (item_before_count (Hy z Hz)) as Hc.
        pose proof (Hxs z Hz) as He.
        unfold item_before, item_earlier in *. lia.
Qed.

Lemma sorted_desc_sorted (l : list (str * nat)) :
  StronglySorted (item_earlier kept) l -> StronglySorted (item_before kept) (sorted_desc l).
Proof.
  intro H. induction H as [|x l Hl IH Hx]; simpl; [constructor|].
  apply insert_desc_sorted; [exact IH|].
  apply Forall_forall. intros z Hz.
  rewrite Forall_forall in Hx. apply Hx.
  now apply (Permutation_in _ (sorted_desc_perm l)).
Qed.

Lemma first_index_head (x : str) (r : list str) : first_index x (x :: r) = 0%nat.
Proof. simpl. now rewrite str_eqb_refl. Qed.

Lemma StronglySorted_filter (A : Type) (R : A -> A -> Prop) (f : A -> bool) (l : list A) :
  StronglySorted R l -> StronglySorted R (filter f l).
Proof.
  intro H. induction H as [|x l Hl IH Hx]; simpl; [constructor|].
  destruct (f x); [|exact IH].
  constructor; [exact IH|].
  apply Forall_forall. intros z Hz. apply filter_In in Hz.
  rewrite Forall_forall in Hx. now apply Hx.
Qed.

Lemma StronglySorted_weaken (A : Type) (R R' : A -> A -> Prop) (P : A -> Prop) (l : list A) :
  (forall a b, P a -> P b -> R a b -> R' a b) ->
  Forall P l -> StronglySorted R l -> StronglySorted R' l.
Proof.
  intros HR HP H. induction H as [|x l Hl IH Hx]; [constructor|].
  inversion HP as [|? ? Px Pl]. subst.
  constructor; [now apply IH|].
  rewrite Forall_forall in *. intros z Hz. apply HR; auto.
Qed.

End Ranking.

(** The distinct tokens come in the order of their first occurrences. *)
Lemma dedup_sorted (l : list str) :
  StronglySorted (fun a b => (first_index a l < first_index b l)%nat) (dedup l).
Proof.
  induction l as [|x r IH]; simpl; [constructor|].
  constructor.
  - apply StronglySorted_weaken
      with (R := fun a b => (first_index a r < first_index b r)%nat)
           (P := fun y => str_eqb y x = false).
    + intros a b Ha Hb H. simpl. rewrite Ha, Hb. lia.
    + apply Forall_forall. intros y Hy. apply filter_In in Hy.
      destruct Hy as [_ Hy]. now apply negb_true_iff in Hy.
    + now apply StronglySorted_filter.
  - apply Forall_forall. intros y Hy. apply filter_In in Hy.
    destruct Hy as [_ Hy]. apply negb_true_iff in Hy.
    rewrite str_eqb_refl. rewrite Hy. lia.
Qed.

(** *** Maximal runs *)

Lemma runs_of_skip (p : char -> bool) (c : char) (s : str) (toks : list str) :
  p c = false -> runs_of p s toks -> runs_of p (c :: s) toks.
Proof.
  intros Hc H. destruct H as [s Hs | sep tok rest toks Hsep Hne Htok Hrest Hr].
  - constructor. now constructor.
  - change (c :: sep ++ tok ++ rest) with ((c :: sep) ++ tok ++ rest).
    constructor; auto.
Qed.

Lemma findall_runs_pending (p : char -> bool) (s : str) :
  forall acc,
    findall_runs p acc s =
    match acc with
    | [] => findall_runs p [] s
    | _ => (rev acc ++ takeWhile p s) :: findall_runs p [] (dropWhile p s)
    end.
Proof.
  induction s as [|c r IH]; intro acc.
  - destruct acc; [reflexivity|]. simpl. now rewrite app_nil_r.
  - destruct acc as [|a acc]; [reflexivity|].
    simpl. destruct (p c) eqn:E.
    + rewrite IH. simpl. now rewrite <- app_assoc.
    + rewrite app_nil_r. simpl. now rewrite E.
Qed.

Lemma takeWhile_dropWhile (p : char -> bool) (s : str) :
  takeWhile p s ++ dropWhile p s = s.
Proof.
  induction s as [|c r IH]; simpl; [reflexivity|].
  destruct (p c); simpl; [now rewrite IH | reflexivity].
Qed.

Lemma takeWhile_all (p : char -> bool) (s : str) :
  Forall (fun c => p c = true) (takeWhile p s).
Proof.
  induction s as [|c r IH]; simpl; [constructor|].
  destruct (p c) eqn:E; [now constructor | constructor].
Qed.

Lemma dropWhile_head (p : char -> bool) (s : str) :
  match dropWhile p s with [] => True | c :: _ => p c = false end.
Proof.
  induction s as [|c r IH]; simpl; [exact I|].
  destruct (p c) eqn:E; [exact IH | exact E].
Qed.

Lemma dropWhile_length (p : char -> bool) (s : str) :
  (List.length (dropWhile p s) <= List.length s)%nat.
Proof.
  induction s as [|c r IH]; simpl; [lia|].
  destruct (p c); simpl; lia.
Qed.

Lemma findall_runs_spec (p : char -> bool) (s : str) :
  runs_of p s (findall_runs p [] s).
Proof.
  assert (G : forall n s, (List.length s <= n)%nat -> runs_of p s (findall_runs p [] s)).
  { induction n as [|n IH]; intros s0 Hn.
    - destruct s0; [|simpl in Hn; lia]. constructor. constructor.
    - destruct s0 as [|c r]; [constructor; constructor|].
      simpl in Hn. simpl. destruct (p c) eqn:E.
      + rewrite findall_runs_pending. simpl.
        rewrite <- (takeWhile_dropWhile p r) at 1.
        change (c :: takeWhile p r ++ dropWhile p r)
          with ([] ++ (c :: takeWhile p r) ++ dropWhile p r).
        constructor.
        * constructor.
        * discriminate.
        * constructor; [exact E | apply takeWhile_all].
        * apply dropWhile_head.
        * apply IH. pose proof (dropWhile_length p r). lia.
      + apply runs_of_skip; [exact E|]. apply IH. lia. }
  exact (G (List.length s) s (le_n _)).
Qed.

(** ** The claim on the keyword extractor *)

Lemma keep_token_spec (tok : str) :
  keep_token tok = true <->
  (2 <= List.length tok)%nat /\ ~ In tok BILL_STOP_TOKENS.
Proof.
  unfold keep_token. rewrite andb_true_iff, !negb_true_iff, Nat.leb_gt.
  split.
  - intros [H1 H2]. split; [lia|]. intro Hin. apply mem_In in Hin. congruence.
  - intros [H1 H2]. split; [lia|].
    destruct (mem tok BILL_STOP_TOKENS) eqn:E; [|reflexivity].
    apply mem_In in E. contradiction.
Qed.

Lemma tabulated_earlier (kept keys : list str) (f : str -> nat) :
  StronglySorted (fun a b => (first_index a kept < first_index b kept)%nat) keys ->
  StronglySorted (item_earlier kept) (map (fun v => (v, f v)) keys).
Proof.
  intro Hd. induction Hd as [|x l Hl IH Hx]; simpl; constructor; [exact IH|].
  apply Forall_forall. intros z Hz. apply in_map_iff in Hz.
  destruct Hz as [v [Ez Hv]]. subst z.
  rewrite Forall_forall in Hx. exact (Hx v Hv).
Qed.

Lemma ranking_of_items (kept : list str) (l : list (str * nat)) :
  StronglySorted (item_before kept) l ->
  Forall (fun it => snd it = occurrences (fst it) kept) l ->
  StronglySorted (ranks_before kept) (map fst l).
Proof.
  intros Hs Hc. induction Hs as [|x l Hl IH Hx]; simpl; constructor.
  - apply IH. now inversion Hc.
  - inversion Hc as [|? ? Cx Cl]. subst.
    apply Forall_forall. intros w Hw. apply in_map_iff in Hw.
    destruct Hw as [it [Ew Hit]]. subst w.
    rewrite Forall_forall in Hx, Cl.
    pose proof (Hx it Hit) as Hb. pose proof (Cl it Hit) as Ci.
    unfold item_before in Hb. unfold ranks_before.
    rewrite <- Cx, <- Ci. exact Hb.
Qed.

(** C10, as amended.  The tokens are the maximal runs of Hangul syllables,
    ASCII letters and ASCII digits of the title in normal form for NFKC; a
    token is kept when it has two characters or more and is no stop token;
    the result is made of the first [topk] tokens of the ranking of the
    distinct kept tokens by descending frequency, a tie going to the token
    that occurs first. *)
Theorem C10_keywords_ranked (U : unicode_db) (title : str) (topk : Z) :
  let tokens := tokens_of U title in
  let kept := filter keep_token tokens in
  runs_of is_token_char (normalize_text U title) tokens /\
  (forall tok, In tok kept <->
               In tok tokens /\ (2 <= List.length tok)%nat /\ ~ In tok BILL_STOP_TOKENS) /\
  exists ranking,
    NoDup ranking /\
    (forall w, In w ranking <-> In w kept) /\
    StronglySorted (ranks_before kept) ranking /\
    extract_keywords_from_bill U title topk = firstn (Z.to_nat topk) ranking.
Proof.
  intros tokens kept. split; [apply findall_runs_spec|]. split.
  - intro tok. unfold kept. rewrite filter_In, keep_token_spec. reflexivity.
  - exists (map fst (sorted_desc (Counter kept))).
    assert (Hp : Permutation (map fst (sorted_desc (Counter kept))) (dedup kept)).
    { rewrite (Permutation_map fst (sorted_desc_perm (Counter kept))).
      rewrite Counter_tabulated, map_map. simpl. now rewrite map_id. }
    split; [|split; [|split]].
    + apply (Permutation_NoDup (Permutation_sym Hp)). apply dedup_NoDup.
    + intro w. split; intro H.
      * apply (proj1 (dedup_In kept w)). now apply (Permutation_in _ Hp).
      * apply (Permutation_in _ (Permutation_sym Hp)).
        now apply (proj2 (dedup_In kept w)).
    + apply ranking_of_items.
      * apply sorted_desc_sorted. rewrite Counter_tabulated.
        apply tabulated_earlier. apply dedup_sorted.
      * apply Forall_forall. intros it Hit.
        apply (Permutation_in _ (sorted_desc_perm (Counter kept))) in Hit.
        rewrite Counter_tabulated in Hit. apply in_map_iff in Hit.
        destruct Hit as [v [Ev _]]. now subst it.
    + unfold extract_keywords_from_bill, most_common. fold tokens. fold kept.
      now rewrite firstn_map.
Qed.

(** C10 as stated fails on a title in Greek letters: the code finds no token
    in it, where the extractor of the specification returns its two words. *)
Lemma C10_counterexample :
  let title := py "αβγ δεζ αβγ" in
  extract_keywords_from_bill ucd_latin_hangul title 6 = [] /\
  spec_extract_keywords title 6 = [py "αβγ"; py "δεζ"] /\
  extract_keywords_from_bill ucd_latin_hangul title 6 <> spec_extract_keywords title 6.
Proof.
  vm_compute.
  split; [reflexivity | split; [reflexivity |]].
  intro H. discriminate H.
Qed.

(* ================================================================== *)
(** * Further properties of the two programs *)

(** ** What [clean_spaces] keeps *)

Lemma sub_runs_ink (s : str) (b : bool) :
  filter is_ink (sub_runs is_space [SP] b s) = filter is_ink s.
Proof.
  revert b. induction s as [|c r IH]; intro b; [reflexivity|].
  cbn [sub_runs]. unfold is_ink at 2. cbn [filter].
  destruct (is_space c) eqn:E; cbn [negb].
  - destruct b; [apply IH|]. change ([SP] ++ ?x) with (SP :: x).
    cbn [filter]. unfold is_ink at 1. rewrite is_space_SP. cbn [negb]. apply IH.
  - cbn [filter]. unfold is_ink at 1. rewrite E. cbn [negb]. f_equal. apply IH.
Qed.

Lemma dropWhile_ink (s : str) :
  filter is_ink (dropWhile is_space s) = filter is_ink s.
Proof.
  induction s as [|c r IH]; [reflexivity|].
  cbn [dropWhile]. destruct (is_space c) eqn:E; [|reflexivity].
  cbn [filter]. unfold is_ink at 2. rewrite E. exact IH.
Qed.

Lemma rstrip_ink (s : str) : filter is_ink (rstrip s) = filter is_ink s.
Proof.
  induction s as [|c r IH]; [reflexivity|].
  cbn [rstrip]. destruct (rstrip r) as [|c' r'] eqn:Er.
  - cbn [filter] in *. rewrite <- IH.
    unfold is_ink. destruct (is_space c) eqn:E; cbn [negb filter]; [reflexivity|].
    unfold is_ink. now rewrite E.
  - cbn [filter]. rewrite <- IH. reflexivity.
Qed.

Lemma clean_spaces_ink (s : str) :
  filter is_ink (clean_spaces s) = filter is_ink s.
Proof.
  unfold clean_spaces, strip, lstrip.
  now rewrite rstrip_ink, dropWhile_ink, sub_runs_ink.
Qed.

(** X1.  [clean_spaces] brings a string to its normal form in one pass, and only
    touches white space: what it returns has single spaces between the
    other characters and none at either end, a second pass changes nothing,
    and the characters that are not white space are those of the input, in
    order. *)
Theorem clean_spaces_idempotent (s : str) :
  tidy (clean_spaces s) = true /\
  clean_spaces (clean_spaces s) = clean_spaces s /\
  filter is_ink (clean_spaces s) = filter is_ink s.
Proof.
  split; [apply clean_spaces_tidy|]. split.
  - apply clean_spaces_fixed, clean_spaces_tidy.
  - apply clean_spaces_ink.
Qed.

(** ** The pieces of a [bills] field *)

(** A character does not occur in a given string. *)
Ltac absent_char :=
  vm_compute; let H := fresh in
  intro H; repeat (destruct H as [H|H]; [discriminate H|]); exact H.

Lemma split_runs_pieces (p : char -> bool) (s : str) :
  forall acc b piece,
    Forall (fun c => p c = false) acc ->
    In piece (split_runs p acc b s) -> Forall (fun c => p c = false) piece.
Proof.
  induction s as [|c r IH]; intros acc b piece Hacc H.
  - destruct H as [H|[]]. subst piece. apply Forall_rev. exact Hacc.
  - cbn [split_runs] in H. destruct (p c) eqn:E.
    + destruct b.
      * eapply IH; [constructor | exact H].
      * destruct H as [H|H].
        -- subst piece. apply Forall_rev. exact Hacc.
        -- eapply IH; [constructor | exact H].
    + eapply IH; [|exact H]. constructor; assumption.
Qed.

Lemma split_runs_piece (p : char -> bool) (x : str) :
  Forall (fun c => p c = false) x ->
  forall acc b s,
    x <> [] ->
    split_runs p acc b (x ++ s) = split_runs p (rev x ++ acc) false s.
Proof.
  induction 1 as [|c x Hc Hx IH]; intros acc b s Hne; [contradiction|].
  cbn [app split_runs]. rewrite Hc.
  destruct x as [|d x'].
  - reflexivity.
  - rewrite IH by discriminate. cbn [rev]. now rewrite <- !app_assoc.
Qed.

Lemma split_runs_in_sep (p : char -> bool) (sep : str) :
  Forall (fun c => p c = true) sep ->
  forall acc s, split_runs p acc true (sep ++ s) = split_runs p [] true s
                \/ sep = [].
Proof.
  induction 1 as [|c sep Hc Hs IH]; intros acc s; [now right|]. left.
  cbn [app split_runs]. rewrite Hc.
  destruct (IH [] s) as [E|E]; [exact E | now subst sep].
Qed.

Lemma split_runs_sep (p : char -> bool) (sep : str) (acc s : str) :
  Forall (fun c => p c = true) sep -> sep <> [] ->
  split_runs p acc false (sep ++ s) = rev acc :: split_runs p [] true s.
Proof.
  intros H Hne. destruct H as [|c sep Hc Hs]; [contradiction|].
  cbn [app split_runs]. rewrite Hc. f_equal.
  destruct (@split_runs_in_sep p sep Hs [] s) as [E|E]; [exact E | now subst sep].
Qed.

Lemma split_runs_last (p : char -> bool) (x : str) :
  Forall (fun c => p c = false) x ->
  forall acc b, split_runs p acc b x = [rev acc ++ x].
Proof.
  induction 1 as [|c x Hc Hx IH]; intros acc b.
  - cbn. now rewrite app_nil_r.
  - cbn [split_runs]. rewrite Hc, IH. cbn [rev]. now rewrite <- app_assoc.
Qed.

Lemma piece_ok_no_sep (p : str) :
  piece_ok p -> Forall (fun c => is_field_separator c = false) p.
Proof.
  intros [Ht Hs]. apply Forall_forall. intros c Hc.
  unfold is_field_separator. apply orb_false_iff. split; apply N.eqb_neq; intro E; subst c.
  - exact (tidy_no_LF _ Ht Hc).
  - exact (Hs Hc).
Qed.

Lemma split_runs_items (items : list (str * str)) (last : str) :
  Forall (fun it => fst it <> [] /\ piece_ok (fst it) /\
                    snd it <> [] /\ Forall (fun c => is_field_separator c = true) (snd it))
         items ->
  piece_ok last ->
  forall b, split_runs is_field_separator [] b (field_of items last)
            = map fst items ++ [last].
Proof.
  intros H Hl. unfold field_of.
  induction H as [|[p sep] items [Hne [Hp [Hsne Hsep]]] Hr IH]; intro b.
  - cbn. rewrite split_runs_last by now apply piece_ok_no_sep. reflexivity.
  - cbn [flat_map fst snd map app] in *. rewrite <- !app_assoc.
    rewrite split_runs_piece by (try apply piece_ok_no_sep; assumption).
    rewrite split_runs_sep by assumption.
    rewrite app_nil_r, rev_involutive. f_equal. apply IH.
Qed.

Section FieldPieces.
Variable U : unicode_db.

Lemma split_raw_bills_field_no_sep (b : option str) (r : str) :
  In r (split_raw_bills_field U b) -> ~ In LF r /\ ~ In SEMICOLON r.
Proof.
  intro H. split.
  - apply tidy_no_LF. now apply (split_raw_bills_field_tidy U b).
  - revert H. unfold split_raw_bills_field. destruct b as [[|c b]|]; try contradiction.
    intro H. apply in_map_iff in H. destruct H as [p [E Hp]].
    apply filter_In in Hp. destruct Hp as [Hp _]. subst r.
    apply split_runs_pieces in Hp; [|constructor].
    assert (F : Forall (fun c => c <> SEMICOLON) (clean_spaces p)).
    { apply clean_spaces_Forall; [discriminate|].
      eapply Forall_impl; [|exact Hp]. intros a Ha E. subst a. discriminate Ha. }
    rewrite Forall_forall in F. intro Hin. exact (F _ Hin eq_refl).
Qed.

End FieldPieces.

(** X2.  Every piece that [split_raw_bills_field] returns is a title to work on:
    it is not empty, its white space is collapsed and trimmed, and it holds
    neither a line feed nor a semicolon. *)
Theorem split_raw_bills_field_pieces (U : unicode_db) (b : option str) (r : str) :
  In r (split_raw_bills_field U b) ->
  r <> [] /\ tidy r = true /\ ~ In LF r /\ ~ In SEMICOLON r.
Proof.
  intro H. destruct (split_raw_bills_field_tidy U b r H) as [Ht Hne].
  destruct (split_raw_bills_field_no_sep U b r H) as [H1 H2].
  exact (conj Hne (conj Ht (conj H1 H2))).
Qed.

Lemma split_raw_bills_field_pieces_witness :
  let b := Some (py "1. 자연재해대책법 일부개정법률안 ;; 2. 경찰공무원법   일부개정법률안") in
  let r := py "2. 경찰공무원법 일부개정법률안" in
  In r (split_raw_bills_field ucd_latin_hangul b) /\
  r <> [] /\ tidy r = true /\ ~ In LF r /\ ~ In SEMICOLON r.
Proof.
  intros b r.
  assert (H : In r (split_raw_bills_field ucd_latin_hangul b)).
  { vm_compute. right. left. reflexivity. }
  exact (conj H (split_raw_bills_field_pieces ucd_latin_hangul b r H)).
Defined.

(** X3.  A field made of clean pieces, each followed by line feeds or semicolons,
    is split into exactly these pieces, in order; separators at the end add
    nothing. *)
Theorem split_raw_bills_field_of_pieces
        (U : unicode_db) (items : list (str * str)) (last : str) :
  Forall (fun it => fst it <> [] /\ piece_ok (fst it) /\
                    snd it <> [] /\ Forall (fun c => is_field_separator c = true) (snd it))
         items ->
  piece_ok last ->
  NFKC U (field_of items last) = field_of items last ->
  split_raw_bills_field U (Some (field_of items last))
    = map fst items ++ match last with [] => [] | _ => [last] end.
Proof.
  intros H Hl HN. unfold split_raw_bills_field.
  destruct (field_of items last) as [|c f] eqn:Ef.
  - destruct items as [|[p sep] items].
    + unfold field_of in Ef. cbn in Ef. now subst last.
    + exfalso. inversion H as [|? ? [Hne _] _]; subst.
      unfold field_of in Ef. cbn in Ef. destruct p; [now apply Hne | discriminate].
  - unfold normalize_text. rewrite HN, <- Ef.
    rewrite (split_runs_items H Hl).
    rewrite filter_app, map_app.
    assert (K : forall l : list str,
               Forall (fun p => p <> [] /\ piece_ok p) l ->
               map clean_spaces
                   (filter (fun p => match clean_spaces p with [] => false | _ => true end) l)
               = l).
    { induction 1 as [|p l [Hne [Ht _]] Hl' IH]; [reflexivity|].
      cbn [filter]. rewrite (clean_spaces_fixed _ Ht).
      destruct p; [contradiction|]. cbn [map].
      rewrite (clean_spaces_fixed _ Ht). now rewrite IH. }
    rewrite K.
    + f_equal. destruct last as [|d last']; [reflexivity|].
      cbn [filter]. destruct Hl as [Ht _]. rewrite (clean_spaces_fixed _ Ht).
      cbn [map]. now rewrite (clean_spaces_fixed _ Ht).
    + apply Forall_map. eapply Forall_impl; [|exact H].
      intros it [Hne [Hp _]]. now split.
Qed.

Lemma split_raw_bills_field_of_pieces_witness :
  let items := [ (py "1. 자연재해대책법 일부개정법률안(정부 제출)", [LF]);
                 (py "2. 경찰공무원법 일부개정법률안", [SEMICOLON; LF]) ] in
  let last := py "3. 도로교통법 일부개정법률안" in
  split_raw_bills_field ucd_latin_hangul (Some (field_of items last))
    = map fst items ++ [last].
Proof.
  intros items last.
  apply (@split_raw_bills_field_of_pieces ucd_latin_hangul items last).
  - repeat constructor; try discriminate; absent_char.
  - split; [reflexivity | absent_char].
  - reflexivity.
Defined.

(** ** What the normalizer never does *)

Section Kept.
Variable P : char -> Prop.

Lemma replace_go_Forall_new (old new : str) (k : nat) (s : str) :
  Forall P new -> Forall P s -> Forall P (replace_go old new k s).
Proof.
  intros Hn H. revert k. induction H as [|c r Hc Hr IH]; intro k; simpl; [constructor|].
  destruct k as [|k]; [|apply IH].
  destruct (startswith old (c :: r)).
  - apply Forall_app. split; [exact Hn | apply IH].
  - constructor; [exact Hc | apply IH].
Qed.

Lemma RE_PARENS_go_Forall (s : str) :
  Forall P s ->
  forall pending,
    match pending with Some buf => P LPAREN /\ Forall P buf | None => True end ->
    Forall P (RE_PARENS_go pending s).
Proof.
  induction 1 as [|c r Hc Hr IH]; intros pending Hp.
  - destruct pending as [buf|]; [|constructor]. destruct Hp as [Hl Hb].
    cbn. constructor; [exact Hl | now apply Forall_rev].
  - cbn [RE_PARENS_go]. destruct pending as [buf|].
    + destruct Hp as [Hl Hb]. destruct ((c =? RPAREN)%N); [now apply IH|].
      destruct ((c =? LPAREN)%N).
      * constructor; [exact Hl|]. apply Forall_app. split; [now apply Forall_rev|].
        apply IH. split; [exact Hl | constructor].
      * apply IH. split; [exact Hl | now constructor].
    + destruct ((c =? LPAREN)%N) eqn:E.
      * apply N.eqb_eq in E. subst c. apply IH. split; [exact Hc | constructor].
      * constructor; [exact Hc | now apply IH].
Qed.

Lemma RE_PREFIX_NUM_sub_Forall (U : unicode_db) (s : str) :
  Forall P s -> Forall P (RE_PREFIX_NUM_sub U s).
Proof.
  intro H. unfold RE_PREFIX_NUM_sub, RE_PREFIX_NUM_match.
  destruct (takeWhile (is_decimal U) (dropWhile is_space s)) as [|d ds]; [exact H|].
  assert (H4 : Forall P (dropWhile is_space
                           (dropWhile (is_decimal U) (dropWhile is_space s)))).
  { now repeat apply dropWhile_Forall. }
  destruct (dropWhile is_space (dropWhile (is_decimal U) (dropWhile is_space s)))
    as [|c s4]; [exact H|].
  destruct ((c =? DOT) || (c =? RPAREN))%N; [|exact H].
  apply dropWhile_Forall. now inversion H4.
Qed.

End Kept.

Lemma sub_runs_length (p : char -> bool) (b : bool) (s : str) :
  (List.length (sub_runs p [SP] b s) <= List.length s)%nat.
Proof.
  revert b. induction s as [|c r IH]; intro b; simpl; [lia|].
  destruct (p c).
  - destruct b; [specialize (IH true); lia|]. simpl. specialize (IH true). lia.
  - simpl. specialize (IH false). lia.
Qed.

Lemma rstrip_length (s : str) : (List.length (rstrip s) <= List.length s)%nat.
Proof.
  induction s as [|c r IH]; simpl; [lia|].
  destruct (rstrip r); [destruct (is_space c)|]; simpl in *; lia.
Qed.

Lemma clean_spaces_length (s : str) :
  (List.length (clean_spaces s) <= List.length s)%nat.
Proof.
  unfold clean_spaces, strip, lstrip.
  pose proof (rstrip_length (dropWhile is_space (sub_runs is_space [SP] false s))).
  pose proof (dropWhile_length is_space (sub_runs is_space [SP] false s)).
  pose proof (sub_runs_length is_space false s). lia.
Qed.

Lemma replace_go_length (old new : str) (k : nat) (s : str) :
  (List.length new <= List.length old)%nat ->
  (List.length (replace_go old new k s) + k <= List.length s + k)%nat /\
  (k <= List.length s ->
   List.length (replace_go old new k s) + k <= List.length s)%nat.
Proof.
  intro Hn.
  assert (G : forall n s k, (List.length s <= n)%nat ->
              (List.length (replace_go old new k s) <= List.length s - k)%nat
              \/ (List.length s < k)%nat /\ replace_go old new k s = []).
  { clear s k. induction n as [|n IH]; intros s k Hs.
    - destruct s; [|simpl in Hs; lia]. left. simpl. lia.
    - destruct s as [|c r]; [left; simpl; lia|]. simpl in Hs.
      cbn [replace_go]. destruct k as [|k].
      + left. destruct (startswith old (c :: r)) eqn:E.
        * rewrite length_app.
          assert (Hl : (List.length old <= List.length (c :: r))%nat).
          { clear - E. revert E. generalize (c :: r). induction old as [|x o IHo];
              intros l E; [simpl; lia|]. destruct l as [|y l]; [discriminate|].
            simpl in E. apply andb_true_iff in E. destruct E as [_ E].
            specialize (IHo l E). simpl. lia. }
          simpl in Hl.
          destruct (IH r (pred (List.length old)) ltac:(lia)) as [H|[H1 H2]].
          -- simpl. lia.
          -- lia.
        * simpl. destruct (IH r 0%nat ltac:(lia)) as [H|[H1 H2]]; lia.
      + destruct (IH r k ltac:(lia)) as [H|[H1 H2]].
        * left. simpl. lia.
        * right. split; [simpl; lia | exact H2]. }
  destruct (G (List.length s) s k (le_n _)) as [H|[H1 H2]].
  - split; lia.
  - rewrite H2. simpl. split; lia.
Qed.

Lemma replace_length (old new s : str) :
  (List.length new <= List.length old)%nat ->
  (List.length (replace old new s) <= List.length s)%nat.
Proof.
  intro H. unfold replace. destruct (replace_go_length old new 0 s H) as [H1 _]. lia.
Qed.

Lemma remove_stop_phrases_length (s : str) :
  (List.length (remove_stop_phrases s) <= List.length s)%nat.
Proof.
  unfold remove_stop_phrases. generalize STOP_PHRASES. intro l. revert s.
  induction l as [|sp l IH]; intro s; simpl; [lia|].
  pose proof (IH (replace sp [] s)).
  pose proof (@replace_length sp [] s ltac:(simpl; lia)). lia.
Qed.

Lemma RE_PARENS_go_length (s : str) :
  forall pending,
    (List.length (RE_PARENS_go pending s)
     <= List.length s + match pending with
                        | Some buf => S (List.length buf)
                        | None => 0
                        end)%nat.
Proof.
  induction s as [|c r IH]; intro pending.
  - destruct pending as [buf|]; simpl; [rewrite length_rev|]; lia.
  - cbn [RE_PARENS_go]. destruct pending as [buf|].
    + destruct ((c =? RPAREN)%N); [specialize (IH None); simpl in *; lia|].
      destruct ((c =? LPAREN)%N).
      * specialize (IH (Some [])). simpl in *. rewrite length_app, length_rev. lia.
      * specialize (IH (Some (c :: buf))). simpl in *. lia.
    + destruct ((c =? LPAREN)%N).
      * specialize (IH (Some [])). simpl in *. lia.
      * specialize (IH None). simpl in *. lia.
Qed.

Lemma RE_PREFIX_NUM_sub_length (U : unicode_db) (s : str) :
  (List.length (RE_PREFIX_NUM_sub U s) <= List.length s)%nat.
Proof.
  unfold RE_PREFIX_NUM_sub, RE_PREFIX_NUM_match.
  destruct (takeWhile (is_decimal U) (dropWhile is_space s)) as [|d ds]; [lia|].
  pose proof (dropWhile_length is_space s) as H1.
  pose proof (dropWhile_length (is_decimal U) (dropWhile is_space s)) as H2.
  pose proof (dropWhile_length is_space
                (dropWhile (is_decimal U) (dropWhile is_space s))) as H3.
  destruct (dropWhile is_space (dropWhile (is_decimal U) (dropWhile is_space s)))
    as [|c s4]; [lia|].
  destruct ((c =? DOT) || (c =? RPAREN))%N; [|lia].
  pose proof (dropWhile_length is_space s4). simpl in H3. lia.
Qed.

(** X4.  The canonical title is made of the text it is given and of nothing
    else: it is in the normal form of [clean_spaces], it holds no connector
    mark, each of its characters is a character of the NFKC form of the raw
    title or a space, and it is not longer than that form. *)
Theorem normalize_bill_title_shape (U : unicode_db) (raw : str) :
  tidy (normalize_bill_title U raw) = true /\
  Forall no_mark (normalize_bill_title U raw) /\
  Forall (fun c => c = SP \/ In c (normalize_text U raw)) (normalize_bill_title U raw) /\
  (List.length (normalize_bill_title U raw) <= List.length (normalize_text U raw))%nat.
Proof.
  split; [apply normalize_bill_title_tidy|].
  split; [apply normalize_bill_title_no_mark|].
  rewrite normalize_bill_title_steps.
  set (P := fun c : char => c = SP \/ In c (normalize_text U raw)).
  split.
  - apply clean_spaces_Forall; [now left|].
    apply remove_stop_phrases_Forall.
    apply clean_spaces_Forall; [now left|].
    apply sub_runs_Forall; [now left|].
    apply RE_PARENS_go_Forall; [|exact I].
    apply RE_PREFIX_NUM_sub_Forall.
    apply replace_go_Forall_new; [constructor; [now left | constructor]|].
    apply Forall_forall. intros c Hc. now right.
  - pose proof (clean_spaces_length
                  (remove_stop_phrases
                     (clean_spaces
                        (RE_DANGLING_MARKS_sub
                           (RE_PARENS_sub
                              (RE_PREFIX_NUM_sub U
                                 (replace [LF] [SP] (normalize_text U raw)))))))) as H1.
    pose proof (remove_stop_phrases_length
                  (clean_spaces
                     (RE_DANGLING_MARKS_sub
                        (RE_PARENS_sub
                           (RE_PREFIX_NUM_sub U
                              (replace [LF] [SP] (normalize_text U raw))))))) as H2.
    pose proof (clean_spaces_length
                  (RE_DANGLING_MARKS_sub
                     (RE_PARENS_sub
                        (RE_PREFIX_NUM_sub U
                           (replace [LF] [SP] (normalize_text U raw)))))) as H3.
    pose proof (sub_runs_length is_dangling_mark false
                  (RE_PARENS_sub
                     (RE_PREFIX_NUM_sub U
                        (replace [LF] [SP] (normalize_text U raw))))) as H4.
    pose proof (RE_PARENS_go_length
                  (RE_PREFIX_NUM_sub U (replace [LF] [SP] (normalize_text U raw)))
                  None) as H5.
    pose proof (RE_PREFIX_NUM_sub_length U
                  (replace [LF] [SP] (normalize_text U raw))) as H6.
    pose proof (@replace_length [LF] [SP] (normalize_text U raw) (le_n _)) as H7.
    unfold RE_DANGLING_MARKS_sub, RE_PARENS_sub in *. lia.
Qed.

(** ** What the registry holds, and in which order *)

Lemma dict_set_In (V : Type) (d : dict str V) (k : str) (v : V) (k' : str) (v' : V) :
  In (k', v') (dict_set str_eqb d k v) -> (k' = k /\ v' = v) \/ In (k', v') d.
Proof.
  induction d as [|[k0 v0] d IH]; simpl.
  - intros [E|[]]. inversion E. now left.
  - destruct (str_eqb k k0) eqn:E.
    + apply str_eqb_eq in E. subst k0. intros [H|H].
      * inversion H. now left.
      * right. now right.
    + intros [H|H]; [right; now left|].
      destruct (IH H) as [H'|H']; [now left | right; now right].
Qed.

Lemma set_add_NoDup (x : str) (l : list str) : NoDup l -> NoDup (set_add x l).
Proof.
  intro H. unfold set_add. destruct (mem x l) eqn:E; [exact H|].
  apply NoDup_app_remove_l with (l := []). simpl.
  apply Permutation_NoDup with (l := x :: l); [apply Permutation_cons_append|].
  constructor; [|exact H]. intro Hin. apply mem_In in Hin. congruence.
Qed.

Lemma set_add_nonempty (x : str) (l : list str) : set_add x l <> [].
Proof.
  unfold set_add. destruct (mem x l) eqn:E.
  - destruct l; [discriminate E | discriminate].
  - destruct l; discriminate.
Qed.

Lemma firstn_incl (A : Type) (n : nat) (l : list A) (x : A) :
  In x (firstn n l) -> In x l.
Proof.
  intro H. rewrite <- (firstn_skipn n l). apply in_or_app. now left.
Qed.

Section RegistryContents.
Variable U : unicode_db.

Lemma cs_sound_weaken (seen : list str) (v : str) (cs : dict str (list str)) :
  cs_sound U seen cs -> cs_sound U (seen ++ [v]) cs.
Proof.
  intros H canon vs Hin. destruct (H canon vs Hin) as [H1 [H2 H3]].
  split; [exact H1|]. split; [exact H2|].
  intros raw Hr. destruct (H3 raw Hr) as [Ha Hb].
  split; [apply in_or_app; now left | exact Hb].
Qed.

Lemma canonical_set_add_sound (seen : list str) (cs : dict str (list str)) (v : str) :
  cs_sound U seen cs -> cs_sound U (seen ++ [v]) (canonical_set_add U cs v).
Proof.
  intro H. unfold canonical_set_add.
  destruct (normalize_bill_title U v) as [|c t] eqn:En; [now apply cs_sound_weaken|].
  assert (K : forall vs0,
             (vs0 = [] \/ In (c :: t, vs0) cs) ->
             cs_sound U (seen ++ [v]) (dict_set str_eqb cs (c :: t) (set_add v vs0))).
  { intros vs0 H0 canon vs Hin. apply dict_set_In in Hin.
    destruct Hin as [[E1 E2]|Hin]; [|now apply (cs_sound_weaken v H)].
    subst canon vs. split; [apply set_add_nonempty|].
    assert (S0 : NoDup vs0 /\
                 forall raw, In raw vs0 ->
                             In raw seen /\ normalize_bill_title U raw = c :: t).
    { destruct H0 as [E|Hin0]; [subst vs0; split; [constructor | contradiction]|].
      destruct (H _ _ Hin0) as [_ [Hn Hr]]. now split. }
    destruct S0 as [Hn Hr]. split; [now apply set_add_NoDup|].
    intros raw Hraw. apply set_add_In in Hraw. destruct Hraw as [E|Hraw].
    - subst raw. split; [apply in_or_app; right; now left | exact En].
    - destruct (Hr raw Hraw) as [Ha Hb]. split; [apply in_or_app; now left | exact Hb]. }
  destruct (dict_get str_eqb cs (c :: t)) as [vs0|] eqn:G.
  - apply K. right. now apply (dict_get_In _ str_eqb_eq).
  - apply K. now left.
Qed.

Lemma canonical_set_fold_sound (variants : list str) :
  forall seen cs,
    cs_sound U seen cs ->
    cs_sound U (seen ++ variants) (fold_left (canonical_set_add U) variants cs).
Proof.
  induction variants as [|v variants IH]; intros seen cs H; simpl.
  - now rewrite app_nil_r.
  - replace (seen ++ v :: variants) with ((seen ++ [v]) ++ variants)
      by now rewrite <- app_assoc.
    apply IH. now apply canonical_set_add_sound.
Qed.

Lemma canonical_set_sound (variants : list str) :
  cs_sound U variants (canonical_set U variants).
Proof.
  unfold canonical_set.
  apply (canonical_set_fold_sound variants (seen := []) (cs := [])).
  intros canon vs [].
Qed.

Lemma mentioned_snoc (seen : list str) (v : str) :
  mentioned U (seen ++ [v]) =
  match normalize_bill_title U v with
  | [] => mentioned U seen
  | canon => mentioned U seen ++ [canon]
  end.
Proof.
  unfold mentioned. rewrite map_app, filter_app. simpl.
  destruct (normalize_bill_title U v); simpl; [now rewrite app_nil_r | reflexivity].
Qed.

Lemma canonical_set_add_keys (seen : list str) (cs : dict str (list str)) (v : str) :
  dict_keys cs = dedup (mentioned U seen) ->
  dict_keys (canonical_set_add U cs v) = dedup (mentioned U (seen ++ [v])).
Proof.
  intro H. rewrite mentioned_snoc. unfold canonical_set_add.
  destruct (normalize_bill_title U v) as [|c t] eqn:En; [exact H|].
  rewrite dedup_snoc.
  assert (M : dict_mem str_eqb cs (c :: t) = mem (c :: t) (mentioned U seen)).
  { destruct (mem (c :: t) (mentioned U seen)) eqn:E.
    - apply (dict_mem_keys _ str_eqb_eq). rewrite H. apply dedup_In. now apply mem_In.
    - destruct (dict_mem str_eqb cs (c :: t)) eqn:E'; [|reflexivity].
      apply (dict_mem_keys _ str_eqb_eq) in E'. rewrite H in E'.
      apply (proj1 (dedup_In _ _)) in E'. apply (proj2 (mem_In _ _)) in E'.
      congruence. }
  destruct (dict_get str_eqb cs (c :: t));
    rewrite (dict_keys_set str_eqb), M, H; reflexivity.
Qed.

Lemma canonical_set_keys (variants : list str) :
  dict_keys (canonical_set U variants) = dedup (mentioned U variants).
Proof.
  unfold canonical_set.
  assert (G : forall seen cs,
             dict_keys cs = dedup (mentioned U seen) ->
             dict_keys (fold_left (canonical_set_add U) variants cs)
             = dedup (mentioned U (seen ++ variants))).
  { induction variants as [|v variants IH]; intros seen cs H; simpl.
    - now rewrite app_nil_r.
    - replace (seen ++ v :: variants) with ((seen ++ [v]) ++ variants)
        by now rewrite <- app_assoc.
      apply IH. now apply canonical_set_add_keys. }
  exact (G [] [] eq_refl).
Qed.

Lemma bill_map_In (cs : dict str (list str)) (canon : str) (e : bill_entry) :
  In (canon, e) (map (fun '(canon, vs) => (canon, entry_of U canon vs)) cs) ->
  exists vs, In (canon, vs) cs /\ e = entry_of U canon vs.
Proof.
  intro H. apply in_map_iff in H. destruct H as [[k vs] [E Hin]].
  inversion E; subst. now exists vs.
Qed.

Lemma extract_keywords_kept (title : str) (topk : Z) (w : str) :
  In w (extract_keywords_from_bill U title topk) ->
  In w (tokens_of U title) /\ keep_token w = true.
Proof.
  unfold extract_keywords_from_bill, most_common. intro H.
  apply in_map_iff in H. destruct H as [[w' n] [E H]]. simpl in E. subst w'.
  apply firstn_incl in H.
  apply (Permutation_in _ (sorted_desc_perm _)) in H.
  rewrite Counter_tabulated in H. apply in_map_iff in H.
  destruct H as [v [E H]]. inversion E; subst v.
  apply (proj1 (dedup_In _ _)) in H. now apply filter_In in H.
Qed.

Lemma extract_keywords_length (title : str) (topk : Z) :
  (List.length (extract_keywords_from_bill U title topk) <= Z.to_nat topk)%nat.
Proof.
  unfold extract_keywords_from_bill, most_common.
  rewrite length_map. apply firstn_le_length.
Qed.

Lemma build_keyword_patterns_all (words : list str) :
  Forall (fun w => w <> []) words -> build_keyword_patterns words = words.
Proof.
  unfold build_keyword_patterns.
  induction 1 as [|w l Hw Hl IH]; [reflexivity|].
  simpl. destruct w; [contradiction|]. now rewrite IH.
Qed.

Lemma keywords_nonempty (title : str) (topk : Z) :
  Forall (fun w => w <> []) (extract_keywords_from_bill U title topk).
Proof.
  apply Forall_forall. intros w H. apply extract_keywords_kept in H.
  destruct H as [_ H]. apply keep_token_spec in H. destruct H as [H _].
  destruct w; [simpl in H; lia | discriminate].
Qed.

Lemma entry_of_patterns (canon : str) (vs : list str) :
  canon <> [] ->
  patterns (entry_of U canon vs) = canon :: extract_keywords_from_bill U canon 8.
Proof.
  intro H. unfold entry_of. cbn [patterns].
  apply build_keyword_patterns_all. constructor; [exact H | apply keywords_nonempty].
Qed.

End RegistryContents.

(** X5.  Each mention is filed once, under its own canonical title: the raw
    variants of a bill of the registry are the mentions of the transcript
    that normalize to its title, without repetition, and every mention with
    a title that is not empty is among the raw variants of the bill of that
    title. *)
Theorem registry_files_each_mention (U : unicode_db) (speeches : list speech) :
  let bm := snd (collect_bills_and_keywords U speeches) in
  (forall canon e,
      In (canon, e) bm ->
      canon <> [] /\ raw_variants e <> [] /\ NoDup (raw_variants e) /\
      forall raw, In raw (raw_variants e) <->
                  In raw (bill_variants U speeches) /\
                  normalize_bill_title U raw = canon) /\
  (forall raw,
      In raw (bill_variants U speeches) ->
      normalize_bill_title U raw <> [] ->
      exists e, dict_get str_eqb bm (normalize_bill_title U raw) = Some e /\
                In raw (raw_variants e)).
Proof.
  intro bm. subst bm. unfold collect_bills_and_keywords. cbn [snd].
  set (variants := bill_variants U speeches).
  destruct (canonical_set_ok U variants) as [Hn Hf].
  pose proof (canonical_set_sound U variants) as Hs.
  split.
  - intros canon e Hin. apply bill_map_In in Hin. destruct Hin as [vs [Hin E]].
    subst e. cbn [entry_of raw_variants].
    destruct (Hs canon vs Hin) as [H1 [H2 H3]].
    split.
    { rewrite Forall_forall in Hf. apply Hf.
      unfold dict_keys. apply in_map_iff. now exists (canon, vs). }
    split; [exact H1|]. split; [exact H2|].
    intro raw. split; [apply H3|].
    intros [Hr En]. subst canon.
    assert (Hne : normalize_bill_title U raw <> []).
    { rewrite Forall_forall in Hf. apply Hf.
      unfold dict_keys. apply in_map_iff. now exists (normalize_bill_title U raw, vs). }
    destruct (canonical_set_holds U variants raw Hr Hne) as [vs' [G Hv]].
    rewrite (@dict_get_unique _ _ _ _ Hn Hin) in G. inversion G. now subst vs'.
  - intros raw Hr Hne.
    destruct (canonical_set_holds U variants raw Hr Hne) as [vs [G Hv]].
    exists (entry_of U (normalize_bill_title U raw) vs). split; [|exact Hv].
    now apply bill_map_get.
Qed.

(** X6.  The scorer takes the first pattern of an entry for the whole title and
    the others for keywords.  The registry is built so: the patterns of a
    bill are its canonical title followed by its keywords, at most eight,
    not one of them dropped as empty. *)
Theorem registry_patterns_title_first
        (U : unicode_db) (speeches : list speech) (canon : str) (e : bill_entry) :
  In (canon, e) (snd (collect_bills_and_keywords U speeches)) ->
  keywords e = extract_keywords_from_bill U canon 8 /\
  patterns e = canon :: keywords e /\
  (List.length (keywords e) <= 8)%nat /\
  Forall (fun w => (2 <= List.length w)%nat /\ ~ In w BILL_STOP_TOKENS) (keywords e).
Proof.
  unfold collect_bills_and_keywords. cbn [snd]. intro Hin.
  destruct (canonical_set_ok U (bill_variants U speeches)) as [_ Hf].
  apply bill_map_In in Hin. destruct Hin as [vs [Hin E]]. subst e.
  assert (Hne : canon <> []).
  { rewrite Forall_forall in Hf. apply Hf.
    unfold dict_keys. apply in_map_iff. now exists (canon, vs). }
  split; [reflexivity|]. split; [now apply entry_of_patterns|].
  split; [apply (extract_keywords_length U canon 8)|].
  apply Forall_forall. intros w Hw. cbn [entry_of keywords] in Hw.
  apply extract_keywords_kept in Hw. destruct Hw as [_ Hw].
  now apply keep_token_spec.
Qed.

Lemma registry_patterns_title_first_witness :
  let canon := py "자연재해대책법" in
  let e := {| raw_variants := [py "1. 자연재해대책법 일부개정법률안(정부 제출)"];
              keywords := [py "자연재해대책법"];
              patterns := [py "자연재해대책법"; py "자연재해대책법"] |} in
  In (canon, e) (snd (collect_bills_and_keywords ucd_latin_hangul sitting)) /\
  patterns e = canon :: keywords e.
Proof.
  intros canon e.
  assert (H : In (canon, e) (snd (collect_bills_and_keywords ucd_latin_hangul sitting))).
  { vm_compute. left. reflexivity. }
  split; [exact H|].
  exact (proj1 (proj2 (registry_patterns_title_first ucd_latin_hangul sitting canon e H))).
Defined.

(** X7.  The registry and the summary list the bills in the order in which the
    transcript first mentions them. *)
Theorem registry_in_order_of_first_mention (U : unicode_db) (speeches : list speech) :
  let out := collect_bills_and_keywords U speeches in
  dict_keys (snd out) = dedup (mentioned U (bill_variants U speeches)) /\
  map canonical (fst out) = dict_keys (snd out) /\
  map summary_keywords (fst out) = map (fun ke => keywords (snd ke)) (snd out).
Proof.
  intro out. subst out. unfold collect_bills_and_keywords. cbn [fst snd].
  rewrite bill_map_keys, canonical_set_keys. split; [reflexivity|].
  rewrite <- canonical_set_keys. unfold dict_keys. rewrite !map_map.
  split; apply map_ext; now intros [k v].
Qed.

(** ** The order of [sorted] on strings *)

Lemma str_ltb_irrefl (a : str) : str_ltb a a = false.
Proof.
  induction a as [|x a IH]; [reflexivity|].
  simpl. now rewrite N.ltb_irrefl, N.eqb_refl, IH.
Qed.

Lemma str_ltb_cons (x y : char) (a b : str) :
  str_ltb (x :: a) (y :: b) = true <-> (x < y)%N \/ (x = y /\ str_ltb a b = true).
Proof.
  simpl. rewrite orb_true_iff, andb_true_iff, N.ltb_lt, N.eqb_eq. tauto.
Qed.

Lemma str_ltb_trans (a b c : str) :
  str_ltb a b = true -> str_ltb b c = true -> str_ltb a c = true.
Proof.
  revert b c. induction a as [|x a IH]; intros [|y b] [|z c] H1 H2;
    try discriminate; try reflexivity.
  apply str_ltb_cons in H1. apply str_ltb_cons in H2. apply str_ltb_cons.
  destruct H1 as [H1|[E1 H1]], H2 as [H2|[E2 H2]].
  - left. lia.
  - left. lia.
  - left. lia.
  - right. split; [lia|]. exact (IH _ _ H1 H2).
Qed.

Lemma str_ltb_total (a b : str) :
  str_ltb a b = false -> str_ltb b a = false -> a = b.
Proof.
  revert b. induction a as [|x a IH]; intros [|y b] H1 H2;
    try discriminate; [reflexivity|].
  simpl in H1, H2.
  apply orb_false_iff in H1. destruct H1 as [L1 A1].
  apply orb_false_iff in H2. destruct H2 as [L2 A2].
  apply N.ltb_ge in L1. apply N.ltb_ge in L2.
  assert (E : x = y) by lia. subst y.
  rewrite N.eqb_refl in A1, A2. simpl in A1, A2.
  f_equal. now apply IH.
Qed.

Lemma str_le_trans (a b c : str) : str_le a b -> str_le b c -> str_le a c.
Proof.
  unfold str_le. intros H1 H2.
  destruct (str_ltb c a) eqn:E; [|reflexivity]. exfalso.
  destruct (str_ltb a b) eqn:Eab.
  - rewrite (str_ltb_trans _ _ _ E Eab) in H2. discriminate.
  - rewrite (str_ltb_total _ _ Eab H1) in E. congruence.
Qed.

Lemma insert_str_perm (x : str) (l : list str) : Permutation (insert_str x l) (x :: l).
Proof.
  induction l as [|y l IH]; simpl; [reflexivity|].
  destruct (str_ltb y x); [|reflexivity].
  rewrite IH. apply perm_swap.
Qed.

Lemma sorted_strs_perm (l : list str) : Permutation (sorted_strs l) l.
Proof.
  induction l as [|x l IH]; simpl; [reflexivity|].
  unfold sorted_strs in *. simpl. rewrite insert_str_perm. now constructor.
Qed.

Lemma insert_str_sorted (x : str) (l : list str) :
  StronglySorted str_le l -> StronglySorted str_le (insert_str x l).
Proof.
  induction 1 as [|y l Hl IH Hy]; simpl; [repeat constructor|].
  destruct (str_ltb y x) eqn:E.
  - constructor; [exact IH|].
    apply Forall_forall. intros z Hz.
    apply (Permutation_in _ (insert_str_perm x l)) in Hz. destruct Hz as [Hz|Hz].
    + subst z. unfold str_le.
      destruct (str_ltb x y) eqn:E'; [|reflexivity].
      pose proof (str_ltb_trans _ _ _ E E') as K. now rewrite str_ltb_irrefl in K.
    + rewrite Forall_forall in Hy. now apply Hy.
  - constructor; [now constructor|].
    constructor; [exact E|].
    eapply Forall_impl; [|exact Hy]. intros z Hz. exact (str_le_trans E Hz).
Qed.

Lemma sorted_strs_sorted (l : list str) : StronglySorted str_le (sorted_strs l).
Proof.
  induction l as [|x l IH]; [constructor|].
  unfold sorted_strs in *. simpl. now apply insert_str_sorted.
Qed.

Lemma sorted_unique (l1 : list str) :
  forall l2, StronglySorted str_le l1 -> StronglySorted str_le l2 ->
             Permutation l1 l2 -> l1 = l2.
Proof.
  induction l1 as [|a l1 IH]; intros l2 S1 S2 P.
  - apply Permutation_nil in P. now subst.
  - destruct l2 as [|b l2]; [apply Permutation_sym, Permutation_nil in P; discriminate|].
    inversion S1 as [|? ? S1' F1]; subst. inversion S2 as [|? ? S2' F2]; subst.
    assert (E : a = b).
    { rewrite Forall_forall in F1, F2.
      assert (Ha : In a (b :: l2)) by (apply (Permutation_in _ P); now left).
      assert (Hb : In b (a :: l1))
        by (apply (Permutation_in _ (Permutation_sym P)); now left).
      destruct Ha as [Ha|Ha]; [now symmetry|].
      destruct Hb as [Hb|Hb]; [exact Hb|].
      apply str_ltb_total; [exact (F2 _ Ha) | exact (F1 _ Hb)]. }
    subst b. f_equal. apply IH; try assumption.
    now apply Permutation_cons_inv in P.
Qed.

(** X8.  The raw variants of a bill are kept in a [set], which Python enumerates
    in an order of its own.  The summary does not depend on that order: the
    variants are put out in ascending order of their code points, each one
    once, whatever the order in which the set hands them over. *)
Theorem summary_variants_sorted (l : list str) :
  Permutation (sorted_strs l) l /\
  StronglySorted str_le (sorted_strs l) /\
  (NoDup l -> StronglySorted (fun a b => str_ltb a b = true) (sorted_strs l)) /\
  (forall l', Permutation l l' -> sorted_strs l' = sorted_strs l).
Proof.
  split; [apply sorted_strs_perm|]. split; [apply sorted_strs_sorted|]. split.
  - intro Hn.
    assert (Hn' : NoDup (sorted_strs l))
      by exact (Permutation_NoDup (Permutation_sym (sorted_strs_perm l)) Hn).
    pose proof (sorted_strs_sorted l) as Hs.
    induction Hs as [|a r Hr IH Ha]; [constructor|].
    inversion Hn' as [|? ? Hna Hnr]; subst.
    constructor; [now apply IH|].
    apply Forall_forall. intros z Hz. rewrite Forall_forall in Ha.
    destruct (str_ltb a z) eqn:E; [reflexivity|]. exfalso.
    apply Hna. rewrite (str_ltb_total _ _ E (Ha z Hz)). exact Hz.
  - intros l' P. apply sorted_unique; try apply sorted_strs_sorted.
    rewrite (sorted_strs_perm l'), (sorted_strs_perm l). now apply Permutation_sym.
Qed.

(** ** The scorer *)

Lemma fold_left_pointwise (A B : Type) (f g : A -> B -> A) (l : list B) :
  (forall a b, f a b = g a b) -> forall a, fold_left f l a = fold_left g l a.
Proof.
  intro H. induction l as [|b l IH]; intro a; [reflexivity|].
  simpl. now rewrite H, IH.
Qed.

Section Scorer.
Variable U : unicode_db.

Lemma spaced_pat_tail_cons (c : char) (w' : str) (x : char) (s' : str) :
  spaced_pat_tail U (c :: w') (x :: s') =
  let lit := if eq_ignorecase U c x
             then option_map S (spaced_pat_tail U w' s') else None in
  if is_space x then
    match spaced_pat_tail U (c :: w') s' with
    | Some n => Some (S n)
    | None => lit
    end
  else lit.
Proof. reflexivity. Qed.



Lemma spaced_pat_tail_prefix (w rest : str) :
  exists n, spaced_pat_tail U w (w ++ rest) = Some n.
Proof.
  induction w as [|c w [n IH]]; [now exists 0%nat|].
  change ((c :: w) ++ rest) with (c :: (w ++ rest)).
  rewrite spaced_pat_tail_cons. cbv zeta.
  rewrite (eq_ignorecase_refl U), IH. cbn [option_map].
  destruct (is_space c); [|now eexists].
  destruct (spaced_pat_tail U (c :: w) (w ++ rest)); now eexists.
Qed.

Lemma spaced_pat_match_prefix (w rest : str) :
  w <> [] -> exists n, spaced_pat_match U w (w ++ rest) = Some n.
Proof.
  destruct w as [|c w]; [contradiction|]. intros _.
  destruct (spaced_pat_tail_prefix w rest) as [n H].
  exists (S n). cbn [app spaced_pat_match].
  now rewrite (eq_ignorecase_refl U), H.
Qed.

Lemma finditer_count_occurrence (w a b : str) :
  w <> [] -> (1 <= finditer_count U w 0 (a ++ w ++ b))%nat.
Proof.
  intro Hw. induction a as [|x a IH].
  - destruct (spaced_pat_match_prefix b Hw) as [n H].
    cbn [app]. destruct w as [|c w]; [contradiction|].
    change ((c :: w) ++ b) with (c :: (w ++ b)) in *.
    cbn [finditer_count]. rewrite H. lia.
  - change ((x :: a) ++ w ++ b) with (x :: (a ++ w ++ b)).
    cbn [finditer_count].
    destruct (spaced_pat_match U w (x :: a ++ w ++ b)); [lia | exact IH].
Qed.

Lemma finditer_count_bound (w : str) (s : str) :
  forall skip, (finditer_count U w skip s <= List.length s)%nat.
Proof.
  induction s as [|x s IH]; intro skip; [simpl; lia|].
  cbn [finditer_count List.length].
  destruct skip as [|k]; [|specialize (IH k); lia].
  destruct (spaced_pat_match U w (x :: s)) as [n|].
  - specialize (IH (pred n)). lia.
  - specialize (IH 0%nat). lia.
Qed.

Lemma score_keywords (T : str) (kws : list str) :
  forall k h s,
    fold_left (score_step U T) (combine (seq (S k) (List.length kws)) kws) (h, s)
    = (h, (s + Z.of_nat (list_sum (map (fun w => matches U w T) kws)))%Z).
Proof.
  induction kws as [|w kws IH]; intros k h s.
  - cbn. f_equal. lia.
  - cbn [List.length seq combine fold_left map list_sum].
    unfold score_step at 2. change (matches U w T) with (finditer_count U w 0 T).
    change (list_sum (finditer_count U w 0 T :: ?l))
      with (finditer_count U w 0 T + list_sum l)%nat.
    destruct (Nat.eqb (finditer_count U w 0 T) 0) eqn:E.
    + apply Nat.eqb_eq in E. rewrite IH, E. f_equal; lia.
    + cbn [Nat.eqb]. rewrite IH. f_equal; lia.
Qed.

Lemma score_text_for_bill_fold (text : str) (e : bill_entry) :
  text <> [] ->
  score_text_for_bill U text e =
  fold_left (score_step U (normalize_text U text))
            (combine (seq 0 (List.length (patterns e))) (patterns e)) (0, 0)%Z.
Proof.
  intro H. unfold score_text_for_bill. destruct text as [|c t]; [contradiction|].
  apply fold_left_pointwise. intros [hard soft] [i pat]. reflexivity.
Qed.

Lemma hard_score_is_matches (text : str) (e : bill_entry) (w : str) (kws : list str) :
  patterns e = w :: kws ->
  text <> [] ->
  fst (score_text_for_bill U text e) = Z.of_nat (matches U w (normalize_text U text)).
Proof.
  intros Hp Ht. rewrite score_text_for_bill_fold by exact Ht. rewrite Hp.
  cbn [List.length seq combine fold_left]. unfold score_step at 2.
  fold (matches U w (normalize_text U text)).
  destruct (Nat.eqb (matches U w (normalize_text U text)) 0) eqn:E.
  - apply Nat.eqb_eq in E. rewrite score_keywords, E. reflexivity.
  - cbn [Nat.eqb]. rewrite score_keywords. reflexivity.
Qed.

Lemma quote_scores_hard (text : str) (e : bill_entry) (w : str) (kws : list str) :
  patterns e = w :: kws ->
  w <> [] ->
  substring w (normalize_text U text) ->
  (1 <= fst (score_text_for_bill U text e))%Z.
Proof.
  intros Hp Hw [a [b Hs]].
  assert (Ht : text <> []).
  { intro E. subst text. cbn in Hs.
    destruct a; [destruct w; [now apply Hw | discriminate] | discriminate]. }
  rewrite (@hard_score_is_matches text e w kws Hp Ht). unfold matches. rewrite Hs.
  pose proof (@finditer_count_occurrence w a b Hw). lia.
Qed.

End Scorer.



(** X10.  The score of a text against a bill is what the source announces: the
    number of matches of the first pattern, and the number of matches of the
    other patterns taken together; both are zero for an empty text. *)
Theorem score_counts_matches (U : unicode_db) (text : str) (e : bill_entry) :
  score_text_for_bill U text e =
  match text, patterns e with
  | [], _ | _, [] => (0, 0)%Z
  | _, w :: kws =>
      let T := normalize_text U text in
      (Z.of_nat (matches U w T),
       Z.of_nat (list_sum (map (fun k => matches U k T) kws)))
  end.
Proof.
  destruct text as [|c t]; [reflexivity|].
  rewrite score_text_for_bill_fold by discriminate.
  destruct (patterns e) as [|w kws]; [reflexivity|].
  cbn [List.length seq combine fold_left]. unfold score_step at 2.
  fold (matches U w (normalize_text U (c :: t))).
  destruct (Nat.eqb (matches U w (normalize_text U (c :: t))) 0) eqn:E.
  - apply Nat.eqb_eq in E. rewrite score_keywords, E. reflexivity.
  - cbn [Nat.eqb]. rewrite score_keywords. reflexivity.
Qed.

(** X11.  A text that quotes the title of a bill word for word scores a hard hit
    for that bill. *)
Theorem quoted_title_is_hard_hit
        (U : unicode_db) (text : str) (e : bill_entry) (w : str) (kws : list str) :
  patterns e = w :: kws ->
  w <> [] ->
  substring w (normalize_text U text) ->
  (1 <= fst (score_text_for_bill U text e) <= Z.of_nat (List.length (normalize_text U text)))%Z.
Proof.
  intros Hp Hw Hq. split.
  - exact (@quote_scores_hard U text e w kws Hp Hw Hq).
  - destruct text as [|c t] eqn:Et; [cbn; lia|].
    rewrite (@hard_score_is_matches U (c :: t) e w kws Hp) by discriminate.
    unfold matches.
    pose proof (finditer_count_bound U w (normalize_text U (c :: t)) 0). lia.
Qed.

Lemma quoted_title_is_hard_hit_witness :
  let text := py "다음은 자연재해대책법 일부개정법률안을 상정합니다" in
  let w := py "자연재해대책법" in
  let e := {| raw_variants := []; keywords := []; patterns := [w] |} in
  (patterns e = [w] /\ w <> [] /\ substring w (normalize_text ucd_latin_hangul text)) /\
  (1 <= fst (score_text_for_bill ucd_latin_hangul text e))%Z.
Proof.
  intros text w e.
  assert (H1 : patterns e = [w]) by reflexivity.
  assert (H2 : w <> []) by (vm_compute; discriminate).
  assert (H3 : substring w (normalize_text ucd_latin_hangul text)).
  { exists (py "다음은 "), (py " 일부개정법률안을 상정합니다"). vm_compute. reflexivity. }
  split; [exact (conj H1 (conj H2 H3))|].
  pose proof (@quoted_title_is_hard_hit ucd_latin_hangul text e w [] H1 H2 H3) as H.
  destruct H as [H _]. exact H.
Defined.

(** ** The decision of the resolver *)

Section Decision.
Variable U : unicode_db.
Variable bm : dict str bill_entry.
Hypothesis Hne : bm <> [].
Hypothesis Hok : registry_ok bm = true.

Lemma best_is_greatest (text : str) (pre post : list str) (c : str) (titles : list str) :
  titles = pre ++ c :: post ->
  (forall c', In c' pre ->
     score_gt (score_of U bm text c) (score_of U bm text c') = true) ->
  (forall c', In c' post ->
     score_gt (score_of U bm text c') (score_of U bm text c) = false) ->
  forall c', In c' titles ->
             score_gt (score_of U bm text c') (score_of U bm text c) = false.
Proof.
  intros E Hpre Hpost c' Hin. subst titles.
  apply in_app_or in Hin. destruct Hin as [Hin|[Hin|Hin]].
  - specialize (Hpre c' Hin). apply score_gt_spec in Hpre. apply score_gt_false. lia.
  - subst c'. apply score_gt_false. lia.
  - now apply Hpost.
Qed.

(** The pick for a record, by cases: the bill of the greatest score, unless
    the record's field names known bills and the text says too little. *)
Lemma pick_decision (st : state) (rec : speech) :
  let text := or_empty (speech_text rec) in
  let cands := candidates_of U bm rec in
  exists c,
    In c (dict_keys bm) /\ c <> [] /\
    (forall c', In c' (dict_keys bm) ->
                score_gt (score_of U bm text c') (score_of U bm text c) = false) /\
    ((cands = [] \/ 0 < fst (score_of U bm text c) \/ 2 <= snd (score_of U bm text c))%Z /\
     pick_bill U bm st rec =
       (Some c, text_conf (score_of U bm text c),
        py "text-match(" ++ score_reason (score_of U bm text c) ++ py ")")
     \/
     (fst (score_of U bm text c) = 0 /\ 0 <= snd (score_of U bm text c) <= 1)%Z /\
     exists c',
       In c' cands /\
       (fst (score_of U bm text c') = 0 /\
        0 <= snd (score_of U bm text c') <= snd (score_of U bm text c))%Z /\
       (forall c'', In c'' cands ->
                    score_gt (score_of U bm text c'') (score_of U bm text c') = false) /\
       pick_bill U bm st rec =
         (Some c', Qmax2 (text_conf (score_of U bm text c))
                         (cand_conf (score_of U bm text c')),
          cand_reason (score_of U bm text c'))).
Proof.
  intros text cands.
  destruct (pick_bill_nonempty U st rec Hne Hok) as [Hp _]. fold text cands in Hp.
  destruct (step2_picks U text (None, 0.0, []) Hne Hok)
    as [pre [c [post [Hk [Hc [H2 [Hpre Hpost]]]]]]].
  pose proof (@best_is_greatest text pre post c _ Hk Hpre Hpost) as Hmax.
  exists c. split; [rewrite Hk; apply in_elt|]. split; [exact Hc|]. split; [exact Hmax|].
  rewrite Hp, H2. unfold step3.
  destruct (score_of_nonneg U bm text c) as [N1 N2].
  destruct cands as [|c0 cs] eqn:Ec; [left; split; [now left | reflexivity]|].
  destruct (Qltb (text_conf (score_of U bm text c)) 0.6) eqn:Eq.
  - right.
    assert (Hs : (fst (score_of U bm text c) = 0 /\ snd (score_of U bm text c) <= 1)%Z).
    { revert Eq. unfold text_conf.
      destruct (0 <? fst (score_of U bm text c))%Z eqn:E1; [discriminate|].
      destruct (2 <=? snd (score_of U bm text c))%Z eqn:E2; [discriminate|].
      intros _. apply Z.ltb_ge in E1. apply Z.leb_gt in E2. lia. }
    split; [lia|].
    assert (Hn : c0 :: cs <> []) by discriminate.
    destruct (best_by_score_spec U bm text Hn) as [pre' [c' [post' [Hs' [Hb' [Hpre' Hpost']]]]]].
    pose proof (@best_is_greatest text pre' post' c' _ Hs' Hpre' Hpost') as Hmax'.
    assert (Hin : In c' (candidates_of U bm rec)).
    { fold cands. rewrite Ec, Hs'. apply in_elt. }
    destruct (candidates_in_keys U bm rec c' Hin) as [Hkey Hc'].
    exists c'. split; [rewrite Hs'; apply in_elt|].
    destruct (score_of_nonneg U bm text c') as [M1 M2].
    pose proof (Hmax c' Hkey) as Hle. apply score_gt_false in Hle.
    split; [lia|]. split; [exact Hmax'|].
    rewrite Hb'. destruct c'; [contradiction | reflexivity].
  - left. split; [|reflexivity]. right.
    revert Eq. unfold text_conf.
    destruct (0 <? fst (score_of U bm text c))%Z eqn:E1; [intros _; left; now apply Z.ltb_lt|].
    destruct (2 <=? snd (score_of U bm text c))%Z eqn:E2; [intros _; right; now apply Z.leb_le|].
    destruct (snd (score_of U bm text c) =? 1)%Z; discriminate.
Qed.

Lemma text_conf_rounded (sc : Z * Z) : round2 (text_conf sc) == text_conf sc.
Proof.
  unfold text_conf.
  destruct (0 <? fst sc)%Z; [reflexivity|].
  destruct (2 <=? snd sc)%Z; [reflexivity|].
  destruct (snd sc =? 1)%Z; reflexivity.
Qed.

Lemma cand_conf_rounded (sc sc' : Z * Z) :
  (fst sc = 0 /\ 0 <= snd sc <= 1)%Z ->
  (fst sc' = 0 /\ 0 <= snd sc' <= snd sc)%Z ->
  round2 (Qmax2 (text_conf sc) (cand_conf sc'))
  = if (snd sc' =? 0)%Z then 0.60 else 0.70.
Proof.
  destruct sc as [h s], sc' as [h' s']. cbn [fst snd]. intros [E1 R1] [E2 R2].
  subst h h'.
  assert (C : (s = 0 \/ s = 1)%Z) by lia.
  assert (C' : (s' = 0 \/ s' = 1)%Z) by lia.
  destruct C as [C|C], C' as [C'|C']; subst s s'; try lia; reflexivity.
Qed.

(** The labels do not depend on the state. *)
Lemma label_speech_stateless (st : state) (rec : speech) :
  snd (label_speech U bm st rec) = snd (label_speech U bm initial_state rec).
Proof.
  unfold label_speech.
  destruct (pick_bill_nonempty U st rec Hne Hok) as [E1 _].
  destruct (pick_bill_nonempty U initial_state rec Hne Hok) as [E2 _].
  rewrite E1, E2.
  destruct (step3 U bm _ _ _) as [[picked conf] why]. reflexivity.
Qed.

Lemma label_from_stateless (sp : list speech) :
  forall st, snd (label_from U bm st sp)
             = map (fun rec => snd (label_speech U bm initial_state rec)) sp.
Proof.
  induction sp as [|r sp IH]; intro st; [reflexivity|].
  cbn [label_from map]. rewrite <- (label_speech_stateless st r).
  destruct (label_speech U bm st r) as [st1 l1].
  specialize (IH st1). destruct (label_from U bm st1 sp) as [st2 ls].
  cbn [snd] in *. now rewrite IH.
Qed.

End Decision.

Lemma fst_of_pair (A B : Type) (a : A) (b : B) : fst (a, b) = a.
Proof. reflexivity. Qed.

Lemma snd_of_pair (A B : Type) (a : A) (b : B) : snd (a, b) = b.
Proof. reflexivity. Qed.

Section MainFacts.
Variable U : unicode_db.

Lemma main_unfold (speeches : list speech) :
  main U speeches =
  (fst (collect_bills_and_keywords U speeches),
   assign_bills_to_speeches U speeches (snd (collect_bills_and_keywords U speeches))).
Proof.
  unfold main. now destruct (collect_bills_and_keywords U speeches).
Qed.

Lemma summary_keys (speeches : list speech) :
  map canonical (fst (collect_bills_and_keywords U speeches))
  = dict_keys (snd (collect_bills_and_keywords U speeches)).
Proof.
  unfold collect_bills_and_keywords, dict_keys. cbn [fst snd].
  rewrite !map_map. apply map_ext. now intros [k v].
Qed.

Lemma split_raw_bills_field_or_empty (b : option str) :
  split_raw_bills_field U (Some (or_empty b)) = split_raw_bills_field U b.
Proof. destruct b as [s|]; reflexivity. Qed.

Lemma candidates_of_spec (bm : dict str bill_entry) (rec : speech) (c : str) :
  In c (candidates_of U bm rec) <->
  (exists r, In r (split_raw_bills_field U (bills rec)) /\
             c = normalize_bill_title U r /\ c <> []) /\
  In c (dict_keys bm).
Proof.
  unfold candidates_of. rewrite split_raw_bills_field_or_empty.
  rewrite filter_In, in_map_iff, (dict_mem_keys _ str_eqb_eq). split.
  - intros [[r [E Hr]] Hk]. apply filter_In in Hr. destruct Hr as [Hr Hn].
    split; [|exact Hk]. exists r. split; [exact Hr|]. split; [now symmetry|].
    subst c. destruct (normalize_bill_title U r); [discriminate | discriminate].
  - intros [[r [Hr [E Hn]]] Hk]. split; [|exact Hk].
    exists r. split; [now symmetry|]. apply filter_In. split; [exact Hr|].
    subst c. destruct (normalize_bill_title U r); [contradiction | reflexivity].
Qed.

(** A mention of the transcript with a title that is not empty is a key of
    the registry built from the transcript. *)
Lemma registry_knows_mention (speeches : list speech) (rec : speech) (r : str) :
  In rec speeches ->
  In r (split_raw_bills_field U (bills rec)) ->
  normalize_bill_title U r <> [] ->
  In (normalize_bill_title U r) (dict_keys (snd (collect_bills_and_keywords U speeches))).
Proof.
  intros Hrec Hr Hn.
  assert (Hv : In r (bill_variants U speeches)).
  { unfold bill_variants. apply in_flat_map. now exists rec. }
  destruct (@canonical_set_holds U (bill_variants U speeches) r Hv Hn) as [vs [G _]].
  unfold collect_bills_and_keywords. cbn [snd]. rewrite bill_map_keys.
  apply (dict_get_In _ str_eqb_eq) in G.
  unfold dict_keys. apply in_map_iff. now exists (normalize_bill_title U r, vs).
Qed.

Lemma label_of_record (bm : dict str bill_entry) (speeches : list speech) (l : labeled) :
  In l (assign_bills_to_speeches U speeches bm) ->
  In (rec_of l) speeches /\
  exists st, bill_assigned l = fst (fst (pick_bill U bm st (rec_of l))) /\
             bill_confidence l = round2 (snd (fst (pick_bill U bm st (rec_of l)))) /\
             bill_reason l = snd (pick_bill U bm st (rec_of l)).
Proof.
  unfold assign_bills_to_speeches. intro H.
  destruct (@label_from_In U bm initial_state speeches l H) as [st [rec [Hin El]]].
  destruct (label_speech_fields U bm st rec) as [F1 [F2 [F3 [F4 _]]]].
  subst l. rewrite F1. split; [exact Hin|]. exists st. auto.
Qed.

End MainFacts.



(** X13.  Each record is labelled on its own: with a registry whose keys are not
    empty, the label of a record is what the loop body makes of it from the
    initial state, whatever records came before it. *)
Theorem resolver_labels_each_record_alone
        (U : unicode_db) (bm : dict str bill_entry) (speeches : list speech) :
  registry_ok bm = true ->
  assign_bills_to_speeches U speeches bm
  = map (fun rec => snd (label_speech U bm initial_state rec)) speeches.
Proof.
  intro Hok. unfold assign_bills_to_speeches.
  destruct bm as [|kv bm'] eqn:Eb.
  - rewrite label_from_empty_registry. cbn [snd]. apply map_ext. intro rec.
    pose proof (label_from_empty_registry U [rec]) as H.
    cbn [label_from map] in H.
    destruct (label_speech U [] initial_state rec) as [st1 l1].
    inversion H. reflexivity.
  - apply (@label_from_stateless U (kv :: bm')); [discriminate | exact Hok].
Qed.

Lemma resolver_labels_each_record_alone_witness :
  let bm := snd (collect_bills_and_keywords ucd_latin_hangul sitting) in
  registry_ok bm = true /\
  assign_bills_to_speeches ucd_latin_hangul sitting bm
  = map (fun rec => snd (label_speech ucd_latin_hangul bm initial_state rec)) sitting.
Proof.
  intro bm.
  assert (H1 : registry_ok bm = true) by (vm_compute; reflexivity).
  split; [exact H1|].
  exact (@resolver_labels_each_record_alone ucd_latin_hangul bm sitting H1).
Defined.

(** X14.  In [main], where the registry is built from the transcript that is
    labelled, a record whose own field mentions a bill is always assigned a
    bill of the summary with confidence 0.6 at least: either on the text, by
    a hard hit or two soft hits, or else one of the bills that its field
    mentions. *)
Theorem main_trusts_the_field
        (U : unicode_db) (speeches : list speech) (l : labeled) (r : str) :
  In l (snd (main U speeches)) ->
  In r (split_raw_bills_field U (bills (rec_of l))) ->
  normalize_bill_title U r <> [] ->
  0.6 <= bill_confidence l /\
  exists c,
    bill_assigned l = Some c /\
    In c (map canonical (fst (main U speeches))) /\
    ((exists h s, (0 < h \/ 2 <= s)%Z /\
                  bill_reason l = py "text-match(" ++ score_reason (h, s) ++ py ")")
     \/
     (exists r', In r' (split_raw_bills_field U (bills (rec_of l))) /\
                 c = normalize_bill_title U r')).
Proof.
  rewrite main_unfold. cbn [fst snd]. rewrite summary_keys.
  set (bm := snd (collect_bills_and_keywords U speeches)).
  intros Hl Hr Hn.
  destruct (collect_registry_ok U speeches) as [_ Hok]. fold bm in Hok.
  destruct (@label_of_record U bm speeches l Hl) as [Hrec [st [F1 [F2 F3]]]].
  pose proof (@registry_knows_mention U speeches (rec_of l) r Hrec Hr Hn) as Hkey.
  fold bm in Hkey.
  assert (Hne : bm <> []) by (intro E; rewrite E in Hkey; exact Hkey).
  assert (Hc0 : In (normalize_bill_title U r) (candidates_of U bm (rec_of l))).
  { apply candidates_of_spec. split; [|exact Hkey]. now exists r. }
  destruct (@pick_decision U bm Hne Hok st (rec_of l)) as [c [Hk [_ [Hmax D]]]].
  destruct D as [[Hc Hp]|[Hs [c' [Hin [Hs' [Hmax' Hp]]]]]];
    rewrite Hp in F1, F2, F3; rewrite !fst_of_pair in F1; rewrite fst_of_pair, snd_of_pair in F2; rewrite snd_of_pair in F3.
  - assert (Hc' : (0 < fst (score_of U bm (or_empty (speech_text (rec_of l))) c)
                   \/ 2 <= snd (score_of U bm (or_empty (speech_text (rec_of l))) c))%Z).
    { destruct Hc as [E|Hc]; [|exact Hc]. rewrite E in Hc0. contradiction. }
    split.
    + rewrite F2, text_conf_rounded. unfold text_conf.
      destruct (0 <? fst (score_of U bm _ c))%Z eqn:E1; [discriminate|].
      destruct (2 <=? snd (score_of U bm _ c))%Z eqn:E2; [discriminate|].
      apply Z.ltb_ge in E1. apply Z.leb_gt in E2. lia.
    + exists c. split; [exact F1|]. split; [exact Hk|]. left.
      exists (fst (score_of U bm (or_empty (speech_text (rec_of l))) c)),
             (snd (score_of U bm (or_empty (speech_text (rec_of l))) c)).
      split; [exact Hc'|]. rewrite F3. now rewrite <- surjective_pairing.
  - split.
    + rewrite F2, (@cand_conf_rounded _ _ Hs Hs').
      destruct (snd (score_of U bm _ c') =? 0)%Z; discriminate.
    + exists c'. split; [exact F1|].
      apply candidates_of_spec in Hin. destruct Hin as [[r' [Hr' [E _]]] Hk'].
      split; [exact Hk'|]. right. now exists r'.
Qed.

Lemma main_trusts_the_field_witness :
  let r := py "2. 경찰공무원법 일부개정법률안(홍길동 의원 대표발의)" in
  let l := {| rec_of := utterance "김위원" "2. 경찰공무원법 일부개정법률안(홍길동 의원 대표발의)" "";
              bill_assigned := Some (py "경찰공무원법");
              bill_confidence := 0.60;
              bill_reason := py "bills-field-candidate + text(0,0)" |} in
  (In l (snd (main ucd_latin_hangul sitting)) /\
   In r (split_raw_bills_field ucd_latin_hangul (bills (rec_of l))) /\
   normalize_bill_title ucd_latin_hangul r <> []) /\
  0.6 <= bill_confidence l.
Proof.
  intros r l.
  assert (H1 : In l (snd (main ucd_latin_hangul sitting))).
  { vm_compute. right. right. left. reflexivity. }
  assert (H2 : In r (split_raw_bills_field ucd_latin_hangul (bills (rec_of l)))).
  { vm_compute. left. reflexivity. }
  assert (H3 : normalize_bill_title ucd_latin_hangul r <> []) by (vm_compute; discriminate).
  split; [exact (conj H1 (conj H2 H3))|].
  exact (proj1 (@main_trusts_the_field ucd_latin_hangul sitting l r H1 H2 H3)).
Defined.

(** X15.  In [main], a record whose text quotes the canonical title of a bill of
    the summary word for word is labelled on its text with confidence 0.9:
    it is assigned a bill with a hard hit, as many hard hits at least as
    the quoted bill has, whatever its field says. *)
Theorem main_quoted_title_wins
        (U : unicode_db) (speeches : list speech) (l : labeled) (canon : str) :
  In l (snd (main U speeches)) ->
  In canon (map canonical (fst (main U speeches))) ->
  substring canon (normalize_text U (or_empty (speech_text (rec_of l)))) ->
  let bm := snd (collect_bills_and_keywords U speeches) in
  let text := or_empty (speech_text (rec_of l)) in
  bill_confidence l == 0.9 /\
  exists c,
    bill_assigned l = Some c /\
    In c (map canonical (fst (main U speeches))) /\
    (1 <= fst (score_of U bm text canon) <= fst (score_of U bm text c))%Z /\
    bill_reason l = py "text-match(" ++ score_reason (score_of U bm text c) ++ py ")".
Proof.
  rewrite main_unfold. cbn [fst snd]. rewrite summary_keys.
  intros Hl Hcanon Hq.
  set (bm := snd (collect_bills_and_keywords U speeches)) in *.
  set (text := or_empty (speech_text (rec_of l))) in *.
  destruct (collect_registry_ok U speeches) as [Hnd Hok]. fold bm in Hnd, Hok.
  destruct (@label_of_record U bm speeches l Hl) as [_ [st [F1 [F2 F3]]]].
  assert (Hne : bm <> []) by (intro E; rewrite E in Hcanon; exact Hcanon).
  assert (Hhard : (1 <= fst (score_of U bm text canon))%Z).
  { destruct (@dict_get_keys _ _ _ str_eqb_eq bm canon Hcanon) as [e G].
    unfold score_of. rewrite G.
    pose proof (@dict_get_In _ _ _ str_eqb_eq _ _ _ G) as Hin.
    destruct (collect_registry_ok U speeches) as [_ Hok'].
    assert (Hp : patterns e = canon :: keywords e /\ canon <> []).
    { unfold bm, collect_bills_and_keywords in Hin. cbn [snd] in Hin.
      apply bill_map_In in Hin. destruct Hin as [vs [Hin E]]. subst e.
      destruct (canonical_set_ok U (bill_variants U speeches)) as [_ Hf].
      assert (Hc : canon <> []).
      { rewrite Forall_forall in Hf. apply Hf.
        unfold dict_keys. apply in_map_iff. now exists (canon, vs). }
      split; [now apply entry_of_patterns | exact Hc]. }
    destruct Hp as [Hp Hc]. exact (@quote_scores_hard U text e canon (keywords e) Hp Hc Hq). }
  destruct (@pick_decision U bm Hne Hok st (rec_of l)) as [c [Hk [_ [Hmax D]]]].
  fold text in Hmax, D.
  pose proof (Hmax canon Hcanon) as Hle. apply score_gt_false in Hle.
  destruct D as [[Hc Hp]|[Hs _]]; [|lia].
  rewrite Hp in F1, F2, F3. rewrite !fst_of_pair in F1; rewrite fst_of_pair, snd_of_pair in F2; rewrite snd_of_pair in F3.
  split.
  - rewrite F2, text_conf_rounded. unfold text_conf.
    destruct (0 <? fst (score_of U bm text c))%Z eqn:E1; [reflexivity|].
    apply Z.ltb_ge in E1. lia.
  - exists c. split; [exact F1|]. split; [exact Hk|]. split; [lia | exact F3].
Qed.

Lemma main_quoted_title_wins_witness :
  let canon := py "자연재해대책법" in
  let l := {| rec_of := utterance "김위원" "" "자연재해대책법 개정의 취지를 설명드리겠습니다";
              bill_assigned := Some (py "자연재해대책법");
              bill_confidence := 0.90;
              bill_reason := py "text-match(hard=1, soft=1)" |} in
  (In l (snd (main ucd_latin_hangul debate)) /\
   In canon (map canonical (fst (main ucd_latin_hangul debate))) /\
   substring canon (normalize_text ucd_latin_hangul (or_empty (speech_text (rec_of l))))) /\
  bill_confidence l == 0.9.
Proof.
  intros canon l.
  assert (H1 : In l (snd (main ucd_latin_hangul debate))).
  { vm_compute. right. right. left. reflexivity. }
  assert (H2 : In canon (map canonical (fst (main ucd_latin_hangul debate)))).
  { vm_compute. left. reflexivity. }
  assert (H3 : substring canon
                 (normalize_text ucd_latin_hangul (or_empty (speech_text (rec_of l))))).
  { exists [], (py " 개정의 취지를 설명드리겠습니다"). vm_compute. reflexivity. }
  split; [exact (conj H1 (conj H2 H3))|].
  exact (proj1 (@main_quoted_title_wins ucd_latin_hangul debate l canon H1 H2 H3)).
Defined.

(** ** The engine of [process_bills.py] and its records *)

Lemma rstrip_cons (c : char) (r : str) :
  rstrip (c :: r) = match rstrip r with
                    | [] => if is_space c then [] else [c]
                    | r' => c :: r'
                    end.
Proof. reflexivity. Qed.

Lemma rstrip_idem (s : str) : rstrip (rstrip s) = rstrip s.
Proof.
  induction s as [|c r IH]; [reflexivity|].
  rewrite (rstrip_cons c r). destruct (rstrip r) as [|c' r'] eqn:E.
  - destruct (is_space c) eqn:Ec; [reflexivity|]. cbn [rstrip]. now rewrite Ec.
  - rewrite (rstrip_cons c (c' :: r')), IH. reflexivity.
Qed.

Lemma rstrip_cons_ink (c : char) (r : str) :
  is_space c = false -> rstrip (c :: r) = c :: rstrip r.
Proof.
  intro Hc. rewrite rstrip_cons. destruct (rstrip r); [now rewrite Hc | reflexivity].
Qed.

Lemma rstrip_head (c : char) (r : str) :
  is_space c = false -> exists r', rstrip (c :: r) = c :: r'.
Proof.
  intro Hc. cbn [rstrip]. destruct (rstrip r) as [|c' r'].
  - rewrite Hc. now exists [].
  - now exists (c' :: r').
Qed.

Lemma strip_idem (s : str) : strip (strip s) = strip s.
Proof.
  unfold strip, lstrip.
  pose proof (dropWhile_head is_space s) as H.
  destruct (dropWhile is_space s) as [|c r]; [reflexivity|].
  destruct (@rstrip_head c r H) as [r' E].
  rewrite E. cbn [dropWhile]. rewrite H. rewrite <- E. apply rstrip_idem.
Qed.

Lemma rstrip_app (a b : str) : rstrip b <> [] -> rstrip (a ++ b) = a ++ rstrip b.
Proof.
  intro H. induction a as [|c a IH]; [reflexivity|].
  cbn [app rstrip]. rewrite IH.
  destruct (a ++ rstrip b) eqn:E; [|reflexivity].
  destruct a; [now apply H in E | discriminate].
Qed.

Lemma split_char_pieces (sep : char) (s : str) :
  forall acc piece,
    ~ In sep acc -> In piece (split_char sep acc s) -> ~ In sep piece.
Proof.
  induction s as [|c r IH]; intros acc piece Ha H.
  - destruct H as [H|[]]. subst piece. now rewrite <- in_rev.
  - cbn [split_char] in H. destruct (N.eqb_spec c sep) as [E|E].
    + destruct H as [H|H].
      * subst piece. now rewrite <- in_rev.
      * apply (IH [] piece); [intros [] | exact H].
    + apply (IH (c :: acc) piece); [|exact H].
      intros [H'|H']; [now apply E | now apply Ha].
Qed.

Lemma split_char_none (sep : char) (s : str) :
  ~ In sep s -> forall acc, split_char sep acc s = [rev acc ++ s].
Proof.
  induction s as [|c r IH]; intros H acc.
  - cbn. now rewrite app_nil_r.
  - cbn [split_char]. destruct (N.eqb_spec c sep) as [E|E].
    + exfalso. apply H. now left.
    + rewrite IH by (intro H'; apply H; now right).
      cbn [rev]. now rewrite <- app_assoc.
Qed.

Lemma strip_keeps_absent (x : char) (s : str) : ~ In x s -> ~ In x (strip s).
Proof.
  intros H Hin. apply H.
  assert (F : Forall (fun c => c <> x) (strip s)).
  { unfold strip, lstrip. apply rstrip_Forall, dropWhile_Forall.
    apply Forall_forall. intros c Hc E. subst c. now apply H. }
  rewrite Forall_forall in F. exfalso. exact (F x Hin eq_refl).
Qed.

(** The lines of a field: each one is trimmed, not empty, and without a line
    feed. *)
Lemma bill_list_lines (bill_string : json) (bill_list : list str) (b : str) :
  bill_list_of bill_string = Returns bill_list ->
  In b bill_list ->
  b <> [] /\ strip b = b /\ ~ In LF b.
Proof.
  destruct bill_string as [s| |t]; try discriminate.
  cbn [bill_list_of]. intro E. inversion E; subst bill_list. clear E.
  intro H. apply in_map_iff in H. destruct H as [x [E Hx]].
  apply filter_In in Hx. destruct Hx as [Hx Hn]. subst b.
  split; [destruct (strip x); [discriminate | discriminate]|].
  split; [apply strip_idem|].
  apply strip_keeps_absent. apply (@split_char_pieces LF s [] x); [intros [] | exact Hx].
Qed.

Lemma bill_list_of_line (b : str) :
  b <> [] -> strip b = b -> ~ In LF b -> bill_list_of (Str b) = Returns [b].
Proof.
  intros Hn Hs Hl. cbn [bill_list_of]. rewrite (@split_char_none LF b Hl []).
  cbn [rev app filter]. rewrite Hs. destruct b; [contradiction|].
  cbn [map]. now rewrite Hs.
Qed.

Lemma find_some_In (A : Type) (f : A -> bool) (l : list A) (x : A) :
  find f l = Some x -> In x l.
Proof.
  induction l as [|y l IH]; simpl; [discriminate|].
  destruct (f y); [intro H; inversion H; now left | intro H; right; now apply IH].
Qed.

(** The bill returned is a bill of the list. *)
Lemma find_most_relevant_bill_In (client : str -> list str -> reply)
      (text : str) (bill_list : list str) (b : str) :
  fst (find_most_relevant_bill client text bill_list) = Some b -> In b bill_list.
Proof.
  unfold find_most_relevant_bill.
  destruct (client text bill_list) as [content|]; [|discriminate].
  destruct (find (same_bill (strip content)) bill_list) as [o|] eqn:E.
  - cbn [fst]. intro H. inversion H; subst. exact (@find_some_In _ _ _ _ E).
  - destruct bill_list as [|first rest]; [discriminate|].
    cbn [fst]. intro H. inversion H; subst. now left.
Qed.

Lemma speech_get_set (s : record) (k : str) (v : json) :
  speech_get (dict_set str_eqb s k v) k = v.
Proof.
  unfold speech_get. now rewrite (dict_get_set_same _ str_eqb_eq).
Qed.

Lemma distinct_constant (x : str) (l : list str) :
  l <> [] -> Forall (fun y => y = x) l -> distinct l = [x].
Proof.
  intros Hn H. induction H as [|y l Hy Hl IH]; [contradiction|].
  subst y. cbn [distinct]. destruct l as [|z l'].
  - reflexivity.
  - assert (M : mem x (z :: l') = true).
    { apply mem_In. inversion Hl; subst. now left. }
    rewrite M. apply IH. discriminate.
Qed.

Section Engine.
Variable U : unicode_db.

Lemma takeWhile_app_all (f : char -> bool) (a b : str) :
  Forall (fun c => f c = true) a ->
  takeWhile f (a ++ b) = a ++ takeWhile f b /\
  dropWhile f (a ++ b) = dropWhile f b.
Proof.
  induction 1 as [|c a Hc Ha [IH1 IH2]]; [now split|].
  cbn [app takeWhile dropWhile]. rewrite Hc, IH1, IH2. now split.
Qed.

Lemma lazy_name_upto (name rest : str) :
  ~ In LPAREN name -> ~ In LF name ->
  lazy_name (name ++ LPAREN :: rest) = Some name.
Proof.
  induction name as [|c name IH]; intros H1 H2.
  - cbn. reflexivity.
  - cbn [app lazy_name].
    destruct (N.eqb_spec c LPAREN) as [E|E]; [exfalso; apply H1; now left|].
    destruct (N.eqb_spec c LF) as [E'|E']; [exfalso; apply H2; now left|].
    rewrite IH; [reflexivity | |]; intro H; [apply H1 | apply H2]; now right.
Qed.

(** What the loop body makes of a record, when it returns: the record, or
    the record with one line of its field as its field. *)
Lemma process_speech_outcome ask (total i : nat) (s s' : record) :
  fst (process_speech U ask total i s) = Returns s' ->
  s' = s \/
  exists bill_list b,
    bill_list_of (speech_get s (py "bills")) = Returns bill_list /\
    In b bill_list /\
    s' = dict_set str_eqb s (py "bills") (Str b).
Proof.
  unfold process_speech.
  destruct (bill_list_of (speech_get s (py "bills"))) as [bl|e] eqn:Eb; [|discriminate].
  destruct (Nat.leb (List.length bl) 1); [intro H; inversion H; now left|].
  destruct (dict_get str_eqb s (py "speech_id")) as [id|]; [|discriminate].
  destruct (Nat.eqb (List.length (distinct (map (get_bill_name U) bl))) 1);
    [intro H; inversion H; now left|].
  destruct (find_most_relevant_bill (ask i) (shown_as (speech_get s (py "speech_text"))) bl)
    as [m lg] eqn:Ef.
  destruct (truthy m) eqn:Et; [|intro H; inversion H; now left].
  intro H. inversion H. right.
  destruct m as [[|c b]|]; try discriminate.
  exists bl, (c :: b). split; [reflexivity|]. split; [|reflexivity].
  apply (@find_most_relevant_bill_In (ask i)
           (shown_as (speech_get s (py "speech_text"))) bl (c :: b)).
  now rewrite Ef.
Qed.

End Engine.

(** X16.  The name of a bill written as an enumeration number with its dot, the
    name, and a remark in parentheses is the name, trimmed: the number, the
    white space after the dot and everything from the first parenthesis on
    are left out. *)
Theorem get_bill_name_enumerated (U : unicode_db) (d ws name rest : str) :
  d <> [] ->
  Forall (fun c => is_decimal U c = true) d ->
  Forall (fun c => is_space c = true) ws ->
  ~ In LPAREN name -> ~ In LF name ->
  get_bill_name U (d ++ DOT :: ws ++ name ++ LPAREN :: rest) = strip name.
Proof.
  intros Hd Fd Fw Hp Hl. unfold get_bill_name.
  assert (Es : strip (d ++ DOT :: ws ++ name ++ LPAREN :: rest)
               = d ++ DOT :: ws ++ name ++ LPAREN :: rstrip rest).
  { unfold strip, lstrip. destruct d as [|c d']; [contradiction|].
    cbn [app dropWhile]. inversion Fd as [|? ? Hc Fd']; subst.
    rewrite (decimal_not_space U c Hc).
    replace (c :: d' ++ DOT :: ws ++ name ++ LPAREN :: rest)
      with ((c :: d' ++ DOT :: ws ++ name) ++ LPAREN :: rest)
      by (repeat (rewrite <- app_assoc || rewrite <- app_comm_cons); reflexivity).
    rewrite rstrip_app.
    - rewrite (@rstrip_cons_ink LPAREN rest eq_refl).
      repeat (rewrite <- app_assoc || rewrite <- app_comm_cons). reflexivity.
    - rewrite (@rstrip_cons_ink LPAREN rest eq_refl). discriminate. }
  rewrite Es.
  destruct (@takeWhile_app_all (is_decimal U) d (DOT :: ws ++ name ++ LPAREN :: rstrip rest) Fd)
    as [T1 T2].
  rewrite T1, T2.
  assert (Edot : is_decimal U DOT = false) by (rewrite ascii_decimal; reflexivity).
  cbn [takeWhile dropWhile]. rewrite Edot, app_nil_r.
  destruct d as [|c d']; [contradiction|]. cbn [N.eqb]. rewrite N.eqb_refl.
  destruct (@takeWhile_app_all is_space ws (name ++ LPAREN :: rstrip rest) Fw) as [_ W2].
  rewrite W2.
  assert (En : dropWhile is_space (name ++ LPAREN :: rstrip rest)
               = dropWhile is_space name ++ LPAREN :: rstrip rest).
  { clear - Hp. induction name as [|c name IH]; [reflexivity|].
    cbn [app dropWhile]. destruct (is_space c); [|reflexivity].
    apply IH. intro H. apply Hp. now right. }
  rewrite En, lazy_name_upto.
  - unfold strip, lstrip.
    assert (K : dropWhile is_space (dropWhile is_space name) = dropWhile is_space name).
    { pose proof (dropWhile_head is_space name) as H.
      destruct (dropWhile is_space name) as [|c0 r0]; [reflexivity|].
      cbn [dropWhile]. now rewrite H. }
    now rewrite K.
  - intro H. apply Hp.
    rewrite <- (takeWhile_dropWhile is_space name). apply in_or_app. now right.
  - intro H. apply Hl.
    rewrite <- (takeWhile_dropWhile is_space name). apply in_or_app. now right.
Qed.

Lemma get_bill_name_enumerated_witness :
  let d := py "12" in
  let ws := [SP; SP] in
  let name := py "교정공제회법 일부개정법률안 " in
  let rest := py "박홍근 의원 대표발의)(의안번호 1663) " in
  (d <> [] /\
   Forall (fun c => is_decimal ucd_latin_hangul c = true) d /\
   Forall (fun c => is_space c = true) ws /\
   ~ In LPAREN name /\ ~ In LF name) /\
  get_bill_name ucd_latin_hangul (d ++ DOT :: ws ++ name ++ LPAREN :: rest)
    = py "교정공제회법 일부개정법률안".
Proof.
  intros d ws name rest.
  assert (H1 : d <> []) by (vm_compute; discriminate).
  assert (H2 : Forall (fun c => is_decimal ucd_latin_hangul c = true) d)
    by (repeat constructor).
  assert (H3 : Forall (fun c => is_space c = true) ws) by (repeat constructor).
  assert (H4 : ~ In LPAREN name) by absent_char.
  assert (H5 : ~ In LF name) by absent_char.
  split; [exact (conj H1 (conj H2 (conj H3 (conj H4 H5))))|].
  exact (@get_bill_name_enumerated ucd_latin_hangul d ws name rest H1 H2 H3 H4 H5).
Defined.

Section EngineRuns.
Variable U : unicode_db.

Lemma process_from_app ask (total : nat) (pre rest : list record) :
  forall i out,
    fst (process_from U ask total i pre) = Returns out ->
    process_from U ask total i (pre ++ rest) =
    match process_from U ask total (i + List.length pre) rest with
    | (Returns o, lg) => (Returns (out ++ o), snd (process_from U ask total i pre) ++ lg)
    | (Raises e, lg) => (Raises e, snd (process_from U ask total i pre) ++ lg)
    end.
Proof.
  induction pre as [|s pre IH]; intros i out H.
  - cbn in H. inversion H; subst out. cbn [app List.length]. rewrite Nat.add_0_r.
    destruct (process_from U ask total i rest) as [[o|e] lg]; reflexivity.
  - cbn [app process_from List.length] in *.
    destruct (process_speech U ask total i s) as [[ns|e] lg] eqn:E; [|discriminate].
    destruct (process_from U ask total (S i) pre) as [[ps|e] lgs] eqn:E';
      [|discriminate].
    cbn [fst] in H. inversion H; subst out.
    rewrite (IH (S i) ps) by now rewrite E'.
    rewrite E'. cbn [snd]. replace (i + S (List.length pre))%nat
      with (S i + List.length pre)%nat by lia.
    destruct (process_from U ask total (S i + List.length pre) rest) as [[o|e] lg'];
      cbn [app]; now rewrite app_assoc.
Qed.

Lemma process_from_readable ask (total : nat) (sp : list record) :
  Forall readable sp ->
  forall i, exists out, fst (process_from U ask total i sp) = Returns out.
Proof.
  intros H i. apply process_from_total. intros j r Hj.
  apply process_speech_readable. rewrite Forall_forall in H.
  apply H. exact (nth_error_In _ _ Hj).
Qed.

End EngineRuns.

(** X17.  Lines that all have the same name are variants of one bill: the record
    is kept as it is, and the language model is not asked. *)
Theorem same_name_lines_are_kept
        (U : unicode_db) (ask : nat -> str -> list str -> reply) (total i : nat)
        (s : record) (bill_list : list str) (name : str) (id : json) :
  bill_list_of (speech_get s (py "bills")) = Returns bill_list ->
  (2 <= List.length bill_list)%nat ->
  Forall (fun b => get_bill_name U b = name) bill_list ->
  dict_get str_eqb s (py "speech_id") = Some id ->
  process_speech U ask total i s =
    (Returns s,
     [Info_analysing (S i) total (shown_as id) (List.length bill_list); Info_same_names]).
Proof.
  intros Hb Hl Hn Hid. unfold process_speech. rewrite Hb, Hid.
  destruct (Nat.leb_spec (List.length bill_list) 1) as [Hle|_]; [lia|].
  assert (Hd : distinct (map (get_bill_name U) bill_list) = [name]).
  { apply distinct_constant.
    - destruct bill_list; [simpl in Hl; lia | discriminate].
    - apply Forall_map. exact Hn. }
  rewrite Hd. reflexivity.
Qed.

Lemma same_name_lines_are_kept_witness :
  let s := converted "7004" (Str (py "위원장"))
             (Str (py (lines ["2. 경찰공무원법 일부개정법률안(홍길동 의원 대표발의)";
                              "3. 경찰공무원법 일부개정법률안(김철수 의원 대표발의)"]%string)))
             "두 안건을 병합하여 심사합니다" in
  let bill_list := map py ["2. 경찰공무원법 일부개정법률안(홍길동 의원 대표발의)";
                           "3. 경찰공무원법 일부개정법률안(김철수 의원 대표발의)"]%string in
  (bill_list_of (speech_get s (py "bills")) = Returns bill_list /\
   (2 <= List.length bill_list)%nat /\
   Forall (fun b => get_bill_name ucd_latin_hangul b = py "경찰공무원법 일부개정법률안")
          bill_list /\
   dict_get str_eqb s (py "speech_id") = Some (Other (py "7004"))) /\
  fst (process_speech ucd_latin_hangul timeout_then_answer 1 0 s) = Returns s.
Proof.
  intros s bill_list.
  assert (H1 : bill_list_of (speech_get s (py "bills")) = Returns bill_list)
    by (vm_compute; reflexivity).
  assert (H2 : (2 <= List.length bill_list)%nat) by (simpl; lia).
  assert (H3 : Forall (fun b => get_bill_name ucd_latin_hangul b
                                = py "경찰공무원법 일부개정법률안") bill_list)
    by (repeat constructor).
  assert (H4 : dict_get str_eqb s (py "speech_id") = Some (Other (py "7004")))
    by reflexivity.
  split; [exact (conj H1 (conj H2 (conj H3 H4)))|].
  rewrite (@same_name_lines_are_kept ucd_latin_hangul timeout_then_answer 1 0 s bill_list
             (py "경찰공무원법 일부개정법률안") (Other (py "7004")) H1 H2 H3 H4).
  reflexivity.
Defined.

(** X18.  The engine never makes up a bill.  In a run that returns, each record
    put out is the input record, or the input record with one of the lines
    of its own field [bills] as its field: the other fields and the order
    of the keys are those of the input. *)
Theorem process_keeps_or_selects
        (U : unicode_db) (ask : nat -> str -> list str -> reply)
        (speeches out : list record) (j : nat) (r r' : record) :
  fst (process_speeches U ask speeches) = Returns out ->
  nth_error speeches j = Some r ->
  nth_error out j = Some r' ->
  (r' = r \/
   exists bill_list b,
     bill_list_of (speech_get r (py "bills")) = Returns bill_list /\
     In b bill_list /\
     r' = dict_set str_eqb r (py "bills") (Str b)) /\
  (forall k, k <> py "bills" -> dict_get str_eqb r' k = dict_get str_eqb r k) /\
  dict_keys r' = dict_keys r.
Proof.
  intros Ho Hj Hj'. unfold process_speeches in Ho.
  destruct (@process_from_returns U ask (List.length speeches) speeches 0 out Ho)
    as [_ Hn].
  destruct (Hn j r Hj) as [r1 [E1 N1]]. rewrite N1 in Hj'. inversion Hj'; subst r1.
  cbn [Nat.add] in E1.
  destruct (@process_speech_outcome U ask (List.length speeches) j r r' E1)
    as [E|[bl [b [Hb [Hin E]]]]].
  - subst r'. split; [now left|]. split; reflexivity.
  - split; [right; now exists bl, b|]. subst r'. split.
    + intros k Hk. apply (dict_get_set_other _ str_eqb_eq). exact Hk.
    + rewrite (dict_keys_set str_eqb).
      assert (M : dict_mem str_eqb r (py "bills") = true).
      { unfold dict_mem. unfold speech_get in Hb.
        destruct (dict_get str_eqb r (py "bills")); [reflexivity|].
        cbn in Hb. inversion Hb; subst bl. contradiction. }
      now rewrite M.
Qed.

Lemma process_keeps_or_selects_witness :
  let r := converted "7002" (Str (py "김위원"))
             (Str (py (lines ["1. 자연재해대책법 일부개정법률안(정부 제출)";
                              "2. 경찰공무원법 일부개정법률안(홍길동 의원 대표발의)"]%string)))
             "경찰공무원법에 대하여 질의하겠습니다" in
  let b := py "2. 경찰공무원법 일부개정법률안(홍길동 의원 대표발의)" in
  let r' := dict_set str_eqb r (py "bills") (Str b) in
  exists out,
    (fst (process_speeches ucd_latin_hangul timeout_then_answer two_bill_records)
       = Returns out /\
     nth_error two_bill_records 1 = Some r /\
     nth_error out 1 = Some r') /\
    dict_keys r' = dict_keys r.
Proof.
  intros r b r'.
  exists [converted "7001" (Str (py "위원장"))
             (Str (py (lines ["1. 자연재해대책법 일부개정법률안(정부 제출)";
                              "2. 경찰공무원법 일부개정법률안(홍길동 의원 대표발의)"]%string)))
             "두 안건을 일괄하여 상정합니다"; r'].
  assert (H1 : fst (process_speeches ucd_latin_hangul timeout_then_answer two_bill_records)
               = Returns [converted "7001" (Str (py "위원장"))
                            (Str (py (lines ["1. 자연재해대책법 일부개정법률안(정부 제출)";
                                             "2. 경찰공무원법 일부개정법률안(홍길동 의원 대표발의)"]%string)))
                            "두 안건을 일괄하여 상정합니다"; r'])
    by (vm_compute; reflexivity).
  assert (H2 : nth_error two_bill_records 1 = Some r) by reflexivity.
  split; [split; [exact H1 | split; [exact H2 | reflexivity]]|].
  exact (proj2 (proj2 (@process_keeps_or_selects ucd_latin_hangul timeout_then_answer
                         two_bill_records _ 1 r r' H1 H2 eq_refl))).
Defined.

(** X19.  A record that the engine has rewritten is settled: its field is one
    line, so that any later pass, whatever the language model, returns it as
    it is, asks nothing and logs nothing. *)
Theorem rewritten_record_is_settled
        (U : unicode_db) (ask : nat -> str -> list str -> reply) (total i : nat)
        (s s' : record) :
  fst (process_speech U ask total i s) = Returns s' ->
  s' <> s ->
  forall (ask' : nat -> str -> list str -> reply) (total' j : nat),
    process_speech U ask' total' j s' = (Returns s', []).
Proof.
  intros H Hd ask' total' j.
  destruct (@process_speech_outcome U ask total i s s' H) as [E|[bl [b [Hb [Hin E]]]]];
    [contradiction|].
  destruct (@bill_list_lines _ bl b Hb Hin) as [Hn [Hs Hl]].
  unfold process_speech. subst s'. rewrite speech_get_set.
  rewrite (bill_list_of_line Hn Hs Hl). reflexivity.
Qed.

Lemma rewritten_record_is_settled_witness :
  let s := converted "7002" (Str (py "김위원"))
             (Str (py (lines ["1. 자연재해대책법 일부개정법률안(정부 제출)";
                              "2. 경찰공무원법 일부개정법률안(홍길동 의원 대표발의)"]%string)))
             "경찰공무원법에 대하여 질의하겠습니다" in
  let s' := dict_set str_eqb s (py "bills")
              (Str (py "2. 경찰공무원법 일부개정법률안(홍길동 의원 대표발의)")) in
  (fst (process_speech ucd_latin_hangul timeout_then_answer 2 1 s) = Returns s' /\
   s' <> s) /\
  process_speech ucd_latin_hangul (fun _ _ _ => Raised) 9 4 s' = (Returns s', []).
Proof.
  intros s s'.
  assert (H1 : fst (process_speech ucd_latin_hangul timeout_then_answer 2 1 s) = Returns s')
    by (vm_compute; reflexivity).
  assert (H2 : s' <> s) by (vm_compute; discriminate).
  split; [exact (conj H1 H2)|].
  exact (@rewritten_record_is_settled ucd_latin_hangul timeout_then_answer 2 1 s s' H1 H2
           (fun _ _ _ => Raised) 9%nat 4%nat).
Defined.

(** X20.  An answer that is empty once trimmed is part of every line: the first
    bill of the list is returned as the selection, and no warning tells it
    from an answer that names that bill. *)
Theorem blank_answer_selects_first_bill
        (client : str -> list str -> reply) (speech_text content : str)
        (first : str) (rest : list str) :
  client speech_text (first :: rest) = Content content ->
  strip content = [] ->
  find_most_relevant_bill client speech_text (first :: rest) = (Some first, []).
Proof.
  intros Hc Hs. unfold find_most_relevant_bill. rewrite Hc, Hs.
  cbn [find]. unfold same_bill.
  assert (E : contains [] first = true) by (destruct first; reflexivity).
  rewrite E, orb_true_r. reflexivity.
Qed.

Lemma blank_answer_selects_first_bill_witness :
  let client := fun (_ : str) (_ : list str) => Content (py "  ") in
  (client [] three_bills = Content (py "  ") /\ strip (py "  ") = []) /\
  find_most_relevant_bill client [] three_bills
    = (Some (py "1. 자연재해대책법 일부개정법률안(정부 제출)"), []).
Proof.
  intro client.
  assert (H1 : client [] three_bills = Content (py "  ")) by reflexivity.
  assert (H2 : strip (py "  ") = []) by reflexivity.
  split; [exact (conj H1 H2)|].
  exact (@blank_answer_selects_first_bill client [] (py "  ")
           (py "1. 자연재해대책법 일부개정법률안(정부 제출)")
           (map py ["2. 경찰공무원법 일부개정법률안(홍길동 의원 대표발의)";
                    "3. 경찰공무원법 일부개정법률안(김철수 의원 대표발의)"]%string)
           H1 H2).
Defined.

(** X21.  A record whose field [bills] is there and is no string, [null] for one,
    ends the run: [split] raises outside any [try] block, nothing is
    written, and the records after it are not read.  What is logged is what
    the records before it have logged. *)
Theorem value_without_split_ends_the_run
        (U : unicode_db) (ask : nat -> str -> list str -> reply)
        (pre post : list record) (s : record) (v : json) :
  Forall readable pre ->
  dict_get str_eqb s (py "bills") = Some v ->
  (forall t, v <> Str t) ->
  let speeches := pre ++ s :: post in
  process_speeches U ask speeches =
    (Raises AttributeError, snd (process_from U ask (List.length speeches) 0 pre)).
Proof.
  intros Hpre Hv Hns speeches. unfold process_speeches.
  destruct (@process_from_readable U ask (List.length speeches) pre Hpre 0%nat)
    as [out Ho].
  unfold speeches at 2. rewrite (@process_from_app U ask _ pre (s :: post) 0 out Ho).
  cbn [process_from].
  assert (E : process_speech U ask (List.length speeches) (0 + List.length pre) s
              = (Raises AttributeError, [])).
  { unfold process_speech, speech_get. rewrite Hv.
    destruct v as [t| |t]; [now destruct (Hns t) | reflexivity | reflexivity]. }
  rewrite E. now rewrite app_nil_r.
Qed.

Lemma value_without_split_ends_the_run_witness :
  let s := converted "7003" (Str (py "박위원")) Null "예" in
  (Forall readable two_bill_records /\
   dict_get str_eqb s (py "bills") = Some Null /\
   (forall t, Null <> Str t)) /\
  fst (process_speeches ucd_latin_hangul timeout_then_answer (two_bill_records ++ [s]))
    = Raises AttributeError.
Proof.
  intro s.
  assert (H1 : Forall readable two_bill_records).
  { repeat constructor; try (eexists; vm_compute; reflexivity). }
  assert (H2 : dict_get str_eqb s (py "bills") = Some Null) by reflexivity.
  assert (H3 : forall t, Null <> Str t) by (intros t; discriminate).
  split; [exact (conj H1 (conj H2 H3))|].
  rewrite (@value_without_split_ends_the_run ucd_latin_hangul timeout_then_answer
             two_bill_records [] s Null H1 H2 H3).
  reflexivity.
Defined.
